(** * Beat & Stems Lab: the analysis core, embedded and verified

    A shallow embedding of the pure parts of [src/timing.py],
    [src/chords.py], [src/drums.py] and [src/melody.py], with the constants
    of [config.py].

    Numbers.  Python floats are IEEE 754 doubles.  Three models of them are
    used, each where it decides what is stated.
    - Exact numbers: rationals ([Q], executable, equality [==]) and, where
      square roots or trigonometric functions occur, reals ([R]).  They are
      used for statements that comparisons, counts and bounds decide and
      that do not depend on the last digit of a result.
    - Rounded numbers (modules [Rounded] over [Q] and [RoundedChords] over
      [R]): every arithmetic operation of the source is followed by a
      rounding [rnd].  Theorems hold for every rounding with a relative
      error of at most [u]; [Binary64.binary64] is the rounding of the
      doubles (53 significant bits, to nearest, ties to even, exponent range
      not bounded), with [u = 2^-53].  The identity is the exact
      arithmetic.
    - The doubles of the kernel (module [Double], [PrimFloat]): used to
      evaluate the source at concrete inputs, with underflow, infinities
      and NaN.

    Failures.  A Python exception is a value of [outcome]; a loop that may
    not terminate runs on fuel and reports [OutOfFuel]. *)

From Stdlib Require Import ZArith QArith Qround Qabs Qpower List String Ascii Bool.
From Stdlib Require Import Reals Psatz Sorting.Sorted Qminmax Permutation Qreals.
From Stdlib Require Floats.
Import ListNotations.

(** ** Outcomes of fallible code *)

Inductive outcome (A : Type) : Type :=
| Ok (a : A)
| ZeroDivisionError
| IndexError
| OutOfFuel.

Arguments Ok {A} a.
Arguments ZeroDivisionError {A}.
Arguments IndexError {A}.
Arguments OutOfFuel {A}.

Definition bind {A B : Type} (m : outcome A) (k : A -> outcome B) : outcome B :=
  match m with
  | Ok a => k a
  | ZeroDivisionError => ZeroDivisionError
  | IndexError => IndexError
  | OutOfFuel => OutOfFuel
  end.

Notation "x <- m ;; k" := (bind m (fun x => k))
  (at level 61, m at next level, right associativity).

(** ** config.py *)

Module Config.
Local Open Scope Q_scope.

Definition MELODY_CONF_THRESH : Q := 5 # 10.
Definition MELODY_MIN_NOTE_DURATION : Q := 1 # 10.
Definition MELODY_MAX_NOTE_DURATION : Q := 2.

Definition MIDI_VELOCITY_DEFAULT : Z := 64.
Definition MIDI_DRUM_VELOCITY : Z := 80.
Definition MIDI_DRUM_DURATION : Q := 1 # 10.

(** [DRUM_MAPPING], a dict in insertion order. *)
Definition DRUM_MAPPING : list (string * Z) :=
  [ ("kick"%string, 35%Z); ("snare"%string, 38%Z);
    ("closed_hat"%string, 42%Z); ("open_hat"%string, 46%Z);
    ("crash"%string, 49%Z) ].

(** [DRUM_THRESH] and [DRUM_FREQ_BANDS], used on the spectrum. *)
Definition DRUM_THRESH_kick_lowband : R := (65 / 100)%R.
Definition DRUM_THRESH_snare_mid : R := (6 / 10)%R.
Definition DRUM_THRESH_hat_high : R := (6 / 10)%R.

Definition DRUM_FREQ_BANDS_kick : R * R := (20, 150)%R.
Definition DRUM_FREQ_BANDS_snare : R * R := (150, 800)%R.
Definition DRUM_FREQ_BANDS_hat : R * R := (800, 8000)%R.
End Config.

(** ** Python and numpy operations used by several modules *)

(** Lookup in a dict kept as an association list ([k in d], [d[k]]). *)
Fixpoint dict_get {V : Type} (d : list (string * V)) (k : string) : option V :=
  match d with
  | [] => None
  | (k', v) :: d' => if String.eqb k k' then Some v else dict_get d' k
  end.

(** [xs[mask]] for a boolean mask of the length of [xs]. *)
Definition mask_select {A : Type} (mask : list bool) (xs : list A) : list A :=
  map snd (filter fst (combine mask xs)).

(** [int(x)]: truncation toward zero. *)
Definition py_int (x : Q) : Z :=
  if Qlt_le_dec x 0%Q then Qceiling x else Qfloor x.

(** [x % y] on floats: the remainder has the sign of [y]. *)
Definition py_mod (x y : Q) : Q :=
  (x - inject_Z (Qfloor (x / y)) * y)%Q.

(** [np.sum] of an array of reals. *)
Definition np_sum (v : list R) : R := fold_right Rplus 0%R v.

(** ** melody.py *)

Module Melody.
Local Open Scope Q_scope.

Record Note : Type := mkNote {
  pitch : Z;
  start_time : Q;
  end_time : Q;
  duration : Q;
  confidence : Q;
  velocity : Z
}.

(** [np.argmin]: the first index of a least element.  The loop keeps the
    best value and its index and replaces them on a strictly smaller
    value only. *)
Fixpoint argmin_from (l : list Q) (i : nat) (best : Q) (besti : nat) : nat :=
  match l with
  | [] => besti
  | x :: r =>
      if Qlt_le_dec x best then argmin_from r (S i) x i
      else argmin_from r (S i) best besti
  end.

Definition argmin (l : list Q) : nat :=
  match l with
  | [] => 0%nat
  | x :: r => argmin_from r 1 x 0
  end.

(** [beat_times[np.argmin(np.abs(np.array(beat_times) - t))]] *)
Definition nearest_beat (beat_times : list Q) (t : Q) : Q :=
  nth (argmin (map (fun b => Qabs (b - t)) beat_times)) beat_times 0.

(** The body of the loop of [quantize_notes_to_beats]. *)
Definition quantize_note (beat_times : list Q) (quantization_strength : Q)
    (note : Note) : Note :=
  let quantized_start := nearest_beat beat_times (start_time note) in
  let quantized_end := nearest_beat beat_times (end_time note) in
  let new_start :=
    start_time note * (1 - quantization_strength)
    + quantized_start * quantization_strength in
  let new_end :=
    end_time note * (1 - quantization_strength)
    + quantized_end * quantization_strength in
  let new_end :=
    if Qlt_le_dec (new_end - new_start) Config.MELODY_MIN_NOTE_DURATION
    then new_start + Config.MELODY_MIN_NOTE_DURATION
    else new_end in
  {| pitch := pitch note;
     start_time := new_start;
     end_time := new_end;
     duration := new_end - new_start;
     confidence := confidence note;
     velocity := velocity note |}.

Definition quantize_notes_to_beats (notes : list Note) (beat_times : list Q)
    (quantization_strength : Q) : list Note :=
  match beat_times, notes with
  | [], _ => notes
  | _, [] => notes
  | _, _ => map (quantize_note beat_times quantization_strength) notes
  end.



(** [np.mean] of a non-empty list. *)
Definition mean (l : list Q) : Q :=
  fold_right Qplus 0 l / inject_Z (Z.of_nat (List.length l)).

(** The block that closes a candidate note; the source has it twice, in the
    loop and after it.  The note is appended only when
    [min_note_duration <= note_duration <= max_note_duration]. *)
Definition close_note (min_note_duration max_note_duration : Q)
    (current_note : Z) (note_start note_end : Q) (note_confidence : list Q)
    (notes : list Note) : list Note :=
  let note_duration := note_end - note_start in
  if Qle_bool min_note_duration note_duration
     && Qle_bool note_duration max_note_duration
  then
    let avg_confidence := mean note_confidence in
    notes ++
    [ {| pitch := current_note;
         start_time := note_start;
         end_time := note_end;
         duration := note_duration;
         confidence := avg_confidence;
         velocity :=
           py_int (inject_Z Config.MIDI_VELOCITY_DEFAULT * avg_confidence) |} ]
  else notes.

(** The loop [for i in range(1, len(valid_times))] and the block after it.
    [frames] holds [(valid_times[i], valid_notes[i], valid_conf[i])] for the
    indices still to visit, [prev_time] is [valid_times[i-1]]; when no index
    is left it is [valid_times[-1]]. *)
Fixpoint segment_loop (min_note_duration max_note_duration : Q)
    (frames : list (Q * (Z * Q)))
    (current_note : Z) (note_start : Q) (note_confidence : list Q)
    (prev_time : Q) (notes : list Note) : list Note :=
  match frames with
  | [] =>
      close_note min_note_duration max_note_duration
        current_note note_start prev_time note_confidence notes
  | (t, (p, c)) :: rest =>
      if Z.eqb p current_note then
        segment_loop min_note_duration max_note_duration rest
          current_note note_start (note_confidence ++ [c]) t notes
      else
        segment_loop min_note_duration max_note_duration rest
          p t [c] t
          (close_note min_note_duration max_note_duration
             current_note note_start prev_time note_confidence notes)
  end.

Section F0.

(** [np.round(librosa.hz_to_midi(f)).astype(int)], of the librosa and numpy
    libraries. *)
Variable hz_to_midi_round : Q -> Z.

(** Indexing by a boolean mask of another length raises [IndexError]: the
    three arrays must have one length. *)
Definition f0_to_midi_notes (f0_times f0_frequencies f0_confidence : list Q)
    (confidence_threshold min_note_duration max_note_duration : Q)
    : outcome (list Note) :=
  if negb (Nat.eqb (List.length f0_times) (List.length f0_confidence)
           && Nat.eqb (List.length f0_frequencies) (List.length f0_confidence))
  then IndexError
  else
    let confident_mask :=
      map (fun c => if Qlt_le_dec confidence_threshold c then true else false)
          f0_confidence in
    let confident_times := mask_select confident_mask f0_times in
    let confident_freqs := mask_select confident_mask f0_frequencies in
    let confident_conf := mask_select confident_mask f0_confidence in
    match confident_times with
    | [] => Ok []
    | _ :: _ =>
        let midi_notes := map hz_to_midi_round confident_freqs in
        let valid_mask :=
          map (fun m => Z.leb 0 m && Z.leb m 127) midi_notes in
        let valid_times := mask_select valid_mask confident_times in
        let valid_notes := mask_select valid_mask midi_notes in
        let valid_conf := mask_select valid_mask confident_conf in
        match valid_times, valid_notes, valid_conf with
        | t0 :: ts, p0 :: ps, c0 :: cs =>
            Ok (segment_loop min_note_duration max_note_duration
                  (combine ts (combine ps cs)) p0 t0 [c0] t0 [])
        | _, _, _ => Ok []
        end
    end.

End F0.

(** [hz_to_midi_round] in exact arithmetic, for positive frequencies:
    [round(12 * log2(f / 440) + 69) = n] exactly when
    [2^(2n-139) <= (f/440)^24 < 2^(2n-137)]; a rational [f] never meets a
    bound.  A frequency [f <= 0] gives [-inf] or [nan], which the cast turns
    into the least 64-bit integer. *)
Definition floor_log2 (r : Q) : Z :=
  let a := Qnum r in
  let b := Zpos (Qden r) in
  let l := (Z.log2 a - Z.log2 b)%Z in
  if Qle_bool (Qpower 2 l) r then l else (l - 1)%Z.

Definition hz_to_midi_round_exact (f : Q) : Z :=
  if Qle_bool f 0 then (- 2 ^ 63)%Z
  else
    let l := floor_log2 (Qpower (f / 440) 24) in
    let m := if Z.odd l then l else (l - 1)%Z in
    ((m + 139) / 2)%Z.
End Melody.

(** ** timing.py *)

Module Timing.
Local Open Scope Q_scope.

(** The loop of [detect_downbeats]; [tolerance] is recomputed at each
    iteration from [beat_interval]. *)
Fixpoint downbeat_loop (beat_interval measure_duration : Q)
    (beat_times : list Q) (current_measure_start : Q) (downbeats : list Q)
    : list Q :=
  match beat_times with
  | [] => downbeats
  | beat_time :: rest =>
      let time_since_measure :=
        py_mod (beat_time - current_measure_start) measure_duration in
      let tolerance := beat_interval * (1 # 10) in
      if (if Qlt_le_dec time_since_measure tolerance then true else false)
         || (if Qlt_le_dec (measure_duration - time_since_measure) tolerance
             then true else false)
      then downbeat_loop beat_interval measure_duration rest
             beat_time (downbeats ++ [beat_time])
      else downbeat_loop beat_interval measure_duration rest
             current_measure_start downbeats
  end.

(** [detect_downbeats]; [sr] is not used by the source.  At [tempo = 0] the
    division [60.0 / tempo] is reported as [ZeroDivisionError] (numpy would
    go on with an infinite interval). *)
Definition detect_downbeats (beat_times : list Q) (tempo : Q) (sr : Z)
    : outcome (list Q) :=
  match beat_times with
  | [] => Ok []
  | first :: _ =>
      if Qeq_bool tempo 0 then ZeroDivisionError
      else
        let beat_interval := 60 / tempo in
        let measures_per_beat := 4 in
        let measure_duration := beat_interval * measures_per_beat in
        Ok (downbeat_loop beat_interval measure_duration beat_times first [])
  end.

(** The loop [while current_time <= duration] of [refine_beat_grid]. *)
Fixpoint refine_loop (fuel : nat) (beat_interval duration : Q)
    (current_time : Q) (refined_beats : list Q) : outcome (list Q) :=
  match fuel with
  | O => OutOfFuel
  | S fuel' =>
      if Qle_bool current_time duration then
        refine_loop fuel' beat_interval duration
          (current_time + beat_interval) (refined_beats ++ [current_time])
      else Ok refined_beats
  end.

Definition refine_beat_grid (fuel : nat) (beat_times : list Q)
    (tempo duration : Q) : outcome (list Q) :=
  match beat_times with
  | [] => Ok []
  | start_time :: _ =>
      if Qeq_bool tempo 0 then ZeroDivisionError
      else
        let beat_interval := 60 / tempo in
        refine_loop fuel beat_interval duration start_time []
  end.

(** The progression [start, start + step, ...] of [n] terms, each the
    previous one plus [step]. *)
Fixpoint progression (start step : Q) (n : nat) : list Q :=
  match n with
  | O => []
  | S n' => start :: progression (start + step) step n'
  end.

(** A count as a rational. *)
Definition of_nat (n : nat) : Q := inject_Z (Z.of_nat n).

Record TimeSignature : Type := mkTimeSignature {
  numerator : Z;
  denominator : Z;
  confidence : Q
}.

(** The dictionary returned by [analyze_tempo_and_beats]; its
    [beat_confidence] entry, read off the onset envelope of librosa, is left
    out. *)
Record TempoAnalysis : Type := mkTempoAnalysis {
  ta_bpm : Q;
  ta_beat_times : list Q;
  ta_downbeat_times : list Q;
  ta_total_beats : nat;
  ta_duration : Q
}.

(** The dictionary returned by [create_beat_grid]. *)
Record BeatGrid : Type := mkBeatGrid {
  tempo : Q;
  beat_times : list Q;
  downbeat_times : list Q;
  time_signature : TimeSignature;
  rhythm_complexity : Q;
  syncopation : Q;
  duration : Q;
  total_beats : nat
}.

Section BeatGridEstimator.

(** The beat tracker of librosa: [librosa.beat.beat_track] followed by
    [librosa.frames_to_time], giving the tempo and the detected beat
    times. *)
Variable beat_track : list Q -> Z -> Q * list Q.

(** The entries [rhythm_regularity] and [syncopation] of
    [analyze_rhythm_complexity], computed from librosa's onset detection. *)
Variable analyze_rhythm_complexity : list Q -> Z -> Q * Q.

(** [detect_time_signature]; its choice among equally frequent beat counts
    follows the iteration order of a Python set. *)
Variable detect_time_signature : list Q -> Q -> TimeSignature.

Definition analyze_tempo_and_beats (audio : list Q) (sr : Z)
    : outcome TempoAnalysis :=
  let (tempo, beat_times) := beat_track audio sr in
  downbeat_times <- detect_downbeats beat_times tempo sr ;;
  if Z.eqb sr 0 then ZeroDivisionError
  else
    Ok {| ta_bpm := tempo;
          ta_beat_times := beat_times;
          ta_downbeat_times := downbeat_times;
          ta_total_beats := List.length beat_times;
          ta_duration := inject_Z (Z.of_nat (List.length audio)) / inject_Z sr |}.

Definition create_beat_grid (fuel : nat) (audio : list Q) (sr : Z)
    : outcome BeatGrid :=
  tempo_analysis <- analyze_tempo_and_beats audio sr ;;
  refined_beats <-
    refine_beat_grid fuel (ta_beat_times tempo_analysis)
      (ta_bpm tempo_analysis) (ta_duration tempo_analysis) ;;
  let rhythm_analysis := analyze_rhythm_complexity audio sr in
  let time_signature :=
    detect_time_signature (ta_beat_times tempo_analysis)
      (ta_bpm tempo_analysis) in
  Ok {| tempo := ta_bpm tempo_analysis;
        beat_times := refined_beats;
        downbeat_times := ta_downbeat_times tempo_analysis;
        time_signature := time_signature;
        rhythm_complexity := fst rhythm_analysis;
        syncopation := snd rhythm_analysis;
        duration := ta_duration tempo_analysis;
        total_beats := List.length refined_beats |}.

End BeatGridEstimator.

End Timing.

(** ** chords.py *)

Module Chords.

(** [CHORD_TEMPLATES], a dict of dicts in insertion order: root, then the
    masks of the qualities [major] and [minor]. *)
Definition CHORD_TEMPLATES : list (string * list (string * list Z)) :=
  let row (root : string) (major minor : list Z) :=
    (root, [("major"%string, major); ("minor"%string, minor)]) in
  [ row "C"  [1;0;0;0;1;0;0;1;0;0;0;0] [1;0;0;1;0;0;0;1;0;0;0;0];
    row "C#" [0;1;0;0;0;1;0;0;1;0;0;0] [0;1;0;0;1;0;0;0;1;0;0;0];
    row "D"  [0;0;1;0;0;0;1;0;0;1;0;0] [0;0;1;0;0;1;0;0;0;1;0;0];
    row "D#" [0;0;0;1;0;0;0;1;0;0;1;0] [0;0;0;1;0;0;1;0;0;0;1;0];
    row "E"  [1;0;0;0;1;0;0;0;1;0;0;1] [1;0;0;0;0;1;0;0;1;0;0;1];
    row "F"  [1;1;0;0;0;1;0;0;0;1;0;0] [1;1;0;0;0;0;1;0;0;1;0;0];
    row "F#" [0;1;1;0;0;0;1;0;0;0;1;0] [0;1;1;0;0;0;0;1;0;0;1;0];
    row "G"  [0;0;1;1;0;0;0;1;0;0;0;1] [0;0;1;1;0;0;0;0;1;0;0;1];
    row "G#" [1;0;0;1;1;0;0;0;1;0;0;0] [1;0;0;1;0;1;0;0;1;0;0;0];
    row "A"  [1;1;0;0;1;1;0;0;0;1;0;0] [1;1;0;0;0;1;1;0;0;1;0;0];
    row "A#" [0;1;1;0;0;1;1;0;0;0;1;0] [0;1;1;0;0;0;1;1;0;0;1;0];
    row "B"  [0;0;1;1;0;0;1;1;0;0;0;1] [0;0;1;1;0;0;0;1;1;0;0;1] ]%Z%string.

Local Open Scope R_scope.

Definition dot (u v : list R) : R :=
  np_sum (map (fun p => fst p * snd p) (combine u v)).

(** [scipy.spatial.distance.cosine], the cosine distance
    [1 - u.v / (|u| |v|)] of the scipy library, which clips it to
    [[0, 2]]. *)
Definition cosine (u v : list R) : R :=
  Rmax 0 (Rmin (1 - dot u v / sqrt (dot u u * dot v v)) 2).

(** [quality[0].upper()] *)
Definition upper (c : ascii) : ascii :=
  let n := nat_of_ascii c in
  if (Nat.leb 97 n && Nat.leb n 122)%bool then ascii_of_nat (n - 32) else c.

Definition chord_name (root quality : string) : string :=
  match quality with
  | String c _ => (root ++ String (upper c) EmptyString)%string
  | EmptyString => root
  end.

(** The two nested loops of [detect_chord_from_chroma], over the roots and
    over the qualities of a root; the state is
    [(best_chord, best_confidence)]. *)
Definition quality_step (chroma_norm : list R) (root : string)
    (best : string * R) (entry : string * list Z) : string * R :=
  let (quality, template) := entry in
  let template_r := map IZR template in
  let template_norm := map (fun x => x / np_sum template_r) template_r in
  let similarity := 1 - cosine chroma_norm template_norm in
  if Rlt_dec (snd best) similarity
  then (chord_name root quality, similarity)
  else best.

Definition root_step (chroma_norm : list R) (best : string * R)
    (entry : string * list (string * list Z)) : string * R :=
  let (root, qualities) := entry in
  fold_left (quality_step chroma_norm root) qualities best.

Definition detect_chord_from_chroma (chroma_vector : list R) : string * R :=
  let chroma_norm :=
    map (fun x => x / (np_sum chroma_vector + 1 / 100000000)) chroma_vector in
  fold_left (root_step chroma_norm) CHORD_TEMPLATES ("N"%string, 0).

Local Close Scope R_scope.

(** [k * v] for a chroma vector. *)
Definition scale (k : R) (v : list R) : list R := map (Rmult k) v.

Section Merge.

(** The type of confidences and its test [a > b]. *)
Variable conf : Type.
Variable gt : conf -> conf -> bool.

Record ChordEvent : Type := mkChordEvent {
  time : Q;
  label : string;
  confidence : conf
}.

(** [max(a, b)] returns [a] unless [b > a]. *)
Definition py_max (a b : conf) : conf := if gt b a then b else a.

(** The loop [for i in range(1, len(times))] and the final append.  The
    three lists hold the entries of index [i] and above; a missing
    [labels[i]] or [confidences[i]] raises [IndexError]. *)
Fixpoint merge_loop (times : list Q) (labels : list string)
    (confidences : list conf) (merged : list ChordEvent)
    (current_chord : ChordEvent) : outcome (list ChordEvent) :=
  match times with
  | [] => Ok (merged ++ [current_chord])
  | t :: times' =>
      match labels, confidences with
      | l :: labels', c :: confidences' =>
          if String.eqb l (label current_chord) then
            merge_loop times' labels' confidences' merged
              {| time := time current_chord;
                 label := label current_chord;
                 confidence := py_max (confidence current_chord) c |}
          else
            merge_loop times' labels' confidences'
              (merged ++ [current_chord])
              {| time := t; label := l; confidence := c |}
      | _, _ => IndexError
      end
  end.

Definition merge_consecutive_chords (times : list Q) (labels : list string)
    (confidences : list conf) : outcome (list ChordEvent) :=
  match times with
  | [] => Ok []
  | t0 :: times' =>
      match labels, confidences with
      | l0 :: labels', c0 :: confidences' =>
          merge_loop times' labels' confidences' []
            {| time := t0; label := l0; confidence := c0 |}
      | _, _ => IndexError
      end
  end.

(** No two neighbours carry one label. *)
Fixpoint no_adjacent_repeat (events : list ChordEvent) : Prop :=
  match events with
  | [] => True
  | e :: rest =>
      match rest with
      | [] => True
      | e' :: _ => label e <> label e'
      end /\ no_adjacent_repeat rest
  end.

End Merge.

Arguments mkChordEvent {conf} _ _ _.
Arguments time {conf} _.
Arguments label {conf} _.
Arguments confidence {conf} _.
Arguments merge_loop {conf} gt _ _ _ _ _.
Arguments merge_consecutive_chords {conf} gt _ _ _.
Arguments no_adjacent_repeat {conf} _.

End Chords.

(** ** drums.py *)

Module Drums.

Local Open Scope R_scope.

(** [np.fft.fft(x)[k]], the sum of [x[n] * exp(-2 pi i k n / N)], by its real
    and imaginary parts, and [np.abs] of it. *)
Definition fft_re (x : list R) (k : nat) : R :=
  np_sum (map (fun p =>
                 snd p * cos (2 * PI * INR k * INR (fst p) / INR (List.length x)))
              (combine (seq 0 (List.length x)) x)).

Definition fft_im (x : list R) (k : nat) : R :=
  np_sum (map (fun p =>
                 - (snd p * sin (2 * PI * INR k * INR (fst p) / INR (List.length x))))
              (combine (seq 0 (List.length x)) x)).

Definition fft_abs (x : list R) : list R :=
  map (fun k => sqrt (fft_re x k * fft_re x k + fft_im x k * fft_im x k))
      (seq 0 (List.length x)).

(** [np.fft.fftfreq(n, d)]: the indices [0 .. (n-1)//2] and
    [-(n//2) .. -1], times [1 / (n * d)]. *)
Definition fftfreq (n : nat) (d : R) : list R :=
  map (fun i =>
         (if Nat.ltb i ((n - 1) / 2 + 1) then INR i else INR i - INR n)
         * (1 / (INR n * d)))
      (seq 0 n).

Definition Rltb (a b : R) : bool := if Rlt_dec a b then true else false.
Definition Rleb (a b : R) : bool := if Rle_dec a b then true else false.

(** [np.sum(fft[(freqs >= lo) & (freqs <= hi)])] *)
Definition band_energy (band : R * R) (freqs fft : list R) : R :=
  np_sum (mask_select
            (map (fun f => Rleb (fst band) f && Rleb f (snd band))%bool freqs)
            fft).

(** A division; a zero divisor is reported as [ZeroDivisionError]. *)
Definition true_divide (x y : R) : outcome R :=
  if Req_dec_T y 0 then ZeroDivisionError else Ok (x / y).

Definition classify_drum_segment (segment : list R) (sr : Z)
    : outcome string :=
  if Nat.eqb (List.length segment) 0 then Ok "unknown"%string
  else
    let fft := fft_abs segment in
    d <- true_divide 1 (IZR sr) ;;
    let freqs := fftfreq (List.length segment) d in
    let pos_mask := map (fun f => Rltb 0 f) freqs in
    let freqs := mask_select pos_mask freqs in
    let fft := mask_select pos_mask fft in
    let kick_energy := band_energy Config.DRUM_FREQ_BANDS_kick freqs fft in
    let snare_energy := band_energy Config.DRUM_FREQ_BANDS_snare freqs fft in
    let hat_energy := band_energy Config.DRUM_FREQ_BANDS_hat freqs fft in
    let total_energy := kick_energy + snare_energy + hat_energy in
    if Req_dec_T total_energy 0 then Ok "unknown"%string
    else
      kick_ratio <- true_divide kick_energy total_energy ;;
      snare_ratio <- true_divide snare_energy total_energy ;;
      hat_ratio <- true_divide hat_energy total_energy ;;
      if Rltb Config.DRUM_THRESH_kick_lowband kick_ratio
      then Ok "kick"%string
      else if Rltb Config.DRUM_THRESH_snare_mid snare_ratio
      then Ok "snare"%string
      else if Rltb Config.DRUM_THRESH_hat_high hat_ratio
      then Ok "hat"%string
      else Ok "unknown"%string.

Local Close Scope R_scope.
Local Open Scope Q_scope.

(** A drum hit, as [classify_drum_hits] builds it. *)
Record DrumHit : Type := mkDrumHit {
  time : Q;
  type : string;
  start_sample : Z;
  end_sample : Z
}.

(** [pretty_midi.Note], [pretty_midi.Instrument], [pretty_midi.PrettyMIDI] *)
Record MidiNote : Type := mkMidiNote {
  velocity : Z;
  pitch : Z;
  start : Q;
  end_ : Q
}.

Record Instrument : Type := mkInstrument {
  program : Z;
  is_drum : bool;
  name : string;
  notes : list MidiNote
}.

Record PrettyMIDI : Type := mkPrettyMIDI {
  initial_tempo : Q;
  instruments : list Instrument
}.

(** The body of the loop [for hit in drum_hits]. *)
Definition add_drum_note (track_notes : list MidiNote) (hit : DrumHit)
    : list MidiNote :=
  let drum_type := type hit in
  match dict_get Config.DRUM_MAPPING drum_type with
  | Some mapped =>
      track_notes ++
      [ {| velocity := Config.MIDI_DRUM_VELOCITY;
           pitch := mapped;
           start := time hit;
           end_ := time hit + Config.MIDI_DRUM_DURATION |} ]
  | None => track_notes
  end.

(** The notes that one hit adds to the track. *)
Definition drum_notes_of (hit : DrumHit) : list MidiNote := add_drum_note [] hit.

(** [create_drum_midi]; the object is also written to [output_path], which
    is not modelled. *)
Definition create_drum_midi (drum_hits : list DrumHit) (tempo : Q)
    : PrettyMIDI :=
  let drum_track_notes := fold_left add_drum_note drum_hits [] in
  {| initial_tempo := tempo;
     instruments :=
       [ {| program := 0; is_drum := true; name := "Drums";
            notes := drum_track_notes |} ] |}.

(** [round(x, 2)]: to the nearest hundredth, a tie to the even one. *)
Definition round_half_even (x : Q) : Z :=
  let f := Qfloor x in
  let r := x - inject_Z f in
  if Qlt_le_dec r (1 # 2) then f
  else if Qlt_le_dec (1 # 2) r then (f + 1)%Z
  else if Z.even f then f else (f + 1)%Z.

Definition py_round2 (x : Q) : Q := inject_Z (round_half_even (x * 100)) / 100.

(** [collections.Counter]: the keys in order of first occurrence, with
    their counts. *)
Fixpoint counter_add (k : Q) (c : list (Q * nat)) : list (Q * nat) :=
  match c with
  | [] => [(k, 1%nat)]
  | (k', n) :: c' =>
      if Qeq_bool k k' then (k', S n) :: c' else (k', n) :: counter_add k c'
  end.

Definition Counter (l : list Q) : list (Q * nat) :=
  fold_left (fun c k => counter_add k c) l [].

(** [Counter.most_common(n)]: by decreasing count, equal counts in order of
    first occurrence. *)
Fixpoint insert_by_count (e : Q * nat) (sorted : list (Q * nat))
    : list (Q * nat) :=
  match sorted with
  | [] => [e]
  | e' :: rest =>
      if Nat.ltb (snd e) (snd e') then e' :: insert_by_count e rest
      else e :: sorted
  end.

Definition most_common (n : nat) (c : list (Q * nat)) : list (Q * nat) :=
  firstn n (fold_right insert_by_count [] c).

(** The dictionary returned by [detect_drum_loop]; the early return has no
    [common_positions] entry. *)
Record LoopAnalysis : Type := mkLoopAnalysis {
  loop_length : nat;
  loop_confidence : Q;
  common_positions : option (list Q);
  repetitions : Z
}.

Definition detect_drum_loop (drum_hits : list DrumHit) (tempo : Q)
    : outcome LoopAnalysis :=
  if Nat.ltb (List.length drum_hits) 4 then
    Ok {| loop_length := 0;
          loop_confidence := 0;
          common_positions := None;
          repetitions := 0 |}
  else if Qeq_bool tempo 0 then ZeroDivisionError
  else
    let beat_interval := 60 / tempo in
    let hit_times := map time drum_hits in
    let beat_positions :=
      map (fun hit_time => py_mod hit_time beat_interval / beat_interval)
          hit_times in
    let position_counts := Counter (map py_round2 beat_positions) in
    let common := most_common 4 position_counts in
    let loop_length := List.length common in
    let total := inject_Z (Z.of_nat (List.length drum_hits)) in
    let loop_confidence :=
      inject_Z (Z.of_nat (fold_right Nat.add 0%nat (map snd common))) / total in
    Ok {| loop_length := loop_length;
          loop_confidence := loop_confidence;
          common_positions := Some (map fst common);
          repetitions :=
            if Nat.ltb 0 loop_length
            then py_int (loop_confidence * total
                         / inject_Z (Z.of_nat loop_length))
            else 0%Z |}.

End Drums.

(** ** timing.py, the rhythm statistics *)

Module TimingAnalysis.
Import Timing.
Local Open Scope Q_scope.

(** Every fourth element of a list, after skipping [phase] elements. *)
Fixpoint every_fourth (phase : nat) (l : list Q) : list Q :=
  match l with
  | [] => []
  | x :: r =>
      match phase with
      | O => x :: every_fourth 3 r
      | S p => every_fourth p r
      end
  end.

(** [calculate_syncopation]; [sr] is not used by the source.  As in
    [detect_downbeats], the division by a zero tempo is reported as
    [ZeroDivisionError]. *)
Definition calculate_syncopation (onset_times : list Q) (tempo : Q) (sr : Z)
    : outcome Q :=
  if Nat.ltb (List.length onset_times) 2 then Ok 0
  else if Qeq_bool tempo 0 then ZeroDivisionError
  else
    let beat_interval := 60 / tempo in
    let syncopated_count :=
      fold_left
        (fun count onset_time =>
           let beat_position :=
             py_mod onset_time beat_interval / beat_interval in
           if (if Qlt_le_dec (1 # 4) beat_position then true else false)
              && (if Qlt_le_dec beat_position (3 # 4) then true else false)
           then S count else count)
        onset_times 0%nat in
    Ok (inject_Z (Z.of_nat syncopated_count)
        / inject_Z (Z.of_nat (List.length onset_times))).

(** [np.diff] *)
Fixpoint np_diff (l : list Q) : list Q :=
  match l with
  | x :: ((y :: _) as r) => (y - x) :: np_diff r
  | _ => []
  end.

(** The loop over [enumerate(beat_differences)]; [i] is the index of the
    head of [diffs]. *)
Fixpoint measure_boundaries_from (beat_interval : Q) (diffs : list Q)
    (i : nat) : list nat :=
  match diffs with
  | [] => []
  | diff :: rest =>
      if Qlt_le_dec (beat_interval * (3 # 2)) diff
      then S i :: measure_boundaries_from beat_interval rest (S i)
      else measure_boundaries_from beat_interval rest (S i)
  end.

(** The loop over [measure_boundaries], from [prev_boundary]; it returns
    the measures and the last boundary. *)
Fixpoint beats_per_measure_from (boundaries : list nat) (prev_boundary : nat)
    (acc : list nat) : list nat * nat :=
  match boundaries with
  | [] => (acc, prev_boundary)
  | boundary :: rest =>
      beats_per_measure_from rest boundary
        (acc ++ [(boundary - prev_boundary)%nat])
  end.

(** [max(xs, key=key)]: the first element of the greatest key. *)
Fixpoint max_by_key (key : nat -> nat) (xs : list nat) (best : nat) : nat :=
  match xs with
  | [] => best
  | x :: rest =>
      if Nat.ltb (key best) (key x) then max_by_key key rest x
      else max_by_key key rest best
  end.

Section TimeSignature.

(** The elements of [set(xs)] in the order in which Python iterates over
    the set. *)
Variable set_iter : list nat -> list nat.

Definition detect_time_signature (beat_times : list Q) (tempo : Q)
    : outcome TimeSignature :=
  if Nat.ltb (List.length beat_times) 8
  then Ok {| numerator := 4; denominator := 4; confidence := 1 # 2 |}
  else if Qeq_bool tempo 0 then ZeroDivisionError
  else
    let beat_interval := 60 / tempo in
    let beat_differences := np_diff beat_times in
    let measure_boundaries :=
      measure_boundaries_from beat_interval beat_differences 0 in
    match measure_boundaries with
    | _ :: _ =>
        let (measures, prev_boundary) :=
          beats_per_measure_from measure_boundaries 0 [] in
        let beats_in_last_measure :=
          (Z.of_nat (List.length beat_times) - Z.of_nat prev_boundary)%Z in
        let beats_per_measure :=
          if Z.ltb 0 beats_in_last_measure
          then measures ++ [Z.to_nat beats_in_last_measure]
          else measures in
        match beats_per_measure with
        | _ :: _ =>
            match set_iter beats_per_measure with
            | first :: others =>
                let count x := count_occ Nat.eq_dec beats_per_measure x in
                let numerator := max_by_key count others first in
                Ok {| numerator := Z.of_nat numerator;
                      denominator := 4;
                      confidence :=
                        inject_Z (Z.of_nat (count numerator))
                        / inject_Z (Z.of_nat (List.length beats_per_measure)) |}
            | [] => IndexError
            end
        | [] => Ok {| numerator := 4; denominator := 4; confidence := 1 # 2 |}
        end
    | [] => Ok {| numerator := 4; denominator := 4; confidence := 3 # 10 |}
    end.

End TimeSignature.

End TimingAnalysis.

(** ** [collections.Counter] over any key type *)

Module Collections.

Section Counting.
Variable K : Type.
Variable eqb : K -> K -> bool.

(** The keys in order of first occurrence, with their counts. *)
Fixpoint counter_add (k : K) (c : list (K * nat)) : list (K * nat) :=
  match c with
  | [] => [(k, 1%nat)]
  | (k', n) :: c' =>
      if eqb k k' then (k', S n) :: c' else (k', n) :: counter_add k c'
  end.

Definition Counter (l : list K) : list (K * nat) :=
  fold_left (fun c k => counter_add k c) l [].

(** [Counter.most_common(n)]: by decreasing count, equal counts in order of
    first occurrence. *)
Fixpoint insert_by_count (e : K * nat) (sorted : list (K * nat))
    : list (K * nat) :=
  match sorted with
  | [] => [e]
  | e' :: rest =>
      if Nat.ltb (snd e) (snd e') then e' :: insert_by_count e rest
      else e :: sorted
  end.

Definition most_common (n : nat) (c : list (K * nat)) : list (K * nat) :=
  firstn n (fold_right insert_by_count [] c).

(** [c[k]]: the count of a key, 0 for a key that is not there. *)
Fixpoint counter_get (c : list (K * nat)) (k : K) : nat :=
  match c with
  | [] => 0%nat
  | (k', n) :: c' => if eqb k k' then n else counter_get c' k
  end.

(** [sum(c.values())] *)
Definition counter_total (c : list (K * nat)) : nat :=
  fold_right Nat.add 0%nat (map snd c).

End Counting.

Arguments counter_add {K} eqb k c.
Arguments Counter {K} eqb l.
Arguments insert_by_count {K} e sorted.
Arguments most_common {K} n c.
Arguments counter_get {K} eqb c k.
Arguments counter_total {K} c.

End Collections.

(** ** chords.py, the statistics of a progression *)

Module ChordAnalysis.
Import Collections.
Local Open Scope Q_scope.

Definition NOTE_NAMES : list string :=
  ["C"; "C#"; "D"; "D#"; "E"; "F"; "F#"; "G"; "G#"; "A"; "A#"; "B"]%string.

(** A window [(time, label, confidence)] is covered by an event of its
    label that starts no later and is at least as confident. *)
Definition covers (events : list (Chords.ChordEvent Q))
    (window : Q * (string * Q)) : Prop :=
  exists e,
    In e events /\
    Chords.label e = fst (snd window) /\
    snd (snd window) <= Chords.confidence e /\
    Chords.time e <= fst window.

(** A label list without its repeated neighbours. *)
Fixpoint dedup_adjacent (labels : list string) : list string :=
  match labels with
  | [] => []
  | l :: rest =>
      match rest with
      | [] => [l]
      | l' :: _ =>
          if String.eqb l' l then dedup_adjacent rest
          else l :: dedup_adjacent rest
      end
  end.

(** The test [a > b] on rational confidences. *)
Definition Qgtb (a b : Q) : bool := if Qlt_le_dec b a then true else false.

(** The loop [for i in range(1, len(chord_labels))] that counts the places
    where a label differs from the one before; [prev] is
    [chord_labels[i-1]]. *)
Fixpoint count_changes (prev : string) (rest : list string) (changes : nat)
    : nat :=
  match rest with
  | [] => changes
  | l :: rest' =>
      count_changes l rest' (if String.eqb l prev then changes else S changes)
  end.

(** The strings [f"{chord_labels[i]} -> {chord_labels[i+1]}"], with the
    arrow of the source. *)
Fixpoint progressions (labels : list string) : list string :=
  match labels with
  | a :: ((b :: _) as rest) =>
      (a ++ " → " ++ b)%string :: progressions rest
  | _ => []
  end.

(** The dictionary returned by [analyze_chord_complexity]; the early return
    has no [total_chords] entry. *)
Record ChordComplexity : Type := mkChordComplexity {
  unique_chords : nat;
  chord_changes : nat;
  complexity_score : Q;
  common_progressions : list (string * nat);
  total_chords : option nat
}.

Definition analyze_chord_complexity (chord_labels : list string)
    : ChordComplexity :=
  match chord_labels with
  | [] =>
      {| unique_chords := 0; chord_changes := 0; complexity_score := 0;
         common_progressions := []; total_chords := None |}
  | first :: rest =>
      let unique_chords := List.length (nodup string_dec chord_labels) in
      let chord_changes := count_changes first rest 0 in
      let len := List.length chord_labels in
      let complexity_score :=
        (inject_Z (Z.of_nat unique_chords) / inject_Z (Z.of_nat len))
        * (inject_Z (Z.of_nat chord_changes)
           / inject_Z (Z.of_nat (Nat.max 1 (len - 1)))) in
      let progression_counts := Counter String.eqb (progressions chord_labels) in
      {| unique_chords := unique_chords;
         chord_changes := chord_changes;
         complexity_score := complexity_score;
         common_progressions := most_common 5 progression_counts;
         total_chords := Some len |}
  end.

(** The dictionary returned by [create_chord_summary]; the early return
    has no [unique_chord_count] entry. *)
Record ChordSummary : Type := mkChordSummary {
  most_common_chord : string;
  chord_frequencies : list (string * nat);
  progression_length : nat;
  unique_chord_count : option nat
}.

Definition create_chord_summary (chord_labels : list string)
    : outcome ChordSummary :=
  match chord_labels with
  | [] =>
      Ok {| most_common_chord := "None"; chord_frequencies := [];
            progression_length := 0; unique_chord_count := None |}
  | _ :: _ =>
      let chord_counts := Counter String.eqb chord_labels in
      match most_common 1 chord_counts with
      | (chord, _) :: _ =>
          Ok {| most_common_chord := chord;
                chord_frequencies := chord_counts;
                progression_length := List.length chord_labels;
                unique_chord_count := Some (List.length chord_counts) |}
      | [] => IndexError
      end
  end.

End ChordAnalysis.

(** ** drums.py, the hits and their summary *)

Module DrumAnalysis.
Import Drums Collections.

(** The three band energies that [classify_drum_segment] compares, as it
    computes them from a non-empty window. *)
Definition band_energies (segment : list R) (sr : Z) : R * R * R :=
  let fft := fft_abs segment in
  let freqs := fftfreq (List.length segment) (1 / IZR sr)%R in
  let pos_mask := map (fun f => Rltb 0 f) freqs in
  let freqs := mask_select pos_mask freqs in
  let fft := mask_select pos_mask fft in
  (band_energy Config.DRUM_FREQ_BANDS_kick freqs fft,
   band_energy Config.DRUM_FREQ_BANDS_snare freqs fft,
   band_energy Config.DRUM_FREQ_BANDS_hat freqs fft).

(** [audio[start_sample:end_sample]] for [0 <= start_sample <= end_sample]. *)
Definition slice {A : Type} (audio : list A) (start_sample end_sample : Z)
    : list A :=
  firstn (Z.to_nat (end_sample - start_sample))
         (skipn (Z.to_nat start_sample) audio).

(** The loop of [classify_drum_hits]: the window runs from 50 ms before the
    onset to 100 ms after it, cut to the audio; an empty window is skipped. *)
Fixpoint classify_drum_hits_loop (audio : list R) (sr : Z)
    (onset_times : list Q) (drum_hits : list DrumHit)
    : outcome (list DrumHit) :=
  match onset_times with
  | [] => Ok drum_hits
  | onset_time :: rest =>
      let start_sample :=
        Z.max 0 (py_int ((onset_time - (1 # 20)) * inject_Z sr)%Q) in
      let end_sample :=
        Z.min (Z.of_nat (List.length audio))
              (py_int ((onset_time + (1 # 10)) * inject_Z sr)%Q) in
      if Z.leb end_sample start_sample
      then classify_drum_hits_loop audio sr rest drum_hits
      else
        drum_type <-
          classify_drum_segment (slice audio start_sample end_sample) sr ;;
        classify_drum_hits_loop audio sr rest
          (drum_hits ++
           [ {| time := onset_time; type := drum_type;
                start_sample := start_sample; end_sample := end_sample |} ])
  end.

Definition classify_drum_hits (audio : list R) (onset_times : list Q)
    (sr : Z) : outcome (list DrumHit) :=
  classify_drum_hits_loop audio sr onset_times [].

(** [min(xs)] and [max(xs)] from a first element on. *)
Definition py_min (x : Q) (xs : list Q) : Q :=
  fold_left (fun m y => if Qlt_le_dec y m then y else m) xs x.

Definition py_max (x : Q) (xs : list Q) : Q :=
  fold_left (fun m y => if Qlt_le_dec m y then y else m) xs x.

(** The dictionary returned by [create_drum_summary]; the early return has
    the first three entries only. *)
Record DrumSummary : Type := mkDrumSummary {
  most_common_drum : string;
  total_hits : nat;
  unique_drums : nat;
  first_hit : option Q;
  last_hit : option Q;
  drum_distribution : option (list (string * nat))
}.

Definition create_drum_summary (drum_hits : list DrumHit)
    : outcome DrumSummary :=
  match drum_hits with
  | [] =>
      Ok {| most_common_drum := "None"; total_hits := 0; unique_drums := 0;
            first_hit := None; last_hit := None; drum_distribution := None |}
  | hit :: hits =>
      let hit_types := map type drum_hits in
      let type_counts := Counter String.eqb hit_types in
      match most_common 1 type_counts with
      | (drum, _) :: _ =>
          Ok {| most_common_drum := drum;
                total_hits := List.length drum_hits;
                unique_drums := List.length type_counts;
                first_hit := Some (py_min (time hit) (map time hits));
                last_hit := Some (py_max (time hit) (map time hits));
                drum_distribution := Some type_counts |}
      | [] => IndexError
      end
  end.

(** [filter_drum_hits_by_type] *)
Definition filter_drum_hits_by_type (drum_hits : list DrumHit)
    (drum_type : string) : list DrumHit :=
  filter (fun hit => String.eqb (type hit) drum_type) drum_hits.

End DrumAnalysis.

(** ** melody.py, the pipeline *)

Module MelodyPipeline.
Import Melody.
Local Open Scope Q_scope.

(** [create_midi_from_notes].  [pretty_midi.PrettyMIDI(initial_tempo=tempo)]
    computes the tick scale [60.0 / (initial_tempo * resolution)]: at tempo 0
    it raises [ZeroDivisionError] (with a numpy tempo the quotient is an
    infinity and [midi.write] raises on it).  The file that [midi.write]
    writes and its other checks are not modelled. *)
Definition create_midi_from_notes (notes : list Note) (tempo : Q)
    (track_name : string) : outcome Drums.PrettyMIDI :=
  if Qeq_bool tempo 0 then ZeroDivisionError
  else
    Ok (Drums.mkPrettyMIDI tempo
          [ Drums.mkInstrument 0 false track_name
              (map (fun note_data =>
                      Drums.mkMidiNote (velocity note_data) (pitch note_data)
                        (start_time note_data) (end_time note_data))
                   notes) ]).

(** [min(pitches)] and [max(pitches)]. *)
Definition min_pitch (p : Z) (ps : list Z) : Z := fold_left Z.min ps p.
Definition max_pitch (p : Z) (ps : list Z) : Z := fold_left Z.max ps p.

Record MelodyStatistics : Type := mkMelodyStatistics {
  total_notes : nat;
  pitch_range : Z * Z;
  avg_duration : Q;
  avg_confidence : Q;
  total_duration : Q
}.

Definition melody_statistics (notes : list Note) : MelodyStatistics :=
  match notes with
  | [] =>
      {| total_notes := 0; pitch_range := (0%Z, 0%Z); avg_duration := 0;
         avg_confidence := 0; total_duration := 0 |}
  | n :: ns =>
      let pitches := map pitch notes in
      let durations := map duration notes in
      let confidences := map confidence notes in
      {| total_notes := List.length notes;
         pitch_range :=
           (min_pitch (pitch n) (map pitch ns),
            max_pitch (pitch n) (map pitch ns));
         avg_duration := mean durations;
         avg_confidence := mean confidences;
         total_duration := fold_left Qplus durations 0 |}
  end.

(** The dictionary returned by [extract_melody_to_midi], with the MIDI
    object it writes in place of [midi_path]. *)
Record MelodyResult : Type := mkMelodyResult {
  midi : Drums.PrettyMIDI;
  notes : list Note;
  f0_data : list Q * list Q * list Q;
  tempo : Q;
  statistics : MelodyStatistics
}.

Section Pipeline.

(** [extract_melody_f0]: the times, frequencies and confidences that the
    CREPE estimator returns. *)
Variable extract_melody_f0 : list Q -> Z -> list Q * list Q * list Q.

(** [np.round(librosa.hz_to_midi(f)).astype(int)] *)
Variable hz_to_midi_round : Q -> Z.

(** The tempo of [librosa.beat.beat_track]. *)
Variable beat_track_tempo : list Q -> Z -> Q.

Definition extract_melody_to_midi (audio : list Q) (sr : Z)
    (tempo : option Q) (beat_times : option (list Q)) (quantize : bool)
    (confidence_threshold : Q) : outcome MelodyResult :=
  let f0_data := extract_melody_f0 audio sr in
  let '(times, frequencies, confidences) := f0_data in
  notes <-
    f0_to_midi_notes hz_to_midi_round times frequencies confidences
      confidence_threshold
      Config.MELODY_MIN_NOTE_DURATION Config.MELODY_MAX_NOTE_DURATION ;;
  let notes :=
    match beat_times with
    | Some (b :: bs) =>
        if quantize then quantize_notes_to_beats notes (b :: bs) (1 # 2)
        else notes
    | _ => notes
    end in
  let tempo :=
    match tempo with
    | Some t => t
    | None => beat_track_tempo audio sr
    end in
  midi <- create_midi_from_notes notes tempo "Melody" ;;
  Ok {| midi := midi; notes := notes; f0_data := f0_data; tempo := tempo;
        statistics := melody_statistics notes |}.

End Pipeline.

End MelodyPipeline.

(** ** chords.py, the key of a chroma matrix *)

Module KeyDetection.
Local Open Scope R_scope.

(** [np.mean] of a row. *)
Definition np_mean (l : list R) : R := np_sum l / INR (List.length l).

(** [np.roll(a, shift)] for [0 <= shift <= len(a)]: the last [shift]
    elements come first. *)
Definition np_roll {A : Type} (a : list A) (shift : nat) : list A :=
  skipn (List.length a - shift) a ++ firstn (List.length a - shift) a.

(** [np.cov] of two rows, with its divisor [n - 1], and the entry [0, 1] of
    [np.corrcoef], which numpy clips to [[-1, 1]]. *)
Definition cov (x y : list R) : R :=
  np_sum (map (fun p => (fst p - np_mean x) * (snd p - np_mean y))
              (combine x y))
  / (INR (List.length x) - 1).

Definition corrcoef (x y : list R) : R :=
  Rmin (Rmax (cov x y / sqrt (cov x x) / sqrt (cov y y)) (-1)) 1.

Definition major_profile : list R :=
  [ 635 / 100; 223 / 100; 348 / 100; 233 / 100; 438 / 100; 409 / 100;
    252 / 100; 519 / 100; 239 / 100; 366 / 100; 229 / 100; 288 / 100 ].

Definition minor_profile : list R :=
  [ 633 / 100; 268 / 100; 352 / 100; 538 / 100; 260 / 100; 353 / 100;
    254 / 100; 475 / 100; 398 / 100; 269 / 100; 334 / 100; 317 / 100 ].

(** The body of the loop [for i in range(12)]; the state is
    [(best_key, best_confidence, best_mode)]. *)
Definition key_step (avg_chroma : list R) (best : string * R * string)
    (i : nat) : string * R * string :=
  let major_rotated := np_roll major_profile i in
  let minor_rotated := np_roll minor_profile i in
  let major_corr := corrcoef avg_chroma major_rotated in
  let minor_corr := corrcoef avg_chroma minor_rotated in
  let best :=
    if Rlt_dec (snd (fst best)) major_corr
    then (nth i ChordAnalysis.NOTE_NAMES ""%string, major_corr, "major"%string)
    else best in
  if Rlt_dec (snd (fst best)) minor_corr
  then (nth i ChordAnalysis.NOTE_NAMES ""%string, minor_corr, "minor"%string)
  else best.

(** [detect_key_from_chroma]; [chroma] holds the twelve rows of the
    matrix, one per pitch class. *)
Definition detect_key_from_chroma (chroma : list (list R)) : string * R :=
  let avg_chroma := map np_mean chroma in
  let '(best_key, best_confidence, best_mode) :=
    fold_left (key_step avg_chroma) (seq 0 12)
      ("C"%string, 0, "major"%string) in
  ((best_key ++ " " ++ best_mode)%string, best_confidence).

End KeyDetection.

(** ** melody.py and drums.py, the characteristics of a melody and of a
    drum pattern *)

(** [np.std]: the root of the mean of the squared deviations from the
    mean. *)
Definition np_std (l : list Q) : R :=
  sqrt (Q2R (Melody.mean
               (map (fun x => (x - Melody.mean l) * (x - Melody.mean l))%Q l))).

Module MelodyAnalysis.
Import Melody.
Local Open Scope Q_scope.

(** [filter_notes_by_confidence] *)
Definition filter_notes_by_confidence (notes : list Note) (min_confidence : Q)
    : list Note :=
  filter (fun note => Qle_bool min_confidence (confidence note)) notes.

(** The loop [for i in range(1, len(pitches))] that collects
    [pitches[i] - pitches[i-1]]. *)
Fixpoint intervals_of (pitches : list Z) : list Z :=
  match pitches with
  | p :: ((q :: _) as rest) => (q - p)%Z :: intervals_of rest
  | _ => []
  end.

(** The dictionary returned by [analyze_melody_characteristics]; the early
    return has no [avg_interval] and no [total_notes] entry. *)
Record MelodyCharacteristics : Type := mkMelodyCharacteristics {
  pitch_range : Z;
  melodic_intervals : list Z;
  avg_interval : option Q;
  rhythm_diversity : R;
  melody_density : Q;
  total_notes : option nat
}.

Definition analyze_melody_characteristics (notes : list Note)
    : MelodyCharacteristics :=
  match notes with
  | [] =>
      {| pitch_range := 0; melodic_intervals := []; avg_interval := None;
         rhythm_diversity := 0%R; melody_density := 0; total_notes := None |}
  | n :: ns =>
      let pitches := map pitch notes in
      let durations := map duration notes in
      let pitch_range :=
        (MelodyPipeline.max_pitch (pitch n) (map pitch ns)
         - MelodyPipeline.min_pitch (pitch n) (map pitch ns))%Z in
      let intervals := intervals_of pitches in
      let rhythm_diversity :=
        if Nat.ltb 1 (List.length durations) then np_std durations else 0%R in
      let total_duration := fold_left Qplus durations 0 in
      let melody_density :=
        if Qlt_le_dec 0 total_duration
        then inject_Z (Z.of_nat (List.length notes)) / total_duration
        else 0 in
      {| pitch_range := pitch_range;
         melodic_intervals := intervals;
         avg_interval :=
           Some (match intervals with
                 | [] => 0
                 | _ :: _ => mean (map inject_Z intervals)
                 end);
         rhythm_diversity := rhythm_diversity;
         melody_density := melody_density;
         total_notes := Some (List.length notes) |}
  end.

End MelodyAnalysis.

Module DrumPattern.
Import Drums Collections.
Local Open Scope Q_scope.

(** The dictionary returned by [analyze_drum_pattern]; the early return has
    no [timing_regularity] and no [hit_times] entry. *)
Record DrumPatternAnalysis : Type := mkDrumPatternAnalysis {
  total_hits : nat;
  hit_density : Q;
  pattern_complexity : Q;
  timing_regularity : option R;
  drum_distribution : list (string * nat);
  hit_times : option (list Q)
}.

(** [analyze_drum_pattern]; [tempo] is not used by the source.  The
    standard deviation is not negative, so [1.0 + np.std(intervals)] is
    not zero. *)
Definition analyze_drum_pattern (drum_hits : list DrumHit) (tempo : Q)
    : DrumPatternAnalysis :=
  match drum_hits with
  | [] =>
      {| total_hits := 0; hit_density := 0; pattern_complexity := 0;
         timing_regularity := None; drum_distribution := [];
         hit_times := None |}
  | hit :: hits =>
      let hit_types := map type drum_hits in
      let type_counts := Counter String.eqb hit_types in
      let duration :=
        DrumAnalysis.py_max (time hit) (map time hits)
        - DrumAnalysis.py_min (time hit) (map time hits) in
      let hit_density :=
        if Qlt_le_dec 0 duration
        then inject_Z (Z.of_nat (List.length drum_hits)) / duration
        else 0 in
      let pattern_complexity :=
        inject_Z (Z.of_nat (List.length type_counts))
        / inject_Z (Z.of_nat (List.length drum_hits)) in
      let hit_times := map time drum_hits in
      let timing_regularity :=
        if Nat.ltb 1 (List.length hit_times)
        then (1 / (1 + np_std (TimingAnalysis.np_diff hit_times)))%R
        else 0%R in
      {| total_hits := List.length drum_hits;
         hit_density := hit_density;
         pattern_complexity := pattern_complexity;
         timing_regularity := Some timing_regularity;
         drum_distribution := type_counts;
         hit_times := Some hit_times |}
  end.

End DrumPattern.

(** ** Double precision *)

Module Binary64.
Local Open Scope Q_scope.

(** The unit roundoff of the doubles, [2^-53]. *)
Definition unit_roundoff : Q := 1 # 9007199254740992.

(** A positive rational rounded to 53 significant bits: [floor_log2 x] is
    the exponent of [x], and [x] is rounded to the nearest multiple of
    [2^(exponent - 52)], a tie to the even one. *)
Definition round_pos (x : Q) : Q :=
  let ulp := Qpower 2 (Melody.floor_log2 x - 52) in
  Qred (inject_Z (Drums.round_half_even (x / ulp)) * ulp).

(** The double nearest to a rational. *)
Definition binary64 (x : Q) : Q :=
  match Qcompare x 0 with
  | Eq => 0
  | Gt => round_pos x
  | Lt => - round_pos (- x)
  end.

End Binary64.

(** The source with a rounding after every arithmetic operation. *)
Module Rounded.
Import Melody.
Local Open Scope Q_scope.

Section Arithmetic.

(** The rounding of the results: [Binary64.binary64] for the doubles, the
    identity for exact arithmetic. *)
Variable rnd : Q -> Q.

(** The loop [while current_time <= duration] of [refine_beat_grid]:
    [current_time += beat_interval] is one rounded sum. *)
Fixpoint refine_loop (fuel : nat) (beat_interval duration : Q)
    (current_time : Q) (refined_beats : list Q) : outcome (list Q) :=
  match fuel with
  | O => OutOfFuel
  | S fuel' =>
      if Qle_bool current_time duration then
        refine_loop fuel' beat_interval duration
          (rnd (current_time + beat_interval))
          (refined_beats ++ [current_time])
      else Ok refined_beats
  end.

(** [refine_beat_grid], with [beat_interval = 60.0 / tempo] one rounded
    quotient. *)
Definition refine_beat_grid (fuel : nat) (beat_times : list Q)
    (tempo duration : Q) : outcome (list Q) :=
  match beat_times with
  | [] => Ok []
  | start_time :: _ =>
      if Qeq_bool tempo 0 then ZeroDivisionError
      else
        let beat_interval := rnd (60 / tempo) in
        refine_loop fuel beat_interval duration start_time []
  end.

(** [beat_times[np.argmin(np.abs(np.array(beat_times) - t))]]: the
    differences are rounded, the absolute value is exact. *)
Definition nearest_beat (beat_times : list Q) (t : Q) : Q :=
  nth (argmin (map (fun b => Qabs (rnd (b - t))) beat_times)) beat_times 0.

(** The constant [MELODY_MIN_NOTE_DURATION = 0.1] as a double. *)
Definition MELODY_MIN_NOTE_DURATION : Q := rnd Config.MELODY_MIN_NOTE_DURATION.

(** The body of the loop of [quantize_notes_to_beats]: the difference
    [1 - quantization_strength], the two products and their sum are rounded
    one by one, for the start and for the end; the test of the minimum
    duration, the new end and the stored duration are a rounded difference,
    a rounded sum and a rounded difference. *)
Definition quantize_note (beat_times : list Q) (quantization_strength : Q)
    (note : Note) : Note :=
  let quantized_start := nearest_beat beat_times (start_time note) in
  let quantized_end := nearest_beat beat_times (end_time note) in
  let new_start :=
    rnd (rnd (start_time note * rnd (1 - quantization_strength))
         + rnd (quantized_start * quantization_strength)) in
  let new_end :=
    rnd (rnd (end_time note * rnd (1 - quantization_strength))
         + rnd (quantized_end * quantization_strength)) in
  let new_end :=
    if Qlt_le_dec (rnd (new_end - new_start)) MELODY_MIN_NOTE_DURATION
    then rnd (new_start + MELODY_MIN_NOTE_DURATION)
    else new_end in
  {| pitch := pitch note;
     start_time := new_start;
     end_time := new_end;
     duration := rnd (new_end - new_start);
     confidence := confidence note;
     velocity := velocity note |}.

Definition quantize_notes_to_beats (notes : list Note) (beat_times : list Q)
    (quantization_strength : Q) : list Note :=
  match beat_times, notes with
  | [], _ => notes
  | _, [] => notes
  | _, _ => map (quantize_note beat_times quantization_strength) notes
  end.

End Arithmetic.

End Rounded.

(** The template matching of [detect_chord_from_chroma] with a rounding
    after every arithmetic operation, over the reals because of the square
    root of the cosine distance. *)
Module RoundedChords.
Local Open Scope R_scope.

Section Arithmetic.

(** The rounding of the results. *)
Variable rnd : R -> R.

(** [np.sum], here from left to right; the order inside numpy is the
    library's. *)
Definition np_sum (v : list R) : R :=
  fold_left (fun acc x => rnd (acc + x)) v 0.

Definition dot (u v : list R) : R :=
  np_sum (map (fun p => rnd (fst p * snd p)) (combine u v)).

(** [scipy.spatial.distance.cosine]:
    [np.clip(1.0 - uv / math.sqrt(uu * vv), 0.0, 2.0)]. *)
Definition cosine (u v : list R) : R :=
  Rmax 0
    (Rmin (rnd (1 - rnd (dot u v / rnd (sqrt (rnd (dot u u * dot v v))))))
          2).

Definition similarity (chroma_norm : list R) (template : list Z) : R :=
  let template_r := map IZR template in
  let template_norm := map (fun x => rnd (x / np_sum template_r)) template_r in
  rnd (1 - cosine chroma_norm template_norm).

Definition quality_step (chroma_norm : list R) (root : string)
    (best : string * R) (entry : string * list Z) : string * R :=
  let (quality, template) := entry in
  let similarity := similarity chroma_norm template in
  if Rlt_dec (snd best) similarity
  then (Chords.chord_name root quality, similarity)
  else best.

Definition root_step (chroma_norm : list R) (best : string * R)
    (entry : string * list (string * list Z)) : string * R :=
  let (root, qualities) := entry in
  fold_left (quality_step chroma_norm root) qualities best.

Definition chroma_norm (chroma_vector : list R) : list R :=
  map (fun x => rnd (x / rnd (np_sum chroma_vector + rnd (1 / 100000000))))
      chroma_vector.

Definition detect_chord_from_chroma (chroma_vector : list R) : string * R :=
  fold_left (root_step (chroma_norm chroma_vector)) Chords.CHORD_TEMPLATES
    ("N"%string, 0).

(** [k * v] for a chroma vector, as an array of doubles. *)
Definition scale (k : R) (v : list R) : list R :=
  map (fun x => rnd (k * x)) v.

End Arithmetic.

End RoundedChords.

(** The source on the doubles of the kernel. *)
Module Double.
Import Floats.
#[local] Set Warnings "-inexact-float".
Local Open Scope float_scope.

(** The rational value of a finite double; an infinity or a NaN has
    none. *)
Definition to_Q (x : float) : option Q :=
  match Prim2SF x with
  | S754_zero _ => Some 0%Q
  | S754_finite s m e =>
      Some (Qred ((if s then -1 else 1) * inject_Z (Zpos m) * Qpower 2 e)%Q)
  | _ => None
  end.

(** [refine_beat_grid] *)
Fixpoint refine_loop (fuel : nat) (beat_interval duration : float)
    (current_time : float) (refined_beats : list float)
    : outcome (list float) :=
  match fuel with
  | O => OutOfFuel
  | S fuel' =>
      if current_time <=? duration then
        refine_loop fuel' beat_interval duration
          (current_time + beat_interval) (refined_beats ++ [current_time])
      else Ok refined_beats
  end.

Definition refine_beat_grid (fuel : nat) (beat_times : list float)
    (tempo duration : float) : outcome (list float) :=
  match beat_times with
  | [] => Ok []
  | start_time :: _ =>
      if tempo =? 0 then ZeroDivisionError
      else
        let beat_interval := 60 / tempo in
        refine_loop fuel beat_interval duration start_time []
  end.

(** [np.sum], here from left to right; the order inside numpy is the
    library's. *)
Definition np_sum (v : list float) : float := fold_left PrimFloat.add v 0.

Definition dot (u v : list float) : float :=
  np_sum (map (fun p => fst p * snd p) (combine u v)).

(** [np.clip]; a NaN passes through. *)
Definition clip (x lo hi : float) : float :=
  if x <? lo then lo else if hi <? x then hi else x.

(** [scipy.spatial.distance.cosine]: a division by a zero norm gives an
    infinity or a NaN, not an exception. *)
Definition cosine (u v : list float) : float :=
  clip (1 - dot u v / sqrt (dot u u * dot v v)) 0 2.

Definition of_mask (z : Z) : float := if Z.eqb z 0 then 0 else 1.

(** The loops of [detect_chord_from_chroma]; a NaN similarity is not
    greater than the best confidence. *)
Definition quality_step (chroma_norm : list float) (root : string)
    (best : string * float) (entry : string * list Z) : string * float :=
  let (quality, template) := entry in
  let template_f := map of_mask template in
  let template_norm := map (fun x => x / np_sum template_f) template_f in
  let similarity := 1 - cosine chroma_norm template_norm in
  if snd best <? similarity
  then (Chords.chord_name root quality, similarity)
  else best.

Definition root_step (chroma_norm : list float) (best : string * float)
    (entry : string * list (string * list Z)) : string * float :=
  let (root, qualities) := entry in
  fold_left (quality_step chroma_norm root) qualities best.

Definition detect_chord_from_chroma (chroma_vector : list float)
    : string * float :=
  let chroma_norm :=
    map (fun x => x / (np_sum chroma_vector + 1e-8)) chroma_vector in
  fold_left (root_step chroma_norm) Chords.CHORD_TEMPLATES ("N"%string, 0).

(** [k * v] for a chroma vector. *)
Definition scale (k : float) (v : list float) : list float :=
  map (PrimFloat.mul k) v.

End Double.

(** * Properties *)

(** ** Drum notes (drums.py, [create_drum_midi]) *)

Section DrumMidi.
Import Drums.
Local Open Scope Q_scope.

Lemma add_drum_note_app (acc : list MidiNote) (hit : DrumHit) :
  add_drum_note acc hit = acc ++ drum_notes_of hit.
Proof.
  unfold drum_notes_of, add_drum_note.
  destruct (dict_get Config.DRUM_MAPPING (type hit)); simpl.
  - reflexivity.
  - now rewrite app_nil_r.
Qed.

Lemma fold_add_drum_note (hits : list DrumHit) (acc : list MidiNote) :
  fold_left add_drum_note hits acc = acc ++ flat_map drum_notes_of hits.
Proof.
  revert acc; induction hits as [|h hits IH]; intros acc; simpl.
  - now rewrite app_nil_r.
  - rewrite IH, add_drum_note_app, <- app_assoc. reflexivity.
Qed.

(** The track holds, in the order of the hits, one note of 0.1 s for each
    hit whose type is a key of [DRUM_MAPPING], and nothing for the others. *)
Lemma create_drum_midi_notes (hits : list DrumHit) (tempo : Q) :
  map notes (instruments (create_drum_midi hits tempo))
  = [flat_map drum_notes_of hits].
Proof.
  unfold create_drum_midi; simpl. now rewrite fold_add_drum_note.
Qed.

(** A hit whose type is a key of [DRUM_MAPPING] becomes one note of
    velocity 80 and of 0.1 s that starts with the hit. *)
Lemma drum_notes_of_mapped (hit : DrumHit) (mapped : Z) :
  dict_get Config.DRUM_MAPPING (type hit) = Some mapped ->
  drum_notes_of hit
  = [ mkMidiNote 80 mapped (time hit) (time hit + (1 # 10)) ].
Proof.
  intros H. unfold drum_notes_of, add_drum_note. now rewrite H.
Qed.

Lemma drum_notes_of_kick_snare (hit : DrumHit) :
  (type hit = "kick"%string ->
   drum_notes_of hit = [ mkMidiNote 80 35 (time hit) (time hit + (1 # 10)) ])
  /\
  (type hit = "snare"%string ->
   drum_notes_of hit = [ mkMidiNote 80 38 (time hit) (time hit + (1 # 10)) ]).
Proof.
  split; intros H; apply drum_notes_of_mapped; rewrite H; reflexivity.
Qed.

(** A hit of type [hat] or [unknown] adds nothing. *)
Lemma drum_notes_of_hat_unknown (hit : DrumHit) :
  type hit = "hat"%string \/ type hit = "unknown"%string ->
  drum_notes_of hit = [].
Proof.
  intros [H | H]; unfold drum_notes_of, add_drum_note; rewrite H; reflexivity.
Qed.

(** C1, at a kick, a hat and a snare: the kick and the snare become notes
    35 and 38 of length 0.1 s at the times of their hits, and the hat,
    a type the classifier returns, gets no note, [hat] being no key of
    [DRUM_MAPPING] (its keys are [closed_hat] and [open_hat]). *)
Theorem create_drum_midi_drops_hat :
  map notes (instruments (create_drum_midi
     [ mkDrumHit 0 "kick" 0 4410;
       mkDrumHit (1 # 2) "hat" 19845 26460;
       mkDrumHit 1 "snare" 41895 48510 ] 120))
  = [[ mkMidiNote 80 35 0 (0 + (1 # 10));
       mkMidiNote 80 38 1 (1 + (1 # 10)) ]].
Proof. reflexivity. Qed.

End DrumMidi.

(** ** Loop estimate (drums.py, [detect_drum_loop]) *)

Section DrumLoop.
Import Drums.
Local Open Scope Q_scope.

(** C9: with fewer than four hits, whatever their times and whatever the
    tempo (zero included), [detect_drum_loop] returns the zeroed result
    [{loop_length: 0, loop_confidence: 0.0, repetitions: 0}]. *)
Theorem detect_drum_loop_few_hits (drum_hits : list DrumHit) (tempo : Q) :
  (List.length drum_hits < 4)%nat ->
  detect_drum_loop drum_hits tempo
  = Ok {| loop_length := 0; loop_confidence := 0;
          common_positions := None; repetitions := 0 |}.
Proof.
  intros H. unfold detect_drum_loop.
  apply Nat.ltb_lt in H. rewrite H. reflexivity.
Qed.

Lemma detect_drum_loop_few_hits_witness :
  (List.length [ mkDrumHit 0 "kick" 0 4410; mkDrumHit (1 # 2) "hat" 19845 26460;
                 mkDrumHit 1 "snare" 41895 48510 ] < 4)%nat /\
  detect_drum_loop
    [ mkDrumHit 0 "kick" 0 4410; mkDrumHit (1 # 2) "hat" 19845 26460;
      mkDrumHit 1 "snare" 41895 48510 ] 0
  = Ok {| loop_length := 0; loop_confidence := 0;
          common_positions := None; repetitions := 0 |}.
Proof.
  split.
  - simpl; lia.
  - apply detect_drum_loop_few_hits. simpl; lia.
Defined.

(** With four hits the hit times are read: here all four fall on the beat. *)
Example detect_drum_loop_four_hits :
  detect_drum_loop
    [ mkDrumHit 0 "kick" 0 0; mkDrumHit (1 # 2) "kick" 0 0;
      mkDrumHit 1 "kick" 0 0; mkDrumHit (5 # 4) "kick" 0 0 ] 120
  = Ok {| loop_length := 2; loop_confidence := 4 # 4;
          common_positions := Some [0 # 100; 50 # 100];
          repetitions := 2 |}.
Proof. vm_compute. reflexivity. Qed.

End DrumLoop.

(** ** Quantization (melody.py, [quantize_notes_to_beats]) *)

Section Quantize.
Import Melody.
Local Open Scope Q_scope.

Lemma quantize_notes_to_beats_map (notes : list Note) (beat_times : list Q)
    (s : Q) :
  beat_times <> [] ->
  quantize_notes_to_beats notes beat_times s
  = map (quantize_note beat_times s) notes.
Proof.
  intros Hb. unfold quantize_notes_to_beats.
  destruct beat_times as [|b bs]; [congruence|].
  destruct notes; reflexivity.
Qed.

Lemma Forall2_map_r {A B : Type} (P : A -> B -> Prop) (f : A -> B)
    (l : list A) :
  (forall a, In a l -> P a (f a)) -> Forall2 P l (map f l).
Proof.
  induction l as [|a l IH]; intros H; simpl; constructor.
  - apply H; now left.
  - apply IH; intros; apply H; now right.
Qed.

Lemma Forall2_same {A : Type} (P : A -> A -> Prop) (l : list A) :
  (forall a, In a l -> P a a) -> Forall2 P l l.
Proof.
  induction l as [|a l IH]; intros H; constructor.
  - apply H; now left.
  - apply IH; intros; apply H; now right.
Qed.

(** C10: the result has the notes of the input, in their order, each with
    the pitch, confidence and velocity it had. *)
Theorem quantize_keeps_pitch_confidence_velocity (notes : list Note)
    (beat_times : list Q) (quantization_strength : Q) :
  Forall2 (fun n q => pitch q = pitch n /\ confidence q = confidence n
                      /\ velocity q = velocity n)
          notes (quantize_notes_to_beats notes beat_times quantization_strength).
Proof.
  unfold quantize_notes_to_beats.
  destruct beat_times as [|b bs].
  - apply Forall2_same; auto.
  - destruct notes as [|n ns]; [constructor|].
    apply Forall2_map_r. intros a _. simpl. auto.
Qed.







(** A note from 0.1 s to 0.9 s on the beats 0 s and 1 s: strength 0 keeps it,
    strength 1 moves it onto the two beats. *)
Example quantize_long_note :
  map (fun q => (Qred (start_time q), Qred (end_time q)))
      (quantize_notes_to_beats
         [mkNote 60 (1 # 10) (9 # 10) (8 # 10) 1 64] [0; 1] 0)
  = [(1 # 10, 9 # 10)] /\
  map (fun q => (Qred (start_time q), Qred (end_time q)))
      (quantize_notes_to_beats
         [mkNote 60 (1 # 10) (9 # 10) (8 # 10) 1 64] [0; 1] 1)
  = [(0, 1)].
Proof. split; vm_compute; reflexivity. Qed.


End Quantize.

(** ** Note segmentation (melody.py, [f0_to_midi_notes]) *)

Section Segmentation.
Import Melody.
Local Open Scope Q_scope.

Variables min_note_duration max_note_duration : Q.

(** What the duration test lets through. *)
Let within_bounds (n : Note) : Prop :=
  min_note_duration <= duration n /\
  duration n <= max_note_duration /\
  duration n = end_time n - start_time n.

Lemma close_note_within_bounds (current_note : Z) (note_start note_end : Q)
    (note_confidence : list Q) (notes : list Note) :
  Forall within_bounds notes ->
  Forall within_bounds
    (close_note min_note_duration max_note_duration current_note
       note_start note_end note_confidence notes).
Proof.
  intros H. unfold close_note.
  destruct (Qle_bool min_note_duration (note_end - note_start)) eqn:E1;
    [|assumption].
  destruct (Qle_bool (note_end - note_start) max_note_duration) eqn:E2;
    [|assumption].
  simpl. apply Forall_app; split; [assumption|].
  constructor; [|constructor].
  apply Qle_bool_iff in E1. apply Qle_bool_iff in E2.
  repeat split; simpl; assumption.
Qed.

Lemma segment_loop_within_bounds (frames : list (Q * (Z * Q))) :
  forall (current_note : Z) (note_start : Q) (note_confidence : list Q)
         (prev_time : Q) (notes : list Note),
  Forall within_bounds notes ->
  Forall within_bounds
    (segment_loop min_note_duration max_note_duration frames
       current_note note_start note_confidence prev_time notes).
Proof.
  induction frames as [|[t [p c]] rest IH]; intros cur st cf prev notes H.
  - simpl. now apply close_note_within_bounds.
  - simpl. destruct (Z.eqb p cur).
    + now apply IH.
    + apply IH. now apply close_note_within_bounds.
Qed.

(** C6, as the code has it: on arrays of one length and with
    [0 <= min_note_duration <= max_note_duration], [f0_to_midi_notes]
    returns, and every note it returns has
    [min_note_duration <= duration <= max_note_duration] and
    [start_time <= end_time]; the start is strictly before the end when
    [min_note_duration > 0]. *)
Theorem f0_notes_within_duration_bounds (hz_to_midi_round : Q -> Z)
    (f0_times f0_frequencies f0_confidence : list Q)
    (confidence_threshold : Q) :
  List.length f0_times = List.length f0_confidence ->
  List.length f0_frequencies = List.length f0_confidence ->
  0 <= min_note_duration ->
  min_note_duration <= max_note_duration ->
  exists notes,
    f0_to_midi_notes hz_to_midi_round f0_times f0_frequencies f0_confidence
      confidence_threshold min_note_duration max_note_duration = Ok notes /\
    forall n, In n notes ->
      start_time n <= end_time n /\
      (0 < min_note_duration -> start_time n < end_time n) /\
      min_note_duration <= duration n /\
      duration n <= max_note_duration.
Proof.
  intros Ht Hf Hmin _.
  assert (Hgood : forall notes, Forall within_bounds notes ->
            forall n, In n notes ->
              start_time n <= end_time n /\
              (0 < min_note_duration -> start_time n < end_time n) /\
              min_note_duration <= duration n /\
              duration n <= max_note_duration).
  { intros notes HF n Hn. rewrite Forall_forall in HF.
    destruct (HF n Hn) as (H1 & H2 & H3). rewrite H3 in H1.
    repeat split; try assumption; try lra. now rewrite H3 in H2 |- *. }
  unfold f0_to_midi_notes.
  rewrite Ht, Hf, !Nat.eqb_refl. simpl negb. cbv iota.
  match goal with |- context [mask_select ?m f0_times] =>
    destruct (mask_select m f0_times) as [|ct cts] eqn:Ect end.
  - exists []. split; [reflexivity | intros n []].
  - match goal with |- context [match ?vt with [] => _ | _ :: _ => _ end] =>
      destruct vt as [|t0 ts] end.
    + exists []. split; [reflexivity | intros n []].
    + match goal with
      |- context [match ?vn with [] => Ok [] | _ :: _ => _ end] =>
        destruct vn as [|p0 ps] end.
      * exists []. split; [reflexivity | intros n []].
      * match goal with
        |- context [match ?vc with [] => Ok [] | _ :: _ => _ end] =>
          destruct vc as [|c0 cs] end.
        -- exists []. split; [reflexivity | intros n []].
        -- eexists. split; [reflexivity|].
           apply Hgood. apply segment_loop_within_bounds. constructor.
Qed.

End Segmentation.

Section SegmentationExamples.
Import Melody.
Local Open Scope Q_scope.

Example hz_to_midi_round_exact_a4_c4 :
  hz_to_midi_round_exact 440 = 69%Z /\
  hz_to_midi_round_exact (26163 # 100) = 60%Z /\
  hz_to_midi_round_exact 13000 = 128%Z.
Proof. repeat split; vm_compute; reflexivity. Qed.

(** Three frames at A4 and two at C4, 0.1 s apart: two notes. *)
Example f0_to_midi_notes_two_runs :
  f0_to_midi_notes hz_to_midi_round_exact
    [0; 1 # 10; 2 # 10; 3 # 10; 4 # 10]
    [440; 440; 440; 26163 # 100; 26163 # 100]
    [9 # 10; 9 # 10; 9 # 10; 8 # 10; 8 # 10]
    Config.MELODY_CONF_THRESH
    Config.MELODY_MIN_NOTE_DURATION Config.MELODY_MAX_NOTE_DURATION
  = Ok [ mkNote 69 0 (2 # 10) ((2 # 10) - 0)
           (mean [9 # 10; 9 # 10; 9 # 10]) 57;
         mkNote 60 (3 # 10) (4 # 10) ((4 # 10) - (3 # 10))
           (mean [8 # 10; 8 # 10]) 51 ].
Proof. vm_compute. reflexivity. Qed.

Lemma f0_notes_within_duration_bounds_witness :
  exists notes,
    f0_to_midi_notes hz_to_midi_round_exact
      [0; 1 # 10; 2 # 10; 3 # 10; 4 # 10]
      [440; 440; 440; 26163 # 100; 26163 # 100]
      [9 # 10; 9 # 10; 9 # 10; 8 # 10; 8 # 10]
      (5 # 10) (1 # 10) 2 = Ok notes /\
    forall n, In n notes ->
      start_time n <= end_time n /\
      (0 < 1 # 10 -> start_time n < end_time n) /\
      1 # 10 <= duration n /\
      duration n <= 2.
Proof.
  apply (f0_notes_within_duration_bounds (1 # 10) 2).
  - reflexivity.
  - reflexivity.
  - vm_compute; discriminate.
  - vm_compute; discriminate.
Defined.

(** C6 fails at [min_note_duration = 0]: a run of one confident frame passes
    the test [0 <= 0 <= max] and becomes a note that starts and ends at the
    time of that frame. *)
Lemma f0_single_frame_note_has_no_length :
  exists n,
    f0_to_midi_notes hz_to_midi_round_exact [1 # 2] [440] [9 # 10]
      (5 # 10) 0 2 = Ok [n] /\
    0 <= 0 <= 2 /\
    ~ start_time n < end_time n.
Proof.
  eexists. split; [vm_compute; reflexivity|].
  split; [split; vm_compute; discriminate|].
  vm_compute. discriminate.
Qed.

End SegmentationExamples.

(** ** Merging of chord windows (chords.py, [merge_consecutive_chords]) *)

Section MergeChords.
Import Chords.

Variable conf : Type.
Variable gt : conf -> conf -> bool.

Lemma no_adjacent_repeat_relabel (l : list (ChordEvent conf))
    (a a' : ChordEvent conf) :
  label a = label a' ->
  no_adjacent_repeat (l ++ [a]) -> no_adjacent_repeat (l ++ [a']).
Proof.
  intros Ha. induction l as [|e l IH]; simpl.
  - auto.
  - intros [H1 H2]. split; [|now apply IH].
    destruct l as [|e' l']; simpl in *; congruence.
Qed.

Lemma no_adjacent_repeat_snoc (l : list (ChordEvent conf))
    (a b : ChordEvent conf) :
  label a <> label b ->
  no_adjacent_repeat (l ++ [a]) -> no_adjacent_repeat ((l ++ [a]) ++ [b]).
Proof.
  intros Hab. induction l as [|e l IH]; simpl.
  - auto.
  - intros [H1 H2]. split; [|now apply IH].
    destruct l as [|e' l']; simpl in *; assumption.
Qed.

(** The loop returns on lists long enough, and [merged ++ [current_chord]]
    stays free of repeated neighbours. *)
Lemma merge_loop_no_adjacent_repeat (times : list Q) :
  forall (labels : list string) (confidences : list conf)
         (merged : list (ChordEvent conf)) (current_chord : ChordEvent conf),
  (List.length times <= List.length labels)%nat ->
  (List.length times <= List.length confidences)%nat ->
  no_adjacent_repeat (merged ++ [current_chord]) ->
  exists m,
    merge_loop gt times labels confidences merged current_chord = Ok m /\
    no_adjacent_repeat m.
Proof.
  induction times as [|t times IH]; intros labels confs merged cur Hl Hc Hn.
  - simpl. eauto.
  - destruct labels as [|l labels]; [simpl in Hl; lia|].
    destruct confs as [|c confs]; [simpl in Hc; lia|].
    simpl in Hl, Hc. simpl.
    destruct (String.eqb l (label cur)) eqn:E.
    + apply IH; try lia.
      apply no_adjacent_repeat_relabel with cur; [reflexivity | assumption].
    + apply IH; try lia.
      apply no_adjacent_repeat_snoc; [|assumption].
      simpl. apply String.eqb_neq in E. congruence.
Qed.

(** On a progression free of repeated neighbours the loop copies. *)
Lemma merge_loop_copies (events : list (ChordEvent conf)) :
  forall (merged : list (ChordEvent conf)) (current_chord : ChordEvent conf),
  no_adjacent_repeat (current_chord :: events) ->
  merge_loop gt (map time events) (map label events)
    (map confidence events) merged current_chord
  = Ok (merged ++ current_chord :: events).
Proof.
  induction events as [|e events IH]; intros merged cur Hn.
  - reflexivity.
  - simpl in Hn. destruct Hn as [Hne Hn]. simpl.
    assert (E : String.eqb (label e) (label cur) = false)
      by (apply String.eqb_neq; congruence).
    rewrite E.
    replace {| time := time e; label := label e; confidence := confidence e |}
      with e by (destruct e; reflexivity).
    rewrite IH by exact Hn. now rewrite <- app_assoc.
Qed.

(** C5: whenever the label and confidence lists are at least as long as the
    time list, [merge_consecutive_chords] returns a progression in which no
    two neighbours share a label, and merging the times, labels and
    confidences of that progression again returns it unchanged. *)
Theorem merge_consecutive_chords_idempotent (times : list Q)
    (labels : list string) (confidences : list conf) :
  (List.length times <= List.length labels)%nat ->
  (List.length times <= List.length confidences)%nat ->
  exists merged,
    merge_consecutive_chords gt times labels confidences = Ok merged /\
    no_adjacent_repeat merged /\
    merge_consecutive_chords gt (map time merged) (map label merged)
      (map confidence merged) = Ok merged.
Proof.
  intros Hl Hc. unfold merge_consecutive_chords at 1.
  destruct times as [|t0 times].
  - exists []. repeat split.
  - destruct labels as [|l0 labels]; [simpl in Hl; lia|].
    destruct confidences as [|c0 confs]; [simpl in Hc; lia|].
    simpl in Hl, Hc.
    destruct (merge_loop_no_adjacent_repeat times labels confs []
                {| time := t0; label := l0; confidence := c0 |})
      as (m & Hm & Hn); try lia.
    { simpl; auto. }
    exists m. split; [exact Hm|]. split; [exact Hn|].
    destruct m as [|e es]; [reflexivity|].
    unfold merge_consecutive_chords. cbn [map].
    replace {| time := time e; label := label e; confidence := confidence e |}
      with e by (destruct e; reflexivity).
    apply (merge_loop_copies es [] e Hn).
Qed.

End MergeChords.

Section MergeChordsExamples.
Import Chords.
Local Open Scope Q_scope.

(** Confidences as rationals. *)
Let gtq (a b : Q) : bool := if Qlt_le_dec b a then true else false.

Example merge_consecutive_chords_run :
  merge_consecutive_chords gtq [0; 1; 2; 3]
    ["CM"; "CM"; "GM"; "CM"]%string [5 # 10; 7 # 10; 6 # 10; 4 # 10]
  = Ok [ mkChordEvent 0 "CM"%string (7 # 10);
         mkChordEvent 2 "GM"%string (6 # 10);
         mkChordEvent 3 "CM"%string (4 # 10) ].
Proof. reflexivity. Qed.

Example merge_consecutive_chords_short_labels :
  merge_consecutive_chords gtq [0; 1] ["CM"]%string [5 # 10; 7 # 10]
  = IndexError.
Proof. reflexivity. Qed.

Lemma merge_consecutive_chords_idempotent_witness :
  exists merged,
    merge_consecutive_chords (fun a b : Q => if Qlt_le_dec b a then true else false)
      [0; 1; 2; 3] ["CM"; "CM"; "GM"; "CM"]%string
      [5 # 10; 7 # 10; 6 # 10; 4 # 10] = Ok merged /\
    no_adjacent_repeat merged /\
    merge_consecutive_chords (fun a b : Q => if Qlt_le_dec b a then true else false)
      (map time merged) (map label merged) (map confidence merged)
    = Ok merged.
Proof.
  apply merge_consecutive_chords_idempotent; simpl; lia.
Defined.

End MergeChordsExamples.

(** ** The periodic grid (timing.py, [refine_beat_grid]) *)

Section RefineBeatGrid.
Import Timing.
Local Open Scope Q_scope.

Lemma of_nat_0 : of_nat 0 == 0.
Proof. reflexivity. Qed.

Lemma of_nat_S (n : nat) : of_nat (S n) == of_nat n + 1.
Proof.
  unfold of_nat. rewrite Nat2Z.inj_succ. unfold Z.succ.
  now rewrite inject_Z_plus.
Qed.

Lemma of_nat_nonneg (n : nat) : 0 <= of_nat n.
Proof.
  unfold of_nat. change 0 with (inject_Z 0). rewrite <- Zle_Qle. lia.
Qed.

Lemma of_nat_le (i n : nat) : (i <= n)%nat -> of_nat i <= of_nat n.
Proof. intros H. unfold of_nat. rewrite <- Zle_Qle. lia. Qed.

Lemma length_progression (start step : Q) (n : nat) :
  List.length (progression start step n) = n.
Proof. revert start; induction n; intros; simpl; auto. Qed.

Lemma nth_progression (n : nat) :
  forall (start step : Q) (i : nat), (i < n)%nat ->
  nth i (progression start step n) 0 == start + of_nat i * step.
Proof.
  induction n as [|n IH]; intros start step i Hi; [lia|].
  destruct i as [|i]; simpl.
  - rewrite of_nat_0. ring.
  - rewrite IH by lia. rewrite of_nat_S. ring.
Qed.

Lemma progression_above (n : nat) :
  forall (start step x : Q), 0 < step ->
  In x (progression start step n) -> start <= x.
Proof.
  induction n as [|n IH]; intros start step x Hs; simpl; [tauto|].
  intros [Hx | Hx].
  - subst; apply Qle_refl.
  - apply IH in Hx; [lra | assumption].
Qed.

Lemma progression_increasing (n : nat) :
  forall (start step : Q), 0 < step ->
  StronglySorted Qlt (progression start step n).
Proof.
  induction n as [|n IH]; intros start step Hs; simpl; constructor.
  - now apply IH.
  - apply Forall_forall. intros x Hx.
    apply progression_above in Hx; [lra | assumption].
Qed.

(** The loop appends the progression of the [n] terms that do not exceed
    [duration], on any fuel above [n]. *)
Lemma refine_loop_progression (n : nat) :
  forall (beat_interval duration current_time : Q) (refined_beats : list Q)
         (fuel : nat),
  (n < fuel)%nat ->
  (forall i, (i < n)%nat -> current_time + of_nat i * beat_interval <= duration) ->
  duration < current_time + of_nat n * beat_interval ->
  refine_loop fuel beat_interval duration current_time refined_beats
  = Ok (refined_beats ++ progression current_time beat_interval n).
Proof.
  induction n as [|n IH]; intros bi dur cur acc fuel Hf Hle Hgt;
    (destruct fuel as [|fuel]; [lia|]); simpl.
  - assert (E : Qle_bool cur dur = false).
    { apply not_true_is_false. rewrite Qle_bool_iff.
      rewrite of_nat_0 in Hgt. lra. }
    rewrite E. now rewrite app_nil_r.
  - assert (E : Qle_bool cur dur = true).
    { apply Qle_bool_iff. specialize (Hle 0%nat ltac:(lia)).
      rewrite of_nat_0 in Hle. lra. }
    rewrite E, IH.
    + now rewrite <- app_assoc.
    + lia.
    + intros i Hi. specialize (Hle (S i) ltac:(lia)).
      rewrite of_nat_S in Hle. lra.
    + rewrite of_nat_S in Hgt. lra.
Qed.

(** In exact arithmetic: for a positive tempo, a non-empty list of
    detected beats and a duration not before the first of them, the loop
    returns (on any fuel above the number of beats it produces) the
    progression that starts at the first detected beat, advances by
    [60 / tempo], has all its terms at or before [duration] and whose next
    term would lie after [duration]; the result is non-empty and strictly
    increasing.  The doubles of the program follow it up to rounding only,
    see [refine_beat_grid_rounded]. *)
Theorem refine_beat_grid_progression (beat_times : list Q)
    (tempo duration : Q) :
  beat_times <> [] ->
  0 < tempo ->
  hd 0 beat_times <= duration ->
  exists (n : nat) (refined : list Q),
    (forall fuel, (n < fuel)%nat ->
       refine_beat_grid fuel beat_times tempo duration = Ok refined) /\
    List.length refined = n /\
    (0 < n)%nat /\
    (forall i, (i < n)%nat ->
       nth i refined 0 == hd 0 beat_times + of_nat i * (60 / tempo)) /\
    Forall (fun x => x <= duration) refined /\
    duration < hd 0 beat_times + of_nat n * (60 / tempo) /\
    StronglySorted Qlt refined.
Proof.
  intros Hne Htempo Hstart.
  destruct beat_times as [|start rest]; [congruence|]. simpl hd in *.
  set (bi := 60 / tempo).
  assert (Hbi : 0 < bi).
  { unfold bi, Qdiv. apply Qmult_lt_0_compat; [reflexivity|].
    now apply Qinv_lt_0_compat. }
  set (x := (duration - start) / bi).
  assert (Hx : x * bi == duration - start).
  { unfold x. field. lra. }
  assert (Hx0 : 0 <= x).
  { unfold x, Qdiv. apply Qmult_le_0_compat; [lra|].
    apply Qlt_le_weak. now apply Qinv_lt_0_compat. }
  set (k := Qfloor x).
  assert (Hk0 : (0 <= k)%Z).
  { unfold k. change 0%Z with (Qfloor 0). now apply Qfloor_resp_le. }
  assert (Hkle : inject_Z k <= x) by apply Qfloor_le.
  assert (Hklt : x < inject_Z (k + 1)) by apply Qlt_floor.
  set (n := S (Z.to_nat k)).
  assert (Hn : of_nat n == inject_Z k + 1).
  { unfold n. rewrite of_nat_S. unfold of_nat. rewrite Z2Nat.id by assumption.
    reflexivity. }
  assert (Hlast : forall i, (i < n)%nat -> start + of_nat i * bi <= duration).
  { intros i Hi.
    assert (Hik : of_nat i <= inject_Z k).
    { unfold of_nat. rewrite <- Zle_Qle. unfold n in Hi. lia. }
    assert (of_nat i * bi <= x * bi).
    { apply Qmult_le_compat_r; lra. }
    lra. }
  assert (Hnext : duration < start + of_nat n * bi).
  { rewrite inject_Z_plus in Hklt.
    assert (x * bi < of_nat n * bi).
    { apply Qmult_lt_compat_r; [assumption|]. rewrite Hn.
      change (inject_Z 1) with 1 in Hklt. lra. }
    lra. }
  exists n, (progression start bi n).
  split.
  { intros fuel Hfuel. unfold refine_beat_grid.
    assert (E : Qeq_bool tempo 0 = false).
    { apply not_true_is_false. rewrite Qeq_bool_iff. lra. }
    rewrite E. fold bi.
    now rewrite (refine_loop_progression n bi duration start [] fuel). }
  split; [apply length_progression|].
  split; [unfold n; lia|].
  split; [intros i Hi; now apply nth_progression|].
  split.
  { apply Forall_forall. intros y Hy.
    destruct (In_nth _ _ 0 Hy) as (i & Hi & Hnth).
    rewrite length_progression in Hi.
    rewrite <- Hnth, nth_progression by assumption. now apply Hlast. }
  split; [assumption|].
  now apply progression_increasing.
Qed.

Lemma refine_beat_grid_progression_witness :
  exists (n : nat) (refined : list Q),
    (forall fuel, (n < fuel)%nat ->
       refine_beat_grid fuel [1 # 2; 26 # 25; 3 # 2] 120 2 = Ok refined) /\
    List.length refined = n /\
    (0 < n)%nat /\
    (forall i, (i < n)%nat ->
       nth i refined 0
       == hd 0 [1 # 2; 26 # 25; 3 # 2] + of_nat i * (60 / 120)) /\
    Forall (fun x => x <= 2) refined /\
    2 < hd 0 [1 # 2; 26 # 25; 3 # 2] + of_nat n * (60 / 120) /\
    StronglySorted Qlt refined.
Proof.
  apply refine_beat_grid_progression.
  - discriminate.
  - reflexivity.
  - vm_compute; discriminate.
Defined.

(** Beats detected at 0.5 s, 1.04 s and 1.5 s, 120 beats per minute, two
    seconds of audio: the grid is 0.5, 1, 1.5, 2. *)
Example refine_beat_grid_two_seconds :
  match refine_beat_grid 10 [1 # 2; 26 # 25; 3 # 2] 120 2 with
  | Ok refined => map Qred refined = [1 # 2; 1; 3 # 2; 2]
  | _ => False
  end.
Proof. vm_compute. reflexivity. Qed.

(** A negative tempo never leaves the loop: no fuel is enough. *)
Example refine_beat_grid_negative_tempo :
  refine_beat_grid 50 [1 # 2] (-120) 2 = OutOfFuel.
Proof. vm_compute. reflexivity. Qed.

End RefineBeatGrid.

(** ** Double precision: the rounding and its error *)

Section DoublePrecision.
Import Floats Binary64.
Local Open Scope Q_scope.

Lemma round_half_even_error (x : Q) :
  Qabs (inject_Z (Drums.round_half_even x) - x) <= 1 # 2.
Proof.
  unfold Drums.round_half_even. cbv zeta.
  pose proof (Qfloor_le x) as Hlo. pose proof (Qlt_floor x) as Hhi.
  rewrite inject_Z_plus in Hhi. change (inject_Z 1) with 1 in Hhi.
  apply Qabs_case; intros _;
    destruct (Qlt_le_dec (x - inject_Z (Qfloor x)) (1 # 2));
    try destruct (Qlt_le_dec (1 # 2) (x - inject_Z (Qfloor x)));
    try destruct (Z.even (Qfloor x));
    rewrite ?inject_Z_plus; change (inject_Z 1) with 1; lra.
Qed.

Lemma two_power_pos (e : Z) : 0 < 2 ^ e.
Proof. apply Qpower_0_lt. reflexivity. Qed.

Lemma floor_log2_le (x : Q) : 0 < x -> 2 ^ Melody.floor_log2 x <= x.
Proof.
  intros Hx. unfold Melody.floor_log2. cbv zeta.
  destruct (Qle_bool (2 ^ (Z.log2 (Qnum x) - Z.log2 (Z.pos (Qden x)))) x) eqn:E.
  - now apply Qle_bool_iff.
  - destruct x as [n d]. cbn [Qnum Qden] in *.
    assert (Hn : (0 < n)%Z).
    { unfold Qlt in Hx. simpl in Hx. lia. }
    destruct (Z.log2_spec n Hn) as [Hn1 _].
    destruct (Z.log2_spec (Z.pos d) ltac:(lia)) as [_ Hd2].
    pose proof (Z.log2_nonneg n) as Ha.
    pose proof (Z.log2_nonneg (Z.pos d)) as Hb.
    set (a := Z.log2 n) in *. set (b := Z.log2 (Z.pos d)) in *.
    assert (Hq1 : 2 ^ a <= inject_Z n).
    { change 2 with (inject_Z 2). rewrite <- Zpower_Qpower by assumption.
      rewrite <- Zle_Qle. exact Hn1. }
    assert (Hq2 : inject_Z (Z.pos d) <= 2 ^ (b + 1)).
    { change 2 with (inject_Z 2). rewrite <- Zpower_Qpower by lia.
      rewrite <- Zle_Qle. unfold Z.succ in Hd2. lia. }
    assert (Hsplit : 2 ^ a == 2 ^ (a - b - 1) * 2 ^ (b + 1)).
    { rewrite <- Qpower_plus by discriminate.
      now replace (a - b - 1 + (b + 1))%Z with a by lia. }
    assert (Hpos : 0 < 2 ^ (a - b - 1)) by apply two_power_pos.
    assert (Hd : 0 < inject_Z (Z.pos d)).
    { change 0 with (inject_Z 0). rewrite <- Zlt_Qlt. lia. }
    assert (Hx' : n # d == inject_Z n / inject_Z (Z.pos d)).
    { rewrite Qmake_Qdiv. reflexivity. }
    rewrite Hx'. apply Qle_shift_div_l; [assumption|].
    apply Qle_trans with (2 ^ (a - b - 1) * 2 ^ (b + 1)).
    + apply Qmult_le_l; assumption.
    + rewrite <- Hsplit. exact Hq1.
Qed.

Lemma round_pos_error (x : Q) :
  0 < x -> Qabs (round_pos x - x) <= unit_roundoff * x.
Proof.
  intros Hx. unfold round_pos. cbv zeta. rewrite Qred_correct.
  pose proof (floor_log2_le x Hx) as He.
  set (e := Melody.floor_log2 x) in *.
  assert (Hulp : 2 ^ (e - 52) == 2 ^ e * (1 # 4503599627370496)).
  { unfold Z.sub. rewrite Qpower_plus by discriminate. reflexivity. }
  pose proof (two_power_pos (e - 52)) as Hpos.
  set (ulp := 2 ^ (e - 52)) in *.
  pose proof (round_half_even_error (x / ulp)) as Hr.
  set (r := inject_Z (Drums.round_half_even (x / ulp))) in *.
  assert (Hm : x / ulp * ulp == x) by (field; lra).
  set (m := x / ulp) in *.
  apply Qabs_Qle_condition in Hr. destruct Hr as [Hr1 Hr2].
  assert (H1 : (r - m) * ulp <= (1 # 2) * ulp)
    by (apply Qmult_le_compat_r; lra).
  assert (H2 : - (1 # 2) * ulp <= (r - m) * ulp)
    by (apply Qmult_le_compat_r; lra).
  assert (E : r * ulp - x == (r - m) * ulp) by (rewrite <- Hm at 1; ring).
  apply Qabs_Qle_condition. rewrite E. unfold unit_roundoff. split; lra.
Qed.

Lemma binary64_error (x : Q) :
  Qabs (binary64 x - x) <= unit_roundoff * Qabs x.
Proof.
  unfold binary64. destruct (Qcompare x 0) eqn:E.
  - apply Qeq_alt in E. rewrite E. vm_compute. discriminate.
  - apply Qlt_alt in E.
    assert (Hx : 0 < - x) by lra.
    pose proof (round_pos_error (- x) Hx) as H.
    rewrite (Qabs_neg x) by lra.
    apply Qabs_Qle_condition in H. apply Qabs_Qle_condition. lra.
  - apply Qgt_alt in E.
    pose proof (round_pos_error x E) as H.
    rewrite (Qabs_pos x) by lra. exact H.
Qed.

(** [binary64] against the doubles of the kernel: a quotient, a constant,
    a difference, a sum and a tie. *)
Example binary64_is_the_rounding_of_the_doubles :
  Some (binary64 (60 / 135)) = Double.to_Q (60 / 135)%float /\
  Some (binary64 (1 # 10)) = Double.to_Q (1 / 10)%float /\
  Some (binary64 (binary64 (1 # 2) - binary64 (2 # 5)))
  = Double.to_Q (1 / 2 - 2 / 5)%float /\
  Some (binary64 (binary64 (7 # 10) + binary64 (7 # 10)))
  = Double.to_Q (7 / 10 + 7 / 10)%float /\
  Some (binary64 (4503599627370497 + (1 # 2)))
  = Double.to_Q (4503599627370497 + 1 / 2)%float.
Proof. vm_compute. repeat split. Qed.

End DoublePrecision.

(** ** The beat grid in double precision (timing.py, [refine_beat_grid]) *)

Section RoundedGrid.
Import Timing Rounded.

Variable rnd : Q -> Q.
Variable u : Q.
Hypothesis rnd_error : forall x, Qabs (rnd x - x) <= u * Qabs x.
Hypothesis u_range : 0 <= u < 1.

Lemma rnd_above (x : Q) : x - u * Qabs x <= rnd x.
Proof.
  pose proof (rnd_error x) as H. apply Qabs_Qle_condition in H. lra.
Qed.

Lemma rnd_below (x : Q) : rnd x <= x + u * Qabs x.
Proof.
  pose proof (rnd_error x) as H. apply Qabs_Qle_condition in H. lra.
Qed.

Lemma rnd_positive (x : Q) : 0 < x -> 0 < rnd x.
Proof.
  intros Hx. pose proof (rnd_above x) as H.
  rewrite (Qabs_pos x) in H by lra.
  assert (0 < x * (1 - u)) by (apply Qmult_lt_0_compat; lra). lra.
Qed.

Lemma Qabs_between (lo hi x : Q) :
  lo <= x <= hi -> Qabs x <= Qabs lo + Qabs hi.
Proof.
  intros [H1 H2].
  pose proof (Qabs_nonneg lo). pose proof (Qabs_nonneg hi).
  pose proof (Qle_Qabs hi). pose proof (Qle_Qabs (- lo)) as Hl.
  rewrite Qabs_opp in Hl.
  apply Qabs_Qle_condition. split; lra.
Qed.

(** One step of the loop moves the time forward by the interval less the
    rounding of the sum. *)
Lemma rounded_step (lo duration beat_interval x : Q) :
  0 < beat_interval -> lo <= x <= duration ->
  x + (beat_interval - u * (Qabs lo + Qabs duration + beat_interval))
  <= rnd (x + beat_interval).
Proof.
  intros Hd Hx.
  pose proof (rnd_above (x + beat_interval)) as H.
  pose proof (Qabs_between lo duration x Hx) as Hb.
  pose proof (Qabs_triangle x beat_interval) as Ht.
  rewrite (Qabs_pos beat_interval) in Ht by lra.
  assert (Hu : Qabs (x + beat_interval) * u
               <= (Qabs lo + Qabs duration + beat_interval) * u).
  { apply Qmult_le_compat_r; lra. }
  lra.
Qed.

Section Loop.
Variables lo duration beat_interval : Q.
Hypothesis interval_positive : 0 < beat_interval.

Let margin : Q :=
  beat_interval - u * (Qabs lo + Qabs duration + beat_interval).

Hypothesis margin_positive : 0 < margin.

(** From [current_time] on, with [n] bounding the steps that are left, the
    loop returns on any fuel above [n]; the beats it appends start at
    [current_time], each is the rounded sum of the one before and the
    interval, all lie at or before [duration], and the sum after the last
    one lies after it. *)
Lemma rounded_loop (n : nat) :
  forall (current_time : Q) (refined_beats : list Q),
  lo <= current_time ->
  duration < current_time + of_nat n * margin ->
  exists beats,
    (forall fuel, (n < fuel)%nat ->
       refine_loop rnd fuel beat_interval duration current_time refined_beats
       = Ok (refined_beats ++ beats)) /\
    (List.length beats <= n)%nat /\
    (current_time <= duration -> hd 0 beats = current_time /\ beats <> []) /\
    (forall i, (S i < List.length beats)%nat ->
       nth (S i) beats 0 = rnd (nth i beats 0 + beat_interval)) /\
    Forall (fun x => current_time <= x <= duration) beats /\
    duration < match beats with
               | [] => current_time
               | _ :: _ => rnd (last beats 0 + beat_interval)
               end /\
    StronglySorted Qlt beats.
Proof.
  induction n as [|n IH]; intros cur acc Hlo Hn.
  - rewrite of_nat_0 in Hn.
    assert (E : Qle_bool cur duration = false).
    { apply not_true_is_false. rewrite Qle_bool_iff. lra. }
    exists []. split.
    { intros [|fuel] Hf; [lia|]. simpl. rewrite E. now rewrite app_nil_r. }
    split; [simpl; lia|]. split; [intros; lra|].
    split; [simpl; intros; lia|]. split; [constructor|].
    split; [lra | constructor].
  - destruct (Qle_bool cur duration) eqn:E.
    + apply Qle_bool_iff in E.
      pose proof (rounded_step lo duration beat_interval cur
                    interval_positive (conj Hlo E)) as Hstep.
      fold margin in Hstep.
      set (next := rnd (cur + beat_interval)) in *.
      rewrite of_nat_S in Hn.
      destruct (IH next (acc ++ [cur]) ltac:(lra) ltac:(lra))
        as (beats & Hrun & Hlen & Hhd & Hnth & Hall & Hlast & Hsort).
      exists (cur :: beats). split.
      { intros [|fuel] Hf; [lia|]. simpl.
        assert (E' : Qle_bool cur duration = true) by now apply Qle_bool_iff.
        rewrite E'. fold next. rewrite Hrun by lia.
        now rewrite <- app_assoc. }
      split; [simpl; lia|].
      split; [intros _; split; [reflexivity | discriminate]|].
      assert (Hall' : Forall (fun x => cur < x) beats).
      { eapply Forall_impl; [|exact Hall]. intros x Hx. simpl in Hx. lra. }
      split.
      { intros [|i] Hi; simpl in Hi.
        - destruct beats as [|b beats']; [simpl in Hi; lia|].
          destruct (Qlt_le_dec duration next) as [Hgt | Hle].
          + inversion Hall as [|? ? Hb _]; subst. simpl in Hb. lra.
          + destruct (Hhd Hle) as [Hb _]. simpl in Hb. subst b. reflexivity.
        - apply (Hnth i). lia. }
      split.
      { constructor; [lra|].
        eapply Forall_impl; [|exact Hall]. intros x Hx. simpl in Hx. lra. }
      split.
      { destruct beats as [|b beats']; [exact Hlast|].
        change (last (cur :: b :: beats') 0) with (last (b :: beats') 0).
        exact Hlast. }
      constructor; assumption.
    + exists []. split.
      { intros [|fuel] Hf; [lia|]. simpl. rewrite E. now rewrite app_nil_r. }
      split; [simpl; lia|].
      assert (Hgt : duration < cur).
      { destruct (Qlt_le_dec duration cur) as [H | H]; [exact H|].
        apply Qle_bool_iff in H. congruence. }
      split; [intros; lra|].
      split; [simpl; intros; lia|]. split; [constructor|].
      split; [exact Hgt | constructor].
Qed.

End Loop.

(** C4, as the code computes it: for a positive tempo, a non-empty list of
    detected beats, a duration not before the first of them and a grid
    short enough for a step not to vanish in the rounding of a sum,
    [refine_beat_grid] returns (on enough fuel) a non-empty, strictly
    increasing list that starts at the first detected beat; each later beat
    is the rounded sum of the beat before and the rounded interval, so that
    neighbours lie [60 / tempo] apart up to the rounding; every beat lies
    at or before [duration] and the sum after the last one lies after
    it. *)
Theorem refine_beat_grid_rounded (beat_times : list Q) (tempo duration : Q) :
  beat_times <> [] ->
  0 < tempo ->
  hd 0 beat_times <= duration ->
  u * (Qabs (hd 0 beat_times) + Qabs duration)
  < 60 / tempo * ((1 - u) * (1 - u)) ->
  exists (n : nat) (refined : list Q),
    (forall fuel, (n < fuel)%nat ->
       refine_beat_grid rnd fuel beat_times tempo duration = Ok refined) /\
    (0 < List.length refined)%nat /\
    hd 0 refined = hd 0 beat_times /\
    (forall i, (S i < List.length refined)%nat ->
       nth (S i) refined 0 = rnd (nth i refined 0 + rnd (60 / tempo))) /\
    (forall i, (S i < List.length refined)%nat ->
       Qabs (nth (S i) refined 0 - nth i refined 0 - 60 / tempo)
       <= u * (Qabs (hd 0 beat_times) + Qabs duration + 3 * (60 / tempo))) /\
    Forall (fun x => x <= duration) refined /\
    duration < rnd (last refined 0 + rnd (60 / tempo)) /\
    StronglySorted Qlt refined.
Proof.
  intros Hne Htempo Hstart Hshort.
  destruct beat_times as [|start rest]; [congruence|]. simpl hd in *.
  destruct u_range as [Hu0 Hu1].
  set (d0 := 60 / tempo) in *.
  assert (Hd0 : 0 < d0).
  { unfold d0, Qdiv. apply Qmult_lt_0_compat; [reflexivity|].
    now apply Qinv_lt_0_compat. }
  pose proof (rnd_above d0) as Hdlo. pose proof (rnd_below d0) as Hdhi.
  rewrite (Qabs_pos d0) in Hdlo, Hdhi by lra.
  pose proof (rnd_positive d0 Hd0) as Hd.
  set (d := rnd d0) in *.
  set (M := Qabs start + Qabs duration) in *.
  assert (HM : 0 <= M).
  { unfold M. pose proof (Qabs_nonneg start). pose proof (Qabs_nonneg duration).
    lra. }
  assert (Hud : u * d0 <= d0) by (rewrite <- (Qmult_1_l d0) at 2;
                                  apply Qmult_le_compat_r; lra).
  assert (Hmargin : 0 < d - u * (M + d)).
  { assert (H1 : (d0 - u * d0) * (1 - u) <= d * (1 - u))
      by (apply Qmult_le_compat_r; lra).
    lra. }
  set (margin := d - u * (M + d)) in *.
  set (x := (duration - start) / margin).
  assert (Hx : x * margin == duration - start) by (unfold x; field; lra).
  assert (Hx0 : 0 <= x).
  { unfold x, Qdiv. apply Qmult_le_0_compat; [lra|].
    apply Qlt_le_weak. now apply Qinv_lt_0_compat. }
  pose proof (Qlt_floor x) as Hklt.
  assert (Hk0 : (0 <= Qfloor x)%Z).
  { change 0%Z with (Qfloor 0). now apply Qfloor_resp_le. }
  set (n := S (Z.to_nat (Qfloor x))).
  assert (Hn : of_nat n == inject_Z (Qfloor x) + 1).
  { unfold n. rewrite of_nat_S. unfold of_nat. now rewrite Z2Nat.id. }
  assert (Hbound : duration < start + of_nat n * margin).
  { rewrite inject_Z_plus in Hklt. change (inject_Z 1) with 1 in Hklt.
    assert (x * margin < of_nat n * margin)
      by (apply Qmult_lt_compat_r; [assumption | lra]).
    lra. }
  destruct (rounded_loop start duration d Hd Hmargin n start []
              (Qle_refl start) Hbound)
    as (beats & Hrun & _ & Hhd & Hnth & Hall & Hlast & Hsort).
  destruct (Hhd Hstart) as [Hfirst Hbeats].
  exists n, beats. split.
  { intros fuel Hf. unfold refine_beat_grid.
    assert (E : Qeq_bool tempo 0 = false).
    { apply not_true_is_false. rewrite Qeq_bool_iff. lra. }
    rewrite E. fold d0. fold d. now apply Hrun. }
  split; [destruct beats; [congruence | simpl; lia]|].
  split; [exact Hfirst|]. split; [exact Hnth|]. split.
  { intros i Hi. rewrite (Hnth i Hi).
    assert (Hin : In (nth i beats 0) beats) by (apply nth_In; lia).
    rewrite Forall_forall in Hall. specialize (Hall _ Hin).
    set (b := nth i beats 0) in *.
    pose proof (rnd_error (b + d)) as Hr.
    apply Qabs_Qle_condition in Hr.
    pose proof (Qabs_between start duration b Hall) as Hb. fold M in Hb.
    pose proof (Qabs_triangle b d) as Ht.
    rewrite (Qabs_pos d) in Ht by lra.
    assert (H1 : Qabs (b + d) * u <= (M + d) * u)
      by (apply Qmult_le_compat_r; lra).
    assert (H2 : d * u <= (d0 + d0) * u)
      by (apply Qmult_le_compat_r; lra).
    apply Qabs_Qle_condition. split; lra. }
  split.
  { eapply Forall_impl; [|exact Hall]. intros y Hy. simpl in Hy. lra. }
  split; [destruct beats; [congruence | exact Hlast]|].
  exact Hsort.
Qed.

End RoundedGrid.

Lemma refine_beat_grid_rounded_witness :
  exists (n : nat) (refined : list Q),
    (forall fuel, (n < fuel)%nat ->
       Rounded.refine_beat_grid Binary64.binary64 fuel [0%Q] 135%Q 4%Q
       = Ok refined) /\
    (0 < List.length refined)%nat /\
    hd 0%Q refined = hd 0%Q [0%Q] /\
    (forall i, (S i < List.length refined)%nat ->
       nth (S i) refined 0%Q
       = Binary64.binary64
           (nth i refined 0 + Binary64.binary64 (60 / 135))%Q) /\
    (forall i, (S i < List.length refined)%nat ->
       (Qabs (nth (S i) refined 0 - nth i refined 0 - 60 / 135)
        <= Binary64.unit_roundoff
           * (Qabs (hd 0 [0]) + Qabs 4 + 3 * (60 / 135)))%Q) /\
    Forall (fun x => (x <= 4)%Q) refined /\
    (4 < Binary64.binary64
           (last refined 0 + Binary64.binary64 (60 / 135)))%Q /\
    StronglySorted Qlt refined.
Proof.
  apply (refine_beat_grid_rounded Binary64.binary64 Binary64.unit_roundoff
           binary64_error).
  - split; vm_compute; [discriminate | reflexivity].
  - discriminate.
  - reflexivity.
  - vm_compute. discriminate.
  - vm_compute. reflexivity.
Defined.

(** C4 fails in double precision: first beat 0.0, 135 beats per minute,
    four seconds.  The arithmetic progression 0, 4/9, ..., 36/9 has ten
    terms that do not exceed 4; the loop returns nine beats, because the
    ninth sum is rounded to a double above 4, and the beats are not evenly
    spaced. *)
Lemma refine_beat_grid_drift :
  exists refined,
    Rounded.refine_beat_grid Binary64.binary64 20 [0%Q] 135%Q 4%Q
    = Ok refined /\
    List.length refined = 9%nat /\
    (0 + Timing.of_nat 9 * (60 / 135) <= 4)%Q /\
    ~ (nth 5 refined 0 - nth 4 refined 0
       == nth 1 refined 0 - nth 0 refined 0)%Q.
Proof.
  eexists. split; [vm_compute; reflexivity|].
  split; [reflexivity|]. split; vm_compute; discriminate.
Qed.

Section GridOnDoubles.
Import Floats.

(** The doubles of the kernel give the same nine beats. *)
Example refine_beat_grid_drift_on_doubles :
  match Double.refine_beat_grid 20 [0%float] 135%float 4%float,
        Rounded.refine_beat_grid Binary64.binary64 20 [0%Q] 135%Q 4%Q with
  | Ok doubles, Ok rounded => map Double.to_Q doubles = map Some rounded
  | _, _ => False
  end.
Proof. vm_compute. reflexivity. Qed.

End GridOnDoubles.

(** With the identity as rounding the loop is the one of exact
    arithmetic. *)
Lemma refine_beat_grid_exact (fuel : nat) (beat_times : list Q)
    (tempo duration : Q) :
  Rounded.refine_beat_grid (fun x => x) fuel beat_times tempo duration
  = Timing.refine_beat_grid fuel beat_times tempo duration.
Proof.
  unfold Rounded.refine_beat_grid, Timing.refine_beat_grid.
  destruct beat_times as [|start rest]; [reflexivity|].
  destruct (Qeq_bool tempo 0); [reflexivity|].
  generalize (@nil Q) as acc. generalize start as cur.
  induction fuel as [|fuel IH]; intros cur acc; [reflexivity|].
  simpl. destruct (Qle_bool cur duration); [apply IH | reflexivity].
Qed.

(** ** Downbeats and the beat grid (timing.py, [create_beat_grid]) *)

Section BeatGridDownbeats.
Import Timing.
Local Open Scope Q_scope.

(** The loop of [detect_downbeats] appends beats it reads, nothing else. *)
Lemma downbeat_loop_subset (beat_interval measure_duration : Q)
    (beats : list Q) :
  forall (current_measure_start : Q) (downbeats : list Q) (d : Q),
  In d (downbeat_loop beat_interval measure_duration beats
          current_measure_start downbeats) ->
  In d downbeats \/ In d beats.
Proof.
  induction beats as [|b beats IH]; intros cms acc d; simpl.
  - auto.
  - match goal with |- context [if ?c then _ else _] => destruct c end;
      intros H; apply IH in H.
    + destruct H as [H | H]; [|auto].
      apply in_app_or in H. destruct H as [H | [H | []]]; auto.
    + destruct H; auto.
Qed.

Lemma detect_downbeats_subset (beats : list Q) (tempo : Q) (sr : Z)
    (downbeats : list Q) :
  detect_downbeats beats tempo sr = Ok downbeats ->
  forall d, In d downbeats -> In d beats.
Proof.
  unfold detect_downbeats. destruct beats as [|b beats].
  - intros H d Hd. inversion H; subst. destruct Hd.
  - destruct (Qeq_bool tempo 0); [discriminate|].
    intros [= <-] d Hd.
    apply (downbeat_loop_subset _ _ (b :: beats) b [] d) in Hd.
    destruct Hd as [[] | Hd]. exact Hd.
Qed.

End BeatGridDownbeats.

Section BeatGridExamples.
Import Timing.
Local Open Scope Q_scope.

(** A tracker that reports 120 beats per minute and five beats, the last
    one 20 ms late. *)
Let late_beat_track (audio : list Q) (sr : Z) : Q * list Q :=
  (120, [1 # 2; 1; 3 # 2; 2; 63 # 25]).
Let some_rhythm (audio : list Q) (sr : Z) : Q * Q := (1, 0).
Let some_signature (beats : list Q) (bpm : Q) : TimeSignature :=
  mkTimeSignature 4 4 (1 # 2).

(** C2: the code breaks the invariant.  On that tracker, for four seconds
    of audio, the late beat at 2.52 s closes a measure and is a downbeat of
    [analyze_tempo_and_beats]; [create_beat_grid] keeps these downbeats but
    replaces the beat times by the regenerated grid 0.5, 1, 1.5, ..., 4,
    which holds no 2.52. *)
Lemma create_beat_grid_downbeat_off_grid :
  exists grid d,
    create_beat_grid late_beat_track some_rhythm some_signature
      20 (repeat 0 16) 4 = Ok grid /\
    map Qred (beat_times grid) = [1 # 2; 1; 3 # 2; 2; 5 # 2; 3; 7 # 2; 4] /\
    downbeat_times grid = [1 # 2; 63 # 25] /\
    In d (downbeat_times grid) /\
    forall b, In b (beat_times grid) -> ~ b == d.
Proof.
  eexists. exists (63 # 25). split; [vm_compute; reflexivity|].
  split; [vm_compute; reflexivity|].
  split; [reflexivity|].
  split; [simpl; auto|].
  intros b Hb. simpl in Hb.
  repeat (destruct Hb as [Hb | Hb]; [subst b; vm_compute; discriminate|]).
  destruct Hb.
Qed.

End BeatGridExamples.

(** ** Template matching (chords.py, [detect_chord_from_chroma]) *)

Section ChordTemplates.
Import Chords.
Local Open Scope R_scope.

Lemma np_sum_scale (k : R) (v : list R) : np_sum (scale k v) = k * np_sum v.
Proof.
  induction v as [|x v IH].
  - simpl. ring.
  - change (np_sum (scale k (x :: v))) with (k * x + np_sum (scale k v)).
    change (np_sum (x :: v)) with (x + np_sum v).
    rewrite IH. ring.
Qed.

Lemma np_sum_nonneg (v : list R) :
  Forall (fun x => 0 <= x) v -> 0 <= np_sum v.
Proof.
  induction 1 as [|x v Hx _ IH]; simpl; lra.
Qed.

Lemma dot_scale_l (c : R) (u t : list R) : dot (scale c u) t = c * dot u t.
Proof.
  revert t; induction u as [|x u IH]; intros t.
  - unfold dot; simpl. ring.
  - destruct t as [|y t].
    + unfold dot; simpl. ring.
    + change (dot (scale c (x :: u)) (y :: t))
        with (c * x * y + dot (scale c u) t).
      change (dot (x :: u) (y :: t)) with (x * y + dot u t).
      rewrite IH. ring.
Qed.

Lemma dot_scale_both (c : R) (u : list R) :
  dot (scale c u) (scale c u) = c * c * dot u u.
Proof.
  induction u as [|x u IH].
  - unfold dot; simpl. ring.
  - change (dot (scale c (x :: u)) (scale c (x :: u)))
      with (c * x * (c * x) + dot (scale c u) (scale c u)).
    change (dot (x :: u) (x :: u)) with (x * x + dot u u).
    rewrite IH. ring.
Qed.

(** The cosine distance does not see a positive factor. *)
Lemma cosine_scale_l (c : R) (u t : list R) :
  0 < c -> cosine (scale c u) t = cosine u t.
Proof.
  intros Hc. unfold cosine.
  rewrite dot_scale_l, dot_scale_both.
  replace (c * c * dot u u * dot t t) with (c * c * (dot u u * dot t t))
    by ring.
  rewrite sqrt_mult_alt by nra.
  rewrite sqrt_square by lra.
  unfold Rdiv. rewrite Rinv_mult.
  replace (c * dot u t * (/ c * / sqrt (dot u u * dot t t)))
    with (c * / c * (dot u t * / sqrt (dot u u * dot t t))) by ring.
  rewrite Rinv_r by lra.
  now replace (1 * (dot u t * / sqrt (dot u u * dot t t)))
    with (dot u t * / sqrt (dot u u * dot t t)) by ring.
Qed.

Lemma fold_left_ext {A B : Type} (f g : A -> B -> A) (l : list B) (a : A) :
  (forall x y, f x y = g x y) -> fold_left f l a = fold_left g l a.
Proof.
  intros H. revert a; induction l as [|y l IH]; intros a; simpl.
  - reflexivity.
  - now rewrite H, IH.
Qed.

(** The normalised vector of [k * v] is a positive multiple of that of
    [v], although the added [1e-8] keeps the two from being equal. *)
Lemma chroma_norm_scale (k : R) (v : list R) :
  0 <= np_sum v -> 0 < k ->
  map (fun x => x / (np_sum (scale k v) + 1 / 100000000)) (scale k v)
  = scale (k * (np_sum v + 1 / 100000000) / (k * np_sum v + 1 / 100000000))
          (map (fun x => x / (np_sum v + 1 / 100000000)) v).
Proof.
  intros Hs Hk. rewrite np_sum_scale. unfold scale. rewrite !map_map.
  apply map_ext. intros x.
  assert (0 <= k * np_sum v) by nra.
  field. split; lra.
Qed.

(** In exact arithmetic: for a chroma vector [v] of twelve non-negative
    entries, one of them positive, and a factor [k > 0], the template
    matching of [detect_chord_from_chroma], evaluated over the reals,
    returns for [k * v] the label and the confidence it returns for [v].
    The doubles of the program agree with this up to rounding only, see
    [detect_chord_scale_rounded], and not at all when [k * v] underflows,
    see [detect_chord_scale_underflow]. *)
Theorem detect_chord_scale_invariant (v : list R) (k : R) :
  List.length v = 12%nat ->
  Forall (fun x => 0 <= x) v ->
  Exists (fun x => 0 < x) v ->
  0 < k ->
  detect_chord_from_chroma (scale k v) = detect_chord_from_chroma v.
Proof.
  intros _ Hv _ Hk. unfold detect_chord_from_chroma.
  pose proof (np_sum_nonneg v Hv) as Hs.
  rewrite chroma_norm_scale by assumption.
  set (c := k * (np_sum v + 1 / 100000000) / (k * np_sum v + 1 / 100000000)).
  assert (Hc : 0 < c).
  { unfold c. apply Rdiv_lt_0_compat; nra. }
  apply fold_left_ext. intros best [root qualities]. unfold root_step.
  apply fold_left_ext. intros best' [quality template]. unfold quality_step.
  now rewrite cosine_scale_l.
Qed.

Lemma detect_chord_scale_invariant_witness :
  detect_chord_from_chroma (scale 2 [1; 0; 0; 0; 1; 0; 0; 1; 0; 0; 0; 0])
  = detect_chord_from_chroma [1; 0; 0; 0; 1; 0; 0; 1; 0; 0; 0; 0].
Proof.
  apply detect_chord_scale_invariant.
  - reflexivity.
  - repeat constructor; lra.
  - constructor. lra.
  - lra.
Defined.

(** A vector is at cosine distance 0 from itself. *)
Example cosine_self : cosine [3; 4] [3; 4] = 0.
Proof.
  unfold cosine, dot; simpl.
  replace ((3 * 3 + (4 * 4 + 0)) * (3 * 3 + (4 * 4 + 0))) with (25 * 25) by ring.
  rewrite sqrt_square by lra.
  replace (1 - (3 * 3 + (4 * 4 + 0)) / 25) with 0 by field.
  rewrite Rmin_left by lra. apply Rmax_left; lra.
Qed.

(** Orthogonal vectors are at cosine distance 1. *)
Example cosine_orthogonal : cosine [1; 0] [0; 1] = 1.
Proof.
  unfold cosine, dot; simpl.
  replace ((1 * 1 + (0 * 0 + 0)) * (0 * 0 + (1 * 1 + 0))) with (1 * 1) by ring.
  rewrite sqrt_square by lra.
  replace (1 - (1 * 0 + (0 * 1 + 0)) / 1) with 1 by field.
  rewrite Rmin_left by lra. apply Rmax_right; lra.
Qed.

End ChordTemplates.

(** ** Template matching with rounding *)

Section ChordTemplatesRounded.
Local Open Scope R_scope.

Variable rnd : R -> R.
Variable u : R.
Hypothesis rnd_error : forall x, Rabs (rnd x - x) <= u * Rabs x.
Hypothesis u_range : 0 <= u <= 1 / 1000.



















(** *** Sums and products *)






(** *** The inequality of Cauchy and Schwarz, for lists without negative
    entries *)





(** *** One template *)







(** The normalised template of the exact model. *)
Let template_norm (template : list Z) : list R :=
  map (fun x => x / np_sum (map IZR template)) (map IZR template).



(** *** The normalised chroma vector *)










(** *** The two loops *)




End ChordTemplatesRounded.


(** ** Template matching in double precision *)

Section ChordTemplatesOnDoubles.
Import Floats Double.
Local Open Scope float_scope.


(** Without underflow the confidences differ in the last digits: here for
    [k = 3], with the sums taken from left to right. *)
Example detect_chord_scale_last_digits :
  (snd (detect_chord_from_chroma [1; 0; 0; 0; 0.5; 0; 0; 0.25; 0; 0; 0; 0])
   <? snd (detect_chord_from_chroma
             (scale 3 [1; 0; 0; 0; 0.5; 0; 0; 0.25; 0; 0; 0; 0]))) = true /\
  (snd (detect_chord_from_chroma
          (scale 3 [1; 0; 0; 0; 0.5; 0; 0; 0.25; 0; 0; 0; 0]))
   - snd (detect_chord_from_chroma [1; 0; 0; 0; 0.5; 0; 0; 0.25; 0; 0; 0; 0])
   <? 0x1p-50) = true.
Proof. vm_compute. repeat split. Qed.

End ChordTemplatesOnDoubles.

(** ** Classification of a drum window (drums.py, [classify_drum_segment]) *)

Section ClassifyDrumSegment.
Import Drums.
Local Open Scope R_scope.

Lemma np_sum_zero (l : list R) : Forall (fun y => y = 0) l -> np_sum l = 0.
Proof.
  induction 1 as [|y l Hy _ IH].
  - reflexivity.
  - change (np_sum (y :: l)) with (y + np_sum l). rewrite Hy, IH. ring.
Qed.

Lemma mask_select_Forall {A : Type} (P : A -> Prop) (mask : list bool)
    (xs : list A) :
  Forall P xs -> Forall P (mask_select mask xs).
Proof.
  intros H. rewrite Forall_forall in *. intros x Hx.
  unfold mask_select in Hx. apply in_map_iff in Hx.
  destruct Hx as ([b y] & Heq & Hin). simpl in Heq; subst y.
  apply filter_In in Hin. destruct Hin as [Hin _].
  apply in_combine_r in Hin. now apply H.
Qed.

(** The spectrum of silence is zero at every frequency. *)
Lemma fft_re_zero (x : list R) (k : nat) :
  Forall (fun y => y = 0) x -> fft_re x k = 0.
Proof.
  intros H. unfold fft_re. apply np_sum_zero.
  rewrite Forall_forall in *. intros y Hy.
  apply in_map_iff in Hy. destruct Hy as ([n z] & Heq & Hin).
  apply in_combine_r in Hin. apply H in Hin. simpl in Heq, Hin.
  subst. ring.
Qed.

Lemma fft_im_zero (x : list R) (k : nat) :
  Forall (fun y => y = 0) x -> fft_im x k = 0.
Proof.
  intros H. unfold fft_im. apply np_sum_zero.
  rewrite Forall_forall in *. intros y Hy.
  apply in_map_iff in Hy. destruct Hy as ([n z] & Heq & Hin).
  apply in_combine_r in Hin. apply H in Hin. simpl in Heq, Hin.
  subst. ring.
Qed.

Lemma fft_abs_zero (x : list R) :
  Forall (fun y => y = 0) x -> Forall (fun y => y = 0) (fft_abs x).
Proof.
  intros H. unfold fft_abs. apply Forall_forall. intros y Hy.
  apply in_map_iff in Hy. destruct Hy as (k & Heq & _). subst y.
  rewrite fft_re_zero, fft_im_zero by assumption.
  replace (0 * 0 + 0 * 0) with 0 by ring. apply sqrt_0.
Qed.

Lemma band_energy_zero (band : R * R) (freqs fft : list R) :
  Forall (fun y => y = 0) fft -> band_energy band freqs fft = 0.
Proof.
  intros H. unfold band_energy. apply np_sum_zero.
  now apply mask_select_Forall.
Qed.

Lemma true_divide_nonzero (x y : R) : y <> 0 -> true_divide x y = Ok (x / y).
Proof.
  intros H. unfold true_divide. destruct (Req_dec_T y 0); [contradiction|].
  reflexivity.
Qed.

(** An empty window is [unknown] at any sample rate, zero included. *)
Lemma classify_drum_segment_empty (sr : Z) :
  classify_drum_segment [] sr = Ok "unknown"%string.
Proof. reflexivity. Qed.

(** C8: at a non-zero sample rate [classify_drum_segment] returns a label
    and never divides by zero (the three ratios are taken only after the
    summed band energy has been found non-zero), and for a window of zeros,
    the empty one included, the label is [unknown]. *)
Theorem classify_drum_segment_zero_safe (segment : list R) (sr : Z) :
  sr <> 0%Z ->
  (exists drum_type, classify_drum_segment segment sr = Ok drum_type) /\
  (Forall (fun x => x = 0) segment ->
   classify_drum_segment segment sr = Ok "unknown"%string).
Proof.
  intros Hsr.
  assert (Hd : IZR sr <> 0) by (intros H; apply eq_IZR_R0 in H; contradiction).
  unfold classify_drum_segment.
  destruct (Nat.eqb (List.length segment) 0); [split; eauto|].
  rewrite (true_divide_nonzero 1 (IZR sr) Hd). cbn [bind].
  set (freqs0 := fftfreq (List.length segment) (1 / IZR sr)).
  set (pos_mask := map (fun f => Rltb 0 f) freqs0).
  set (freqs := mask_select pos_mask freqs0).
  set (fft := mask_select pos_mask (fft_abs segment)).
  set (kick_energy := band_energy Config.DRUM_FREQ_BANDS_kick freqs fft).
  set (snare_energy := band_energy Config.DRUM_FREQ_BANDS_snare freqs fft).
  set (hat_energy := band_energy Config.DRUM_FREQ_BANDS_hat freqs fft).
  split.
  - destruct (Req_dec_T (kick_energy + snare_energy + hat_energy) 0)
      as [Hz | Hnz]; [eauto|].
    rewrite !(true_divide_nonzero _ _ Hnz). cbn [bind].
    destruct (Rltb _ _); [eauto|].
    destruct (Rltb _ _); [eauto|].
    destruct (Rltb _ _); eauto.
  - intros Hzero.
    assert (Hfft : Forall (fun y => y = 0) fft).
    { unfold fft. apply mask_select_Forall. now apply fft_abs_zero. }
    assert (Htotal : kick_energy + snare_energy + hat_energy = 0).
    { unfold kick_energy, snare_energy, hat_energy.
      rewrite !band_energy_zero by assumption. ring. }
    destruct (Req_dec_T (kick_energy + snare_energy + hat_energy) 0)
      as [Hz | Hnz]; [reflexivity | contradiction].
Qed.

Lemma classify_drum_segment_zero_safe_witness :
  classify_drum_segment [0; 0; 0; 0] 44100 = Ok "unknown"%string.
Proof.
  apply (proj2 (classify_drum_segment_zero_safe [0; 0; 0; 0] 44100
                  ltac:(discriminate))).
  repeat constructor.
Defined.

Lemma Rltb_true (a b : R) : a < b -> Rltb a b = true.
Proof.
  intros; unfold Rltb; destruct (Rlt_dec a b); [reflexivity | contradiction].
Qed.

Lemma Rltb_false (a b : R) : ~ a < b -> Rltb a b = false.
Proof.
  intros; unfold Rltb; destruct (Rlt_dec a b); [contradiction | reflexivity].
Qed.

Lemma Rleb_true (a b : R) : a <= b -> Rleb a b = true.
Proof.
  intros; unfold Rleb; destruct (Rle_dec a b); [reflexivity | contradiction].
Qed.

Lemma Rleb_false (a b : R) : ~ a <= b -> Rleb a b = false.
Proof.
  intros; unfold Rleb; destruct (Rle_dec a b); [contradiction | reflexivity].
Qed.

(** Four samples at 400 Hz: the frequency axis. *)
Lemma fftfreq_4_400 : fftfreq 4 (1 / 400) = [0; 100; -200; -100].
Proof.
  unfold fftfreq.
  cbn [seq map Nat.ltb Nat.leb Nat.sub Nat.div Nat.divmod fst Nat.add].
  cbn [INR]. repeat f_equal; field.
Qed.

(** The spectrum of a click [1, 0, 0, 0] at 100 Hz. *)
Lemma fft_re_click : fft_re [1; 0; 0; 0] 1 = 1.
Proof.
  unfold fft_re, np_sum. cbn [List.length seq combine map fold_right fst snd].
  replace (2 * PI * INR 1 * INR 0 / INR 4) with 0 by (cbn [INR]; field).
  rewrite cos_0. ring.
Qed.

Lemma fft_im_click : fft_im [1; 0; 0; 0] 1 = 0.
Proof.
  unfold fft_im, np_sum. cbn [List.length seq combine map fold_right fst snd].
  replace (2 * PI * INR 1 * INR 0 / INR 4) with 0 by (cbn [INR]; field).
  rewrite sin_0. ring.
Qed.

(** A click of four samples at 400 Hz has one positive frequency, 100 Hz, in
    the kick band, with all of the band energy: it is a kick. *)
Example classify_drum_segment_click :
  classify_drum_segment [1; 0; 0; 0] 400 = Ok "kick"%string.
Proof.
  unfold classify_drum_segment. cbn [List.length Nat.eqb].
  rewrite true_divide_nonzero by lra. cbn [bind].
  rewrite fftfreq_4_400. cbn [map].
  rewrite (Rltb_false 0 0), (Rltb_true 0 100), (Rltb_false 0 (-200)),
    (Rltb_false 0 (-100)) by lra.
  unfold fft_abs. cbn [List.length seq map mask_select combine filter fst snd].
  rewrite fft_re_click, fft_im_click.
  replace (1 * 1 + 0 * 0) with (1 * 1) by ring. rewrite sqrt_square by lra.
  unfold band_energy, Config.DRUM_FREQ_BANDS_kick,
    Config.DRUM_FREQ_BANDS_snare, Config.DRUM_FREQ_BANDS_hat.
  cbn [map fst snd].
  rewrite (Rleb_true 20 100), (Rleb_true 100 150), (Rleb_false 150 100),
    (Rleb_false 800 100) by lra.
  cbn [andb mask_select combine filter map fst snd np_sum fold_right].
  destruct (Req_dec_T (1 + 0 + 0 + 0) 0) as [H | H]; [lra|].
  rewrite !true_divide_nonzero by lra. cbn [bind].
  rewrite Rltb_true; [reflexivity|].
  unfold Config.DRUM_THRESH_kick_lowband. lra.
Qed.

(** At sample rate 0 the frequency axis cannot be built: [1/sr] fails. *)
Example classify_drum_segment_sr_zero :
  classify_drum_segment [0; 0; 0; 0] 0 = ZeroDivisionError.
Proof.
  unfold classify_drum_segment, true_divide. simpl Nat.eqb. cbv iota.
  destruct (Req_dec_T (IZR 0) 0) as [_ | H]; [reflexivity|].
  exfalso; apply H; reflexivity.
Qed.

End ClassifyDrumSegment.

(** * Further properties *)

(** ** Downbeats of a beat list (timing.py, [detect_downbeats]) *)

Section Downbeats.
Import Timing TimingAnalysis.
Local Open Scope Q_scope.

Lemma beat_interval_nonzero (tempo : Q) : ~ tempo == 0 -> ~ 60 / tempo == 0.
Proof.
  intros Ht H.
  assert (E : 60 / tempo * tempo == 60) by (field; exact Ht).
  rewrite H in E. vm_compute in E. discriminate.
Qed.

Lemma beat_interval_pos (tempo : Q) : 0 < tempo -> 0 < 60 / tempo.
Proof.
  intros Ht. unfold Qdiv. apply Qmult_lt_0_compat; [reflexivity|].
  now apply Qinv_lt_0_compat.
Qed.

Lemma Qfloor_zero (z : Q) : 0 <= z -> z < 1 -> Qfloor z = 0%Z.
Proof.
  intros H0 H1.
  assert (Hlo : (0 <= Qfloor z)%Z).
  { change 0%Z with (Qfloor 0). now apply Qfloor_resp_le. }
  assert (Hhi : (Qfloor z < 1)%Z).
  { rewrite Zlt_Qlt. apply Qle_lt_trans with z; [apply Qfloor_le | exact H1]. }
  lia.
Qed.

(** [x % y] for [0 <= x < y], and for [x] equal to [y]. *)
Lemma py_mod_small (x y : Q) : 0 <= x -> x < y -> py_mod x y == x.
Proof.
  intros H0 H1. unfold py_mod.
  assert (Hy : 0 < y) by lra.
  rewrite (Qfloor_zero (x / y)).
  - change (inject_Z 0) with 0. ring.
  - apply Qle_shift_div_l; [assumption | lra].
  - apply Qlt_shift_div_r; [assumption | lra].
Qed.

Lemma py_mod_eq (x y : Q) : ~ y == 0 -> x == y -> py_mod x y == 0.
Proof.
  intros Hy Hx. unfold py_mod.
  assert (E : x / y == 1) by (rewrite Hx; field; exact Hy).
  rewrite E. change (Qfloor 1) with 1%Z. change (inject_Z 1) with 1.
  rewrite Hx. ring.
Qed.

Lemma py_mod_zero (x y : Q) : x == 0 -> py_mod x y == 0.
Proof.
  intros Hx. unfold py_mod.
  assert (E : x / y == 0) by (rewrite Hx; unfold Qdiv; ring).
  rewrite E. change (Qfloor 0) with 0%Z. change (inject_Z 0) with 0.
  rewrite Hx. ring.
Qed.

(** The loop only appends to the downbeats it was given. *)
Lemma downbeat_loop_extends (beat_interval measure_duration : Q)
    (beats : list Q) :
  forall (current_measure_start : Q) (downbeats : list Q),
  exists more,
    downbeat_loop beat_interval measure_duration beats
      current_measure_start downbeats = downbeats ++ more.
Proof.
  induction beats as [|b beats IH]; intros cms acc; simpl.
  - exists []. now rewrite app_nil_r.
  - match goal with |- context [if ?c then _ else _] => destruct c end.
    + destruct (IH b (acc ++ [b])) as [more Hm].
      exists (b :: more). rewrite Hm, <- app_assoc. reflexivity.
    + apply IH.
Qed.

(** The first detected beat is always the first downbeat, at any tempo
    other than zero, negative ones included. *)
Theorem detect_downbeats_first_beat (beat_times : list Q) (tempo : Q)
    (sr : Z) :
  beat_times <> [] ->
  ~ tempo == 0 ->
  exists others,
    detect_downbeats beat_times tempo sr = Ok (hd 0 beat_times :: others).
Proof.
  intros Hne Ht. destruct beat_times as [|b beats]; [congruence|].
  unfold detect_downbeats.
  assert (E : Qeq_bool tempo 0 = false).
  { apply not_true_is_false. now rewrite Qeq_bool_iff. }
  rewrite E. cbv zeta. simpl hd.
  pose proof (beat_interval_nonzero tempo Ht) as Hbi.
  set (bi := 60 / tempo) in *.
  cbn [downbeat_loop].
  set (tsm := py_mod (b - b) (bi * 4)).
  assert (Htsm : tsm == 0) by (apply py_mod_zero; ring).
  destruct (Qlt_le_dec tsm (bi * (1 # 10))) as [H1 | H1];
    [|destruct (Qlt_le_dec (bi * 4 - tsm) (bi * (1 # 10))) as [H2 | H2]];
    cbn [orb].
  - destruct (downbeat_loop_extends bi (bi * 4) beats b ([] ++ [b]))
      as [more Hm].
    exists more. rewrite Hm. reflexivity.
  - destruct (downbeat_loop_extends bi (bi * 4) beats b ([] ++ [b]))
      as [more Hm].
    exists more. rewrite Hm. reflexivity.
  - exfalso. apply Hbi. rewrite Htsm in H1, H2. lra.
Qed.

Lemma detect_downbeats_first_beat_witness :
  exists others,
    detect_downbeats [1 # 2; 1; 3 # 2] (-120) 44100
    = Ok (hd 0 [1 # 2; 1; 3 # 2] :: others).
Proof.
  apply detect_downbeats_first_beat.
  - discriminate.
  - vm_compute. discriminate.
Defined.

(** On a periodic list of beats the loop takes the beat it stands on when
    [phase] is 0 and every fourth beat after it. *)
Lemma downbeat_loop_every_fourth (beat_interval : Q) (n : nat) :
  0 < beat_interval ->
  forall (phase : nat) (current_time current_measure_start : Q)
         (downbeats : list Q),
  match phase with
  | 0%nat => current_time - current_measure_start == 0 \/
             current_time - current_measure_start == beat_interval * 4
  | 1%nat => current_time - current_measure_start == beat_interval * 3
  | 2%nat => current_time - current_measure_start == beat_interval * 2
  | 3%nat => current_time - current_measure_start == beat_interval
  | _ => False
  end ->
  downbeat_loop beat_interval (beat_interval * 4)
    (progression current_time beat_interval n) current_measure_start downbeats
  = downbeats ++ every_fourth phase (progression current_time beat_interval n).
Proof.
  intros Hbi. induction n as [|n IH]; intros phase c cms acc Hph.
  - simpl. now rewrite app_nil_r.
  - cbn [progression downbeat_loop].
    set (tsm := py_mod (c - cms) (beat_interval * 4)).
    assert (Hnz : ~ beat_interval * 4 == 0) by lra.
    destruct phase as [|[|[|[|phase]]]]; try contradiction.
    + assert (Htsm : tsm == 0).
      { destruct Hph as [H | H];
          [now apply py_mod_zero | now apply py_mod_eq]. }
      destruct (Qlt_le_dec tsm (beat_interval * (1 # 10))) as [H1 | H1];
        [|exfalso; lra].
      cbn [orb every_fourth].
      rewrite (IH 3%nat) by ring. now rewrite <- app_assoc.
    + assert (Htsm : tsm == beat_interval * 3).
      { unfold tsm. rewrite py_mod_small; lra. }
      destruct (Qlt_le_dec tsm (beat_interval * (1 # 10))) as [H1 | H1];
        [exfalso; lra|].
      destruct (Qlt_le_dec (beat_interval * 4 - tsm) (beat_interval * (1 # 10)))
        as [H2 | H2]; [exfalso; lra|].
      cbn [orb every_fourth].
      apply (IH 0%nat). right. lra.
    + assert (Htsm : tsm == beat_interval * 2).
      { unfold tsm. rewrite py_mod_small; lra. }
      destruct (Qlt_le_dec tsm (beat_interval * (1 # 10))) as [H1 | H1];
        [exfalso; lra|].
      destruct (Qlt_le_dec (beat_interval * 4 - tsm) (beat_interval * (1 # 10)))
        as [H2 | H2]; [exfalso; lra|].
      cbn [orb every_fourth].
      apply (IH 1%nat). lra.
    + assert (Htsm : tsm == beat_interval).
      { unfold tsm. rewrite py_mod_small; lra. }
      destruct (Qlt_le_dec tsm (beat_interval * (1 # 10))) as [H1 | H1];
        [exfalso; lra|].
      destruct (Qlt_le_dec (beat_interval * 4 - tsm) (beat_interval * (1 # 10)))
        as [H2 | H2]; [exfalso; lra|].
      cbn [orb every_fourth].
      apply (IH 2%nat). lra.
Qed.

(** On a periodic grid of step [60 / tempo], the kind that
    [refine_beat_grid] makes, the downbeats are the first beat and every
    fourth beat after it. *)
Theorem detect_downbeats_periodic_grid (start tempo : Q) (n : nat) (sr : Z) :
  0 < tempo ->
  detect_downbeats (progression start (60 / tempo) n) tempo sr
  = Ok (every_fourth 0 (progression start (60 / tempo) n)).
Proof.
  intros Ht. unfold detect_downbeats.
  destruct n as [|n]; [reflexivity|].
  cbn [progression].
  assert (E : Qeq_bool tempo 0 = false).
  { apply not_true_is_false. rewrite Qeq_bool_iff. lra. }
  rewrite E. cbv zeta.
  change (start :: progression (start + 60 / tempo) (60 / tempo) n)
    with (progression start (60 / tempo) (S n)).
  rewrite (downbeat_loop_every_fourth (60 / tempo) (S n)
             (beat_interval_pos tempo Ht) 0%nat start start []).
  - reflexivity.
  - left. ring.
Qed.

Lemma detect_downbeats_periodic_grid_witness :
  detect_downbeats (progression (1 # 2) (60 / 120) 10) 120 44100
  = Ok (every_fourth 0 (progression (1 # 2) (60 / 120) 10)).
Proof.
  apply detect_downbeats_periodic_grid. reflexivity.
Defined.

(** Ten beats from 0.5 s at 120 beats per minute: downbeats at 0.5, 2.5 and
    4.5 s. *)
Example detect_downbeats_ten_beats :
  match detect_downbeats (progression (1 # 2) (60 / 120) 10) 120 44100 with
  | Ok downbeats => map Qred downbeats = [1 # 2; 5 # 2; 9 # 2]
  | _ => False
  end.
Proof. vm_compute. reflexivity. Qed.

End Downbeats.

(** ** The grid loop and the beat grid (timing.py, [refine_beat_grid],
    [create_beat_grid]) *)

Section BeatGridShape.
Import Timing.
Local Open Scope Q_scope.

(** With a step that is not positive the loop never leaves a time at or
    before [duration]. *)
Lemma refine_loop_never_returns (fuel : nat) :
  forall (beat_interval duration current_time : Q) (refined_beats : list Q),
  beat_interval <= 0 ->
  current_time <= duration ->
  refine_loop fuel beat_interval duration current_time refined_beats
  = OutOfFuel.
Proof.
  induction fuel as [|fuel IH]; intros bi dur cur acc Hbi Hcur; simpl.
  - reflexivity.
  - assert (E : Qle_bool cur dur = true) by now apply Qle_bool_iff.
    rewrite E. apply IH; lra.
Qed.

(** A negative tempo with a first beat inside the clip makes
    [refine_beat_grid] loop for ever: no amount of fuel gives a result. *)
Theorem refine_beat_grid_negative_tempo_diverges (beat_times : list Q)
    (tempo duration : Q) :
  beat_times <> [] ->
  tempo < 0 ->
  hd 0 beat_times <= duration ->
  forall fuel, refine_beat_grid fuel beat_times tempo duration = OutOfFuel.
Proof.
  intros Hne Ht Hs fuel. destruct beat_times as [|start rest]; [congruence|].
  simpl in Hs. unfold refine_beat_grid.
  assert (E : Qeq_bool tempo 0 = false).
  { apply not_true_is_false. rewrite Qeq_bool_iff. lra. }
  rewrite E. apply refine_loop_never_returns; [|assumption].
  assert (H : 0 < 60 / - tempo).
  { unfold Qdiv. apply Qmult_lt_0_compat; [reflexivity|].
    apply Qinv_lt_0_compat. lra. }
  assert (E2 : 60 / - tempo == - (60 / tempo)) by (field; lra).
  lra.
Qed.

Lemma refine_beat_grid_negative_tempo_diverges_witness :
  refine_beat_grid 1000 [1 # 2; 1] (-120) 4 = OutOfFuel.
Proof.
  apply (refine_beat_grid_negative_tempo_diverges [1 # 2; 1] (-120) 4).
  - discriminate.
  - reflexivity.
  - vm_compute; discriminate.
Defined.



Variable beat_track : list Q -> Z -> Q * list Q.
Variable analyze_rhythm_complexity : list Q -> Z -> Q * Q.
Variable detect_time_signature : list Q -> Q -> TimeSignature.


(** When the tracker finds no beat, as on silence, [create_beat_grid]
    returns an empty grid at any tempo, zero included, and on any fuel:
    the divisions by the tempo are never reached. *)
Theorem create_beat_grid_no_beats (fuel : nat) (audio : list Q) (sr : Z) :
  snd (beat_track audio sr) = [] ->
  sr <> 0%Z ->
  exists grid,
    create_beat_grid beat_track analyze_rhythm_complexity
      detect_time_signature fuel audio sr = Ok grid /\
    tempo grid = fst (beat_track audio sr) /\
    beat_times grid = [] /\
    downbeat_times grid = [] /\
    total_beats grid = 0%nat.
Proof.
  intros Hb Hsr.
  unfold create_beat_grid, analyze_tempo_and_beats.
  destruct (beat_track audio sr) as [bpm beats]; simpl in Hb; subst beats.
  cbn [detect_downbeats bind].
  assert (E : Z.eqb sr 0 = false) by now apply Z.eqb_neq.
  rewrite E. cbn [bind ta_beat_times ta_bpm ta_duration refine_beat_grid].
  eexists. split; [reflexivity|]. simpl. auto.
Qed.

End BeatGridShape.

(** ** What is left of the downbeat invariant (timing.py,
    [create_beat_grid]) *)

Section BeatGridAnchor.
Import Timing.
Local Open Scope Q_scope.

(** When [detect_downbeats] returns on a non-empty beat list, its first
    downbeat is the first beat. *)
Lemma detect_downbeats_head (beat_times : list Q) (tempo : Q) (sr : Z)
    (downbeats : list Q) :
  detect_downbeats beat_times tempo sr = Ok downbeats ->
  beat_times <> [] ->
  exists others, downbeats = hd 0 beat_times :: others.
Proof.
  intros Hrun Hne. destruct beat_times as [|b beats]; [congruence|].
  unfold detect_downbeats in Hrun.
  destruct (Qeq_bool tempo 0) eqn:E; [discriminate|].
  apply Qeq_bool_neq in E.
  pose proof (beat_interval_nonzero tempo E) as Hbi.
  cbv zeta in Hrun. simpl hd.
  set (bi := 60 / tempo) in *.
  cbn [downbeat_loop] in Hrun.
  set (tsm := py_mod (b - b) (bi * 4)) in *.
  assert (Htsm : tsm == 0) by (apply py_mod_zero; ring).
  destruct (downbeat_loop_extends bi (bi * 4) beats b ([] ++ [b]))
    as [more Hm].
  destruct (Qlt_le_dec tsm (bi * (1 # 10))) as [H1 | H1];
    [|destruct (Qlt_le_dec (bi * 4 - tsm) (bi * (1 # 10))) as [H2 | H2]];
    cbn [orb] in Hrun.
  - rewrite Hm in Hrun. injection Hrun as <-. now exists more.
  - rewrite Hm in Hrun. injection Hrun as <-. now exists more.
  - exfalso. apply Hbi. rewrite Htsm in H1, H2. lra.
Qed.

(** The loop of [refine_beat_grid] appends to its list, and what it appends
    starts with the time it is entered at. *)
Lemma refine_loop_head (fuel : nat) :
  forall (beat_interval duration current_time : Q)
         (refined_beats result : list Q),
  refine_loop fuel beat_interval duration current_time refined_beats
  = Ok result ->
  exists more,
    result = refined_beats ++ more /\
    (more = [] \/ hd 0 more = current_time).
Proof.
  induction fuel as [|fuel IH]; intros bi dur cur acc result Hrun;
    simpl in Hrun; [discriminate|].
  destruct (Qle_bool cur dur).
  - destruct (IH _ _ _ _ _ Hrun) as (more & -> & _).
    exists (cur :: more). rewrite <- app_assoc. split; [reflexivity | now right].
  - injection Hrun as <-. exists []. rewrite app_nil_r. auto.
Qed.

Variable beat_track : list Q -> Z -> Q * list Q.
Variable analyze_rhythm_complexity : list Q -> Z -> Q * Q.
Variable detect_time_signature : list Q -> Q -> TimeSignature.

(** Of a grid that [create_beat_grid] returns, every downbeat is one of
    the beat times that the beat tracker detected, and when the grid has a
    beat its first beat is its first downbeat: both lists start at the
    first detected beat. *)
Theorem create_beat_grid_first_downbeat (fuel : nat) (audio : list Q)
    (sr : Z) (grid : BeatGrid) :
  create_beat_grid beat_track analyze_rhythm_complexity detect_time_signature
    fuel audio sr = Ok grid ->
  (forall d, In d (downbeat_times grid) -> In d (snd (beat_track audio sr)))
  /\
  (beat_times grid <> [] ->
   exists others, downbeat_times grid = hd 0 (beat_times grid) :: others).
Proof.
  unfold create_beat_grid, analyze_tempo_and_beats.
  destruct (beat_track audio sr) as [bpm beats]; simpl snd.
  destruct (detect_downbeats beats bpm sr) as [downs| | |] eqn:Ed;
    simpl; try discriminate.
  destruct (Z.eqb sr 0); simpl; [discriminate|].
  destruct (refine_beat_grid fuel beats bpm _) as [refined| | |] eqn:Er;
    simpl; try discriminate.
  intros H. inversion H; subst; clear H. simpl.
  split; [now apply detect_downbeats_subset with bpm sr|].
  intros Hne. unfold refine_beat_grid in Er.
  destruct beats as [|start rest]; [injection Er as <-; congruence|].
  destruct (Qeq_bool bpm 0); [discriminate|].
  destruct (refine_loop_head _ _ _ _ _ _ Er) as (more & -> & Hmore).
  simpl in Hne |- *.
  destruct Hmore as [-> | ->]; [congruence|].
  apply (detect_downbeats_head (start :: rest) bpm sr downs Ed). discriminate.
Qed.

End BeatGridAnchor.

Lemma create_beat_grid_first_downbeat_witness :
  exists grid,
    Timing.create_beat_grid
      (fun _ _ => (120, [1 # 2; 1; 3 # 2; 2; 63 # 25])%Q)
      (fun _ _ => (1, 0)%Q) (fun _ _ => Timing.mkTimeSignature 4 4 (1 # 2))
      20 (repeat 0%Q 16) 4 = Ok grid /\
    (forall d, In d (Timing.downbeat_times grid) ->
               In d [1 # 2; 1; 3 # 2; 2; 63 # 25]%Q) /\
    (Timing.beat_times grid <> [] ->
     exists others,
       Timing.downbeat_times grid
       = hd 0%Q (Timing.beat_times grid) :: others).
Proof.
  eexists. split.
  - vm_compute. reflexivity.
  - apply (create_beat_grid_first_downbeat
             (fun _ _ => (120, [1 # 2; 1; 3 # 2; 2; 63 # 25])%Q)
             (fun _ _ => (1, 0)%Q)
             (fun _ _ => Timing.mkTimeSignature 4 4 (1 # 2))
             20%nat (repeat 0%Q 16) 4%Z).
    vm_compute. reflexivity.
Defined.


Lemma create_beat_grid_no_beats_witness :
  exists grid,
    Timing.create_beat_grid
      (fun _ _ => (0, [])) (fun _ _ => (0, 0))
      (fun _ _ => Timing.mkTimeSignature 4 4 (1 # 2))
      0 (repeat 0 16) 4 = Ok grid /\
    Timing.tempo grid = 0 /\
    Timing.beat_times grid = [] /\
    Timing.downbeat_times grid = [] /\
    Timing.total_beats grid = 0%nat.
Proof.
  apply (create_beat_grid_no_beats
           (fun _ _ => (0, [])) (fun _ _ => (0, 0))
           (fun _ _ => Timing.mkTimeSignature 4 4 (1 # 2))
           0%nat (repeat 0 16) 4%Z).
  - reflexivity.
  - discriminate.
Defined.

(** ** Quantized notes (melody.py, [quantize_notes_to_beats]) *)

Section QuantizeShape.
Import Melody.
Local Open Scope Q_scope.

Variable rnd : Q -> Q.
Variable u : Q.

(** The rounding has a relative error of at most [u]. *)
Hypothesis rnd_error : forall x, Qabs (rnd x - x) <= u * Qabs x.
Hypothesis u_range : 0 <= u <= 1.

(** In double precision, whatever the strength, on a non-empty beat list
    every note comes back with a stored duration of at least
    [MELODY_MIN_NOTE_DURATION] less the rounding of the sum that sets its
    end and of the difference that is stored:
    [u * (2 * |start_time| + 3 * MELODY_MIN_NOTE_DURATION)].  In exact
    arithmetic ([u = 0]) the duration is at least
    [MELODY_MIN_NOTE_DURATION]. *)
Theorem quantize_minimum_duration_rounded (notes : list Note)
    (beat_times : list Q) (quantization_strength : Q) :
  beat_times <> [] ->
  Forall (fun q =>
            Rounded.MELODY_MIN_NOTE_DURATION rnd
            - u * (2 * Qabs (start_time q)
                   + 3 * Rounded.MELODY_MIN_NOTE_DURATION rnd)
            <= duration q)
         (Rounded.quantize_notes_to_beats rnd notes beat_times
            quantization_strength).
Proof.
  intros Hb. destruct u_range as [Hu0 Hu1].
  assert (Hc : 0 <= Rounded.MELODY_MIN_NOTE_DURATION rnd).
  { unfold Rounded.MELODY_MIN_NOTE_DURATION, Config.MELODY_MIN_NOTE_DURATION.
    pose proof (rnd_error (1 # 10)) as H. apply Qabs_Qle_condition in H.
    rewrite (Qabs_pos (1 # 10)) in H by lra. lra. }
  set (c := Rounded.MELODY_MIN_NOTE_DURATION rnd) in *.
  unfold Rounded.quantize_notes_to_beats.
  destruct beat_times as [|b bs]; [congruence|].
  destruct notes as [|n0 ns]; [constructor|].
  apply Forall_forall. intros q Hq.
  apply in_map_iff in Hq. destruct Hq as (n & <- & _).
  unfold Rounded.quantize_note; cbv zeta. cbn [duration start_time].
  fold c.
  match goal with
  | |- context [Qlt_le_dec (rnd (?x - ?y)) c] =>
      set (s := y) in *; set (e0 := x) in *
  end.
  pose proof (Qabs_nonneg s) as Ha.
  assert (Hua : 0 <= u * Qabs s) by (apply Qmult_le_0_compat; assumption).
  assert (Huc : 0 <= u * c) by (apply Qmult_le_0_compat; assumption).
  destruct (Qlt_le_dec (rnd (e0 - s)) c) as [Hshort | Hlong]; [|lra].
  set (e := rnd (s + c)).
  pose proof (rnd_error (s + c)) as HA. fold e in HA.
  pose proof (rnd_error (e - s)) as HB.
  apply Qabs_Qle_condition in HA. apply Qabs_Qle_condition in HB.
  pose proof (Qabs_triangle s c) as Ht. rewrite (Qabs_pos c) in Ht by assumption.
  pose proof (Qabs_nonneg (s + c)) as Ht0.
  set (t := Qabs (s + c)) in *.
  assert (Hut : 0 <= u * t) by (apply Qmult_le_0_compat; assumption).
  assert (Hw : Qabs (e - s) <= c + u * t)
    by (apply Qabs_Qle_condition; split; lra).
  set (w := Qabs (e - s)) in *.
  assert (P1 : t * u <= (Qabs s + c) * u)
    by (apply Qmult_le_compat_r; assumption).
  assert (P2 : w * u <= (c + u * t) * u)
    by (apply Qmult_le_compat_r; assumption).
  assert (P3 : u * (u * t) <= 1 * (u * t))
    by (apply Qmult_le_compat_r; assumption).
  lra.
Qed.

End QuantizeShape.

Lemma quantize_minimum_duration_rounded_witness :
  Forall (fun q =>
            (Rounded.MELODY_MIN_NOTE_DURATION Binary64.binary64
             - Binary64.unit_roundoff
               * (2 * Qabs (Melody.start_time q)
                  + 3 * Rounded.MELODY_MIN_NOTE_DURATION Binary64.binary64)
             <= Melody.duration q)%Q)
         (Rounded.quantize_notes_to_beats Binary64.binary64
            [Melody.mkNote 60 (Binary64.binary64 (2 # 5))
               (Binary64.binary64 (9 # 20)) (Binary64.binary64 (1 # 20)) 1 64]
            [Binary64.binary64 (2 # 5); 1%Q] (1 # 2)%Q).
Proof.
  apply (quantize_minimum_duration_rounded Binary64.binary64
           Binary64.unit_roundoff binary64_error).
  - split; vm_compute; discriminate.
  - discriminate.
Defined.

(** That note, 0.4 s to 0.45 s on the beats 0.4 s and 1 s at the default
    strength: the end is set to [0.4 + 0.1 = 0.5] and the stored duration
    [0.5 - 0.4] is the double below 0.1. *)
Example quantize_duration_below_minimum :
  map (fun q => Qcompare (Melody.duration q)
                  (Rounded.MELODY_MIN_NOTE_DURATION Binary64.binary64))
      (Rounded.quantize_notes_to_beats Binary64.binary64
         [Melody.mkNote 60 (Binary64.binary64 (2 # 5))
            (Binary64.binary64 (9 # 20)) (Binary64.binary64 (1 # 20)) 1 64]
         [Binary64.binary64 (2 # 5); 1%Q] (1 # 2)%Q)
  = [Lt].
Proof. vm_compute. reflexivity. Qed.

(** ** Notes cut from an F0 contour (melody.py, [f0_to_midi_notes]) *)

Section SegmentationShape.
Import Melody.
Local Open Scope Q_scope.

(** A mask computed from a list selects, in that list, the elements that
    pass the test. *)
Lemma mask_select_self {A : Type} (f : A -> bool) (xs : list A) :
  Forall (fun x => f x = true) (mask_select (map f xs) xs).
Proof.
  unfold mask_select. induction xs as [|x xs IH]; simpl.
  - constructor.
  - destruct (f x) eqn:E; simpl; [constructor|]; assumption.
Qed.

Lemma mask_select_cons {A : Type} (b : bool) (mask : list bool) (x : A)
    (xs : list A) :
  mask_select (b :: mask) (x :: xs)
  = if b then x :: mask_select mask xs else mask_select mask xs.
Proof. unfold mask_select. simpl. destruct b; reflexivity. Qed.

Lemma mask_select_sorted {A : Type} (R : A -> A -> Prop) (xs : list A) :
  forall mask, StronglySorted R xs -> StronglySorted R (mask_select mask xs).
Proof.
  induction xs as [|x xs IH]; intros mask Hs.
  - destruct mask; constructor.
  - destruct mask as [|b mask]; [constructor|].
    rewrite mask_select_cons. inversion Hs; subst.
    destruct b; [|now apply IH].
    constructor; [now apply IH | now apply mask_select_Forall].
Qed.

Lemma sum_above (threshold : Q) (l : list Q) :
  Forall (fun c => threshold < c) l ->
  threshold * inject_Z (Z.of_nat (List.length l)) <= fold_right Qplus 0 l.
Proof.
  induction 1 as [|c l Hc _ IH].
  - cbn [List.length fold_right]. change (inject_Z (Z.of_nat 0)) with 0. lra.
  - cbn [List.length fold_right]. rewrite Nat2Z.inj_succ. unfold Z.succ.
    rewrite inject_Z_plus. change (inject_Z 1) with 1. lra.
Qed.

Lemma sum_below (bound : Q) (l : list Q) :
  Forall (fun c => c <= bound) l ->
  fold_right Qplus 0 l <= bound * inject_Z (Z.of_nat (List.length l)).
Proof.
  induction 1 as [|c l Hc _ IH].
  - cbn [List.length fold_right]. change (inject_Z (Z.of_nat 0)) with 0. lra.
  - cbn [List.length fold_right]. rewrite Nat2Z.inj_succ. unfold Z.succ.
    rewrite inject_Z_plus. change (inject_Z 1) with 1. lra.
Qed.

Lemma length_pos_Q {A : Type} (l : list A) :
  l <> [] -> 0 < inject_Z (Z.of_nat (List.length l)).
Proof.
  intros H. destruct l; [congruence|].
  change 0 with (inject_Z 0). rewrite <- Zlt_Qlt. simpl List.length. lia.
Qed.

(** The mean of values above a threshold is above it. *)
Lemma mean_above (threshold : Q) (l : list Q) :
  l <> [] -> Forall (fun c => threshold < c) l -> threshold < mean l.
Proof.
  intros Hne Hall. unfold mean.
  apply Qlt_shift_div_l; [now apply length_pos_Q|].
  destruct Hall as [|c l Hc Hall]; [congruence|].
  pose proof (sum_above threshold l Hall) as Hs.
  cbn [List.length fold_right]. rewrite Nat2Z.inj_succ. unfold Z.succ.
  rewrite inject_Z_plus. change (inject_Z 1) with 1. lra.
Qed.

Lemma mean_below (bound : Q) (l : list Q) :
  l <> [] -> Forall (fun c => c <= bound) l -> mean l <= bound.
Proof.
  intros Hne Hall. unfold mean.
  apply Qle_shift_div_r; [now apply length_pos_Q|].
  now apply sum_below.
Qed.

Variables min_note_duration max_note_duration : Q.
Variables confidence_threshold confidence_bound : Q.

(** What every frame that reaches the loop satisfies, and what every note
    that leaves it does. *)
Let frame_ok (frame : Q * (Z * Q)) : Prop :=
  (0 <= fst (snd frame) <= 127)%Z /\
  confidence_threshold < snd (snd frame) /\
  snd (snd frame) <= confidence_bound.

Let note_ok (n : Note) : Prop :=
  (0 <= pitch n <= 127)%Z /\
  confidence_threshold < confidence n /\
  confidence n <= confidence_bound /\
  velocity n
  = py_int (inject_Z Config.MIDI_VELOCITY_DEFAULT * confidence n).

Lemma segment_loop_note_ok (frames : list (Q * (Z * Q))) :
  forall (current_note : Z) (note_start : Q) (note_confidence : list Q)
         (prev_time : Q) (notes : list Note),
  Forall frame_ok frames ->
  (0 <= current_note <= 127)%Z ->
  note_confidence <> [] ->
  Forall (fun c => confidence_threshold < c) note_confidence ->
  Forall (fun c => c <= confidence_bound) note_confidence ->
  Forall note_ok notes ->
  Forall note_ok
    (segment_loop min_note_duration max_note_duration frames
       current_note note_start note_confidence prev_time notes).
Proof.
  assert (Hclose : forall cur st en cf notes,
            (0 <= cur <= 127)%Z -> cf <> [] ->
            Forall (fun c => confidence_threshold < c) cf ->
            Forall (fun c => c <= confidence_bound) cf ->
            Forall note_ok notes ->
            Forall note_ok
              (close_note min_note_duration max_note_duration cur st en cf
                 notes)).
  { intros cur st en cf notes Hcur Hne Hlo Hhi Hn. unfold close_note.
    destruct (_ && _); [|assumption].
    apply Forall_app; split; [assumption|].
    constructor; [|constructor].
    unfold note_ok; cbn [pitch confidence velocity].
    split; [assumption|]. split; [now apply mean_above|].
    split; [now apply mean_below | reflexivity]. }
  induction frames as [|[t [p c]] rest IH];
    intros cur st cf prev notes Hf Hcur Hne Hlo Hhi Hn.
  - simpl. now apply Hclose.
  - inversion Hf as [|fr frs Hfr Hrest]; subst.
    destruct Hfr as (Hp & Hc1 & Hc2). simpl in Hp, Hc1, Hc2.
    simpl. destruct (Z.eqb p cur).
    + apply IH; try assumption.
      * destruct cf; discriminate.
      * apply Forall_app; split; [assumption | repeat constructor; assumption].
      * apply Forall_app; split; [assumption | repeat constructor; assumption].
    + apply IH; try assumption.
      * discriminate.
      * repeat constructor; assumption.
      * repeat constructor; assumption.
      * now apply Hclose.
Qed.

Lemma f0_notes_note_ok (hz_to_midi_round : Q -> Z)
    (f0_times f0_frequencies f0_confidence : list Q) :
  List.length f0_times = List.length f0_confidence ->
  List.length f0_frequencies = List.length f0_confidence ->
  Forall (fun c => c <= confidence_bound) f0_confidence ->
  exists notes,
    f0_to_midi_notes hz_to_midi_round f0_times f0_frequencies f0_confidence
      confidence_threshold min_note_duration max_note_duration = Ok notes /\
    Forall note_ok notes.
Proof.
  intros Ht Hf Hbound. unfold f0_to_midi_notes.
  rewrite Ht, Hf, !Nat.eqb_refl. simpl negb. cbv iota.
  set (above := fun c : Q =>
                  if Qlt_le_dec confidence_threshold c then true else false).
  set (confident_mask := map above f0_confidence).
  set (in_range := fun m : Z => (Z.leb 0 m && Z.leb m 127)%bool).
  set (midi_notes :=
         map hz_to_midi_round (mask_select confident_mask f0_frequencies)).
  set (valid_mask := map in_range midi_notes).
  destruct (mask_select confident_mask f0_times) as [|ct cts] eqn:Ect;
    [exists []; split; [reflexivity | constructor]|].
  rewrite <- Ect.
  assert (Hnotes : Forall (fun m => (0 <= m <= 127)%Z)
                     (mask_select valid_mask midi_notes)).
  { pose proof (mask_select_self in_range midi_notes) as H.
    fold valid_mask in H. eapply Forall_impl; [|exact H].
    intros m Hm. unfold in_range in Hm.
    apply andb_true_iff in Hm. destruct Hm as [H1 H2].
    apply Z.leb_le in H1. apply Z.leb_le in H2. lia. }
  assert (Hconf : Forall (fun c => confidence_threshold < c
                                   /\ c <= confidence_bound)
                    (mask_select valid_mask
                       (mask_select confident_mask f0_confidence))).
  { apply mask_select_Forall.
    pose proof (mask_select_self above f0_confidence) as H.
    fold confident_mask in H.
    pose proof (mask_select_Forall _ confident_mask _ Hbound) as H'.
    rewrite Forall_forall in *. intros c Hc. split; [|now apply H'].
    specialize (H c Hc). unfold above in H.
    destruct (Qlt_le_dec confidence_threshold c); [assumption | discriminate]. }
  destruct (mask_select valid_mask (mask_select confident_mask f0_times))
    as [|t0 ts]; [exists []; split; [reflexivity | constructor]|].
  destruct (mask_select valid_mask midi_notes) as [|p0 ps];
    [exists []; split; [reflexivity | constructor]|].
  destruct (mask_select valid_mask (mask_select confident_mask f0_confidence))
    as [|c0 cs]; [exists []; split; [reflexivity | constructor]|].
  eexists. split; [reflexivity|].
  inversion Hnotes as [|? ? Hp0 Hps]; subst.
  inversion Hconf as [|? ? Hc0 Hcs]; subst.
  apply segment_loop_note_ok.
  - apply Forall_forall. intros [t [p c]] Hin.
    pose proof (in_combine_r _ _ _ _ Hin) as Hpc.
    pose proof (in_combine_l _ _ _ _ Hpc) as Hp.
    pose proof (in_combine_r _ _ _ _ Hpc) as Hc.
    rewrite Forall_forall in Hps, Hcs.
    unfold frame_ok; simpl. split; [now apply Hps|]. now apply Hcs.
  - assumption.
  - discriminate.
  - repeat constructor. apply Hc0.
  - repeat constructor. apply Hc0.
  - constructor.
Qed.

End SegmentationShape.

Section SegmentationMidi.
Import Melody.
Local Open Scope Q_scope.

(** An element that a mask computed from a second list selects comes with
    an element of that list, at the same index, that passes the test. *)
Lemma mask_select_paired {A B : Type} (g : B -> bool) (xs : list A) :
  forall ys : list B,
  Forall (fun x => exists y, In (x, y) (combine xs ys) /\ g y = true)
         (mask_select (map g ys) xs).
Proof.
  induction xs as [|x xs IH]; intros [|y ys]; try constructor.
  cbn [map combine]. rewrite mask_select_cons.
  assert (Hrest : Forall (fun x' => exists y',
                            In (x', y') ((x, y) :: combine xs ys)
                            /\ g y' = true)
                         (mask_select (map g ys) xs)).
  { eapply Forall_impl; [|apply IH]. intros x' (y' & Hin & Hy').
    exists y'. split; [now right | exact Hy']. }
  destruct (g y) eqn:E; [|exact Hrest].
  constructor; [|exact Hrest]. exists y. split; [now left | exact E].
Qed.

(** The loop gives a note the pitch of a frame or the pitch it started
    with. *)
Lemma segment_loop_pitch (P : Z -> Prop) (min_note_duration
    max_note_duration : Q) (frames : list (Q * (Z * Q))) :
  forall (current_note : Z) (note_start : Q) (note_confidence : list Q)
         (prev_time : Q) (notes : list Note),
  Forall (fun frame => P (fst (snd frame))) frames ->
  P current_note ->
  Forall (fun n => P (pitch n)) notes ->
  Forall (fun n => P (pitch n))
    (segment_loop min_note_duration max_note_duration frames
       current_note note_start note_confidence prev_time notes).
Proof.
  assert (Hclose : forall cur st en cf notes,
            P cur -> Forall (fun n => P (pitch n)) notes ->
            Forall (fun n => P (pitch n))
              (close_note min_note_duration max_note_duration
                 cur st en cf notes)).
  { intros cur st en cf notes Hcur Hn. unfold close_note. cbv zeta.
    destruct (_ && _); [|assumption].
    apply Forall_app. split; [assumption|]. repeat constructor. exact Hcur. }
  induction frames as [|[t [p c]] rest IH];
    intros cur st cf prev notes Hf Hcur Hn.
  - simpl. now apply Hclose.
  - inversion Hf as [|fr frs Hp Hrest]; subst. simpl in Hp.
    simpl. destruct (Z.eqb p cur).
    + now apply IH.
    + apply IH; [assumption | assumption | now apply Hclose].
Qed.

(** On arrays of one length [f0_to_midi_notes] returns, and every note has
    a pitch from 0 to 127 that is the rounded MIDI number of the frequency
    of a frame whose confidence is above the threshold. *)
Theorem f0_notes_pitch_of_confident_frame (hz_to_midi_round : Q -> Z)
    (f0_times f0_frequencies f0_confidence : list Q)
    (confidence_threshold min_note_duration max_note_duration : Q) :
  List.length f0_times = List.length f0_confidence ->
  List.length f0_frequencies = List.length f0_confidence ->
  exists notes,
    f0_to_midi_notes hz_to_midi_round f0_times f0_frequencies f0_confidence
      confidence_threshold min_note_duration max_note_duration = Ok notes /\
    Forall (fun n =>
              (0 <= pitch n <= 127)%Z /\
              exists f c,
                In (f, c) (combine f0_frequencies f0_confidence) /\
                confidence_threshold < c /\
                pitch n = hz_to_midi_round f)
           notes.
Proof.
  intros Ht Hf. unfold f0_to_midi_notes.
  rewrite Ht, Hf, !Nat.eqb_refl. simpl negb. cbv iota.
  set (above := fun c : Q =>
                  if Qlt_le_dec confidence_threshold c then true else false).
  set (confident_mask := map above f0_confidence).
  set (in_range := fun m : Z => (Z.leb 0 m && Z.leb m 127)%bool).
  set (midi_notes :=
         map hz_to_midi_round (mask_select confident_mask f0_frequencies)).
  set (valid_mask := map in_range midi_notes).
  set (P := fun m : Z =>
              (0 <= m <= 127)%Z /\
              exists f c,
                In (f, c) (combine f0_frequencies f0_confidence) /\
                confidence_threshold < c /\ m = hz_to_midi_round f).
  destruct (mask_select confident_mask f0_times) as [|ct cts];
    [exists []; split; [reflexivity | constructor]|].
  assert (Hnotes : Forall P (mask_select valid_mask midi_notes)).
  { apply Forall_and.
    - pose proof (mask_select_self in_range midi_notes) as H.
      fold valid_mask in H. eapply Forall_impl; [|exact H].
      intros m Hm. unfold in_range in Hm.
      apply andb_true_iff in Hm. destruct Hm as [H1 H2].
      apply Z.leb_le in H1. apply Z.leb_le in H2. lia.
    - apply mask_select_Forall. unfold midi_notes. rewrite Forall_map.
      eapply Forall_impl;
        [|apply (mask_select_paired above f0_frequencies f0_confidence)].
      intros f (c & Hin & Hc). exists f, c. split; [exact Hin|].
      split; [|reflexivity]. unfold above in Hc.
      destruct (Qlt_le_dec confidence_threshold c);
        [assumption | discriminate]. }
  destruct (mask_select valid_mask (ct :: cts)) as [|t0 ts];
    [exists []; split; [reflexivity | constructor]|].
  destruct (mask_select valid_mask midi_notes) as [|p0 ps];
    [exists []; split; [reflexivity | constructor]|].
  destruct (mask_select valid_mask (mask_select confident_mask f0_confidence))
    as [|c0 cs]; [exists []; split; [reflexivity | constructor]|].
  eexists. split; [reflexivity|].
  inversion Hnotes as [|? ? Hp0 Hps]; subst.
  apply (segment_loop_pitch P).
  - apply Forall_forall. intros [t [p c]] Hin.
    pose proof (in_combine_r _ _ _ _ Hin) as Hpc.
    pose proof (in_combine_l _ _ _ _ Hpc) as Hp.
    rewrite Forall_forall in Hps. simpl. now apply Hps.
  - exact Hp0.
  - constructor.
Qed.

Lemma f0_notes_pitch_of_confident_frame_witness :
  exists notes,
    f0_to_midi_notes hz_to_midi_round_exact
      [0; 1 # 10; 2 # 10; 3 # 10; 4 # 10]
      [440; 440; 440; 26163 # 100; 26163 # 100]
      [9 # 10; 9 # 10; 9 # 10; 8 # 10; 8 # 10]
      (5 # 10) (1 # 10) 2 = Ok notes /\
    Forall (fun n =>
              (0 <= pitch n <= 127)%Z /\
              exists f c,
                In (f, c)
                   (combine [440; 440; 440; 26163 # 100; 26163 # 100]
                            [9 # 10; 9 # 10; 9 # 10; 8 # 10; 8 # 10]) /\
                5 # 10 < c /\
                pitch n = hz_to_midi_round_exact f)
           notes.
Proof.
  apply f0_notes_pitch_of_confident_frame; reflexivity.
Defined.

(** When the confidences of the contour are at most 1 and the threshold is
    not negative, every note has a velocity from 0 to
    [MIDI_VELOCITY_DEFAULT] (64), the integer part of 64 times its
    confidence. *)
Theorem f0_notes_velocity_range (hz_to_midi_round : Q -> Z)
    (f0_times f0_frequencies f0_confidence : list Q)
    (confidence_threshold min_note_duration max_note_duration : Q) :
  List.length f0_times = List.length f0_confidence ->
  List.length f0_frequencies = List.length f0_confidence ->
  0 <= confidence_threshold ->
  Forall (fun c => c <= 1) f0_confidence ->
  exists notes,
    f0_to_midi_notes hz_to_midi_round f0_times f0_frequencies f0_confidence
      confidence_threshold min_note_duration max_note_duration = Ok notes /\
    Forall (fun n => velocity n = Qfloor (64 * confidence n) /\
                     (0 <= velocity n <= 64)%Z) notes.
Proof.
  intros Ht Hf Hthr Hb.
  destruct (f0_notes_note_ok min_note_duration max_note_duration
              confidence_threshold 1 hz_to_midi_round
              f0_times f0_frequencies f0_confidence Ht Hf Hb)
    as (notes & Hrun & Hok).
  exists notes. split; [assumption|].
  eapply Forall_impl; [|exact Hok]. intros n (_ & Hlo & Hhi & Hv).
  unfold Config.MIDI_VELOCITY_DEFAULT in Hv.
  change (inject_Z 64) with 64 in Hv.
  assert (Hpos : 0 <= 64 * confidence n) by lra.
  assert (E : py_int (64 * confidence n) = Qfloor (64 * confidence n)).
  { unfold py_int. destruct (Qlt_le_dec (64 * confidence n) 0); [lra|].
    reflexivity. }
  rewrite E in Hv. split; [exact Hv|]. rewrite Hv. split.
  - apply (Qfloor_resp_le 0 (64 * confidence n) Hpos).
  - assert (Hle : 64 * confidence n <= 64) by lra.
    apply (Qfloor_resp_le (64 * confidence n) 64 Hle).
Qed.

Lemma f0_notes_velocity_range_witness :
  exists notes,
    f0_to_midi_notes hz_to_midi_round_exact
      [0; 1 # 10; 2 # 10; 3 # 10; 4 # 10]
      [440; 440; 440; 26163 # 100; 26163 # 100]
      [9 # 10; 9 # 10; 9 # 10; 8 # 10; 8 # 10]
      (5 # 10) (1 # 10) 2 = Ok notes /\
    Forall (fun n => velocity n = Qfloor (64 * confidence n) /\
                     (0 <= velocity n <= 64)%Z) notes.
Proof.
  apply f0_notes_velocity_range.
  - reflexivity.
  - reflexivity.
  - vm_compute; discriminate.
  - repeat constructor; vm_compute; discriminate.
Defined.

End SegmentationMidi.

Section SegmentationOrder.
Import Melody.
Local Open Scope Q_scope.

Variables min_note_duration max_note_duration : Q.

(** A note ends before the next one starts. *)
Let before (a b : Note) : Prop := end_time a <= start_time b.

Lemma StronglySorted_snoc {A : Type} (R : A -> A -> Prop) (l : list A)
    (x : A) :
  StronglySorted R l -> Forall (fun a => R a x) l ->
  StronglySorted R (l ++ [x]).
Proof.
  induction 1 as [|a l Hs IH Ha]; intros Hx; simpl.
  - repeat constructor.
  - inversion Hx; subst. constructor; [now apply IH|].
    apply Forall_app; split; [assumption | repeat constructor; assumption].
Qed.

Lemma close_note_ordered (current_note : Z) (note_start note_end : Q)
    (note_confidence : list Q) (notes : list Note) (later : Q) :
  StronglySorted before notes ->
  Forall (fun a => end_time a <= note_start) notes ->
  Forall (fun a => start_time a <= end_time a) notes ->
  note_start <= note_end -> note_end <= later ->
  let notes' :=
    close_note min_note_duration max_note_duration current_note
      note_start note_end note_confidence notes in
  StronglySorted before notes' /\
  Forall (fun a => end_time a <= later) notes' /\
  Forall (fun a => start_time a <= end_time a) notes'.
Proof.
  intros Hs Hends Hpos Hse Hel. cbv zeta. unfold close_note.
  assert (Hends' : Forall (fun a => end_time a <= later) notes).
  { eapply Forall_impl; [|exact Hends]. intros a Ha. simpl in Ha. lra. }
  destruct (_ && _); [|auto].
  split; [|split].
  - apply StronglySorted_snoc; assumption.
  - apply Forall_app; split; [assumption | repeat constructor; assumption].
  - apply Forall_app; split; [assumption | repeat constructor; assumption].
Qed.

Lemma segment_loop_ordered (frames : list (Q * (Z * Q))) :
  forall (current_note : Z) (note_start : Q) (note_confidence : list Q)
         (prev_time : Q) (notes : list Note),
  StronglySorted Qle (prev_time :: map fst frames) ->
  note_start <= prev_time ->
  StronglySorted before notes ->
  Forall (fun a => end_time a <= note_start) notes ->
  Forall (fun a => start_time a <= end_time a) notes ->
  let notes' :=
    segment_loop min_note_duration max_note_duration frames
      current_note note_start note_confidence prev_time notes in
  StronglySorted before notes' /\
  Forall (fun a => start_time a <= end_time a) notes'.
Proof.
  induction frames as [|[t [p c]] rest IH];
    intros cur st cf prev notes Hsorted Hst Hs Hends Hpos; cbv zeta.
  - simpl.
    destruct (close_note_ordered cur st prev cf notes prev Hs Hends Hpos Hst
                (Qle_refl prev)) as (H1 & _ & H3).
    auto.
  - simpl map in Hsorted. inversion Hsorted as [|? ? Hrest Hall]; subst.
    inversion Hall as [|? ? Hpt Hall']; subst.
    simpl. destruct (Z.eqb p cur).
    + apply IH; try assumption. lra.
    + destruct (close_note_ordered cur st prev cf notes t Hs Hends Hpos Hst
                  Hpt) as (H1 & H2 & H3).
      apply IH; try assumption. apply Qle_refl.
Qed.

Lemma combine_fst_sorted {B : Type} (ts : list Q) :
  forall (t0 : Q) (xs : list B),
  StronglySorted Qle (t0 :: ts) ->
  StronglySorted Qle (t0 :: map fst (combine ts xs)).
Proof.
  induction ts as [|t ts IH]; intros t0 xs Hs.
  - simpl. assumption.
  - destruct xs as [|x xs]; simpl.
    + repeat constructor.
    + inversion Hs as [|? ? Hrest Hall]; subst.
      constructor; [now apply IH|].
      apply Forall_forall. intros y Hy.
      rewrite Forall_forall in Hall. apply Hall.
      destruct Hy as [Hy | Hy]; [now left | right].
      apply in_map_iff in Hy. destruct Hy as ([a b] & <- & Hin).
      simpl. now apply in_combine_l in Hin.
Qed.

(** When the times of the contour do not decrease, the notes come out in
    time order and do not overlap: each note ends at or before the start of
    every later note, and no note ends before it starts. *)
Theorem f0_notes_ordered (hz_to_midi_round : Q -> Z)
    (f0_times f0_frequencies f0_confidence : list Q)
    (confidence_threshold : Q) :
  List.length f0_times = List.length f0_confidence ->
  List.length f0_frequencies = List.length f0_confidence ->
  StronglySorted Qle f0_times ->
  exists notes,
    f0_to_midi_notes hz_to_midi_round f0_times f0_frequencies f0_confidence
      confidence_threshold min_note_duration max_note_duration = Ok notes /\
    StronglySorted (fun a b => end_time a <= start_time b) notes /\
    Forall (fun a => start_time a <= end_time a) notes.
Proof.
  intros Ht Hf Hsorted. unfold f0_to_midi_notes.
  rewrite Ht, Hf, !Nat.eqb_refl. simpl negb. cbv iota.
  match goal with |- context [mask_select ?m f0_times] =>
    set (confident_mask := m) end.
  destruct (mask_select confident_mask f0_times) as [|ct cts] eqn:Ect;
    [exists []; repeat split; constructor|].
  rewrite <- Ect.
  match goal with |- context [mask_select ?m (mask_select _ f0_times)] =>
    set (valid_mask := m) end.
  assert (Hvt : StronglySorted Qle
                  (mask_select valid_mask
                     (mask_select confident_mask f0_times)))
    by (do 2 apply mask_select_sorted; assumption).
  destruct (mask_select valid_mask (mask_select confident_mask f0_times))
    as [|t0 ts]; [exists []; repeat split; constructor|].
  match goal with |- context [match ?vn with [] => Ok [] | _ :: _ => _ end] =>
    destruct vn as [|p0 ps] end;
    [exists []; repeat split; constructor|].
  match goal with |- context [match ?vc with [] => Ok [] | _ :: _ => _ end] =>
    destruct vc as [|c0 cs] end;
    [exists []; repeat split; constructor|].
  eexists. split; [reflexivity|].
  apply segment_loop_ordered.
  - now apply combine_fst_sorted.
  - apply Qle_refl.
  - constructor.
  - constructor.
  - constructor.
Qed.

End SegmentationOrder.

Lemma f0_notes_ordered_witness :
  exists notes,
    Melody.f0_to_midi_notes Melody.hz_to_midi_round_exact
      [0; 1 # 10; 2 # 10; 3 # 10; 4 # 10]
      [440; 440; 440; 26163 # 100; 26163 # 100]
      [9 # 10; 9 # 10; 9 # 10; 8 # 10; 8 # 10]
      (5 # 10) (1 # 10) 2 = Ok notes /\
    StronglySorted
      (fun a b => (Melody.end_time a <= Melody.start_time b)%Q) notes /\
    Forall (fun a => (Melody.start_time a <= Melody.end_time a)%Q) notes.
Proof.
  apply f0_notes_ordered.
  - reflexivity.
  - reflexivity.
  - repeat constructor; vm_compute; discriminate.
Defined.

(** ** The chord of a window (chords.py, [detect_chord_from_chroma]) *)

Section ChordLabels.
Import Chords ChordAnalysis.
Local Open Scope R_scope.

Lemma cosine_range (u v : list R) : 0 <= cosine u v <= 2.
Proof.
  unfold cosine. split.
  - apply Rmax_l.
  - apply Rmax_lub; [lra | apply Rmin_r].
Qed.

(** The labels that a template can give: a root and the letter [M]. *)
Let template_labels : list string :=
  map (fun root => (root ++ "M")%string) NOTE_NAMES.

(** The state of the two loops: no chord yet at confidence 0, or a
    template label at a confidence in (0, 1]. *)
Let best_ok (best : string * R) : Prop :=
  (fst best = "N"%string /\ snd best = 0) \/
  (In (fst best) template_labels /\ 0 < snd best <= 1).

Lemma quality_step_best_ok (chroma_norm : list R) (root : string)
    (best : string * R) (entry : string * list Z) :
  In (chord_name root (fst entry)) template_labels ->
  best_ok best -> best_ok (quality_step chroma_norm root best entry).
Proof.
  intros Hname Hbest. destruct entry as [quality template].
  unfold quality_step.
  match goal with |- context [cosine ?u ?v] =>
    pose proof (cosine_range u v) as Hc; set (d := cosine u v) in * end.
  destruct (Rlt_dec (snd best) (1 - d)) as [Hlt | _]; [|assumption].
  right. simpl. split; [exact Hname|].
  destruct Hbest as [[_ H0] | [_ H1]]; lra.
Qed.

Lemma root_step_best_ok (chroma_norm : list R) (best : string * R)
    (entry : string * list (string * list Z)) :
  Forall (fun q => In (chord_name (fst entry) (fst q)) template_labels)
         (snd entry) ->
  best_ok best -> best_ok (root_step chroma_norm best entry).
Proof.
  destruct entry as [root qualities]. simpl. unfold root_step.
  revert best. induction qualities as [|q qs IH]; intros best Hall Hbest.
  - assumption.
  - inversion Hall; subst. simpl. apply IH; [assumption|].
    now apply quality_step_best_ok.
Qed.

Lemma templates_named :
  Forall (fun entry =>
            Forall (fun q => In (chord_name (fst entry) (fst q))
                               template_labels) (snd entry))
         CHORD_TEMPLATES.
Proof.
  assert (H : forallb
                (fun entry =>
                   forallb
                     (fun q => existsb (String.eqb (chord_name (fst entry) (fst q)))
                                 template_labels)
                     (snd entry))
                CHORD_TEMPLATES = true) by (vm_compute; reflexivity).
  rewrite forallb_forall in H. apply Forall_forall. intros entry He.
  specialize (H entry He). rewrite forallb_forall in H.
  apply Forall_forall. intros q Hq. specialize (H q Hq).
  apply existsb_exists in H. destruct H as (x & Hx & Heq).
  apply String.eqb_eq in Heq. now rewrite Heq.
Qed.

(** For every chroma vector the confidence lies between 0 and 1, the label
    is [N] exactly when the confidence is 0, and any other label is one of
    the twelve roots followed by [M]: the minor templates are labelled like
    the major ones. *)
Theorem detect_chord_label_and_confidence (chroma_vector : list R) :
  let result := detect_chord_from_chroma chroma_vector in
  0 <= snd result <= 1 /\
  (fst result = "N"%string <-> snd result = 0) /\
  (fst result = "N"%string \/
   exists root, In root NOTE_NAMES /\ fst result = (root ++ "M")%string).
Proof.
  cbv zeta. unfold detect_chord_from_chroma.
  match goal with |- context [fold_left (root_step ?cn) _ _] =>
    set (chroma_norm := cn) end.
  assert (H : best_ok (fold_left (root_step chroma_norm) CHORD_TEMPLATES
                         ("N"%string, 0))).
  { pose proof templates_named as Ht.
    assert (H0 : best_ok ("N"%string, 0)) by (left; split; reflexivity).
    revert H0. generalize ("N"%string, 0).
    induction Ht as [|entry entries He _ IH]; intros best Hbest.
    - assumption.
    - simpl. apply IH. now apply root_step_best_ok. }
  set (result := fold_left (root_step chroma_norm) CHORD_TEMPLATES
                   ("N"%string, 0)) in *.
  assert (HN : ~ In "N"%string template_labels).
  { unfold template_labels, NOTE_NAMES. simpl.
    intros Hin. repeat (destruct Hin as [Hin | Hin]; [discriminate|]).
    exact Hin. }
  destruct H as [[Hl Hc] | [Hl Hc]].
  - split; [lra|]. split; [tauto | now left].
  - split; [lra|]. split.
    + split; [intros E; rewrite E in Hl; contradiction | lra].
    + right. unfold template_labels in Hl. apply in_map_iff in Hl.
      destruct Hl as (root & Heq & Hin). eauto.
Qed.

End ChordLabels.

(** ** Merged progressions (chords.py, [merge_consecutive_chords],
    [analyze_chord_complexity]) *)

Section MergeShape.
Import Chords ChordAnalysis.

Variable conf : Type.
Variable gt : conf -> conf -> bool.

Lemma dedup_adjacent_same (l l' : string) (rest : list string) :
  l = l' -> dedup_adjacent (l :: rest) = dedup_adjacent (l' :: rest).
Proof. now intros ->. Qed.

Lemma merge_loop_labels (times : list Q) :
  forall (labels : list string) (confidences : list conf)
         (merged : list (ChordEvent conf)) (current_chord : ChordEvent conf),
  List.length labels = List.length times ->
  List.length confidences = List.length times ->
  exists m,
    merge_loop gt times labels confidences merged current_chord = Ok m /\
    map label m
    = map label merged ++ dedup_adjacent (label current_chord :: labels) /\
    (List.length m <= List.length merged + 1 + List.length times)%nat /\
    hd_error (map time m)
    = hd_error (map time (merged ++ [current_chord])).
Proof.
  induction times as [|t times IH]; intros labels confs merged cur Hl Hc.
  - destruct labels; [|discriminate]. simpl.
    exists (merged ++ [cur]). split; [reflexivity|].
    rewrite map_app, length_app. simpl. split; [reflexivity|].
    split; [lia | reflexivity].
  - destruct labels as [|l labels]; [discriminate|].
    destruct confs as [|c confs]; [discriminate|].
    simpl in Hl, Hc. injection Hl as Hl. injection Hc as Hc.
    cbn [merge_loop dedup_adjacent].
    destruct (String.eqb l (label cur)) eqn:E.
    + apply String.eqb_eq in E.
      destruct (IH labels confs merged
                  {| time := time cur; label := label cur;
                     confidence := py_max conf gt (confidence cur) c |}
                  Hl Hc) as (m & Hm & Hlab & Hlen & Hhd).
      exists m. split; [exact Hm|]. cbn [label] in Hlab.
      split; [rewrite Hlab; f_equal; now apply dedup_adjacent_same|].
      split; [simpl; lia|].
      rewrite Hhd, !map_app. destruct merged; reflexivity.
    + destruct (IH labels confs (merged ++ [cur])
                  {| time := t; label := l; confidence := c |} Hl Hc)
        as (m & Hm & Hlab & Hlen & Hhd).
      exists m. split; [exact Hm|]. cbn [label] in Hlab.
      split; [rewrite Hlab, map_app, <- app_assoc; reflexivity|].
      split; [rewrite length_app in Hlen; simpl in *; lia|].
      rewrite Hhd, !map_app. destruct merged; reflexivity.
Qed.

(** On lists of one length the labels of the merged progression are the
    window labels with repeated neighbours removed, there are no more
    events than windows, and the progression starts at the first window. *)
Theorem merge_consecutive_chords_labels (times : list Q)
    (labels : list string) (confidences : list conf) :
  List.length labels = List.length times ->
  List.length confidences = List.length times ->
  exists merged,
    merge_consecutive_chords gt times labels confidences = Ok merged /\
    map label merged = dedup_adjacent labels /\
    (List.length merged <= List.length times)%nat /\
    hd_error (map time merged) = hd_error times.
Proof.
  intros Hl Hc. unfold merge_consecutive_chords.
  destruct times as [|t0 times].
  - destruct labels; [|discriminate]. exists []. repeat split. simpl. lia.
  - destruct labels as [|l0 labels]; [discriminate|].
    destruct confidences as [|c0 confs]; [discriminate|].
    simpl in Hl, Hc. injection Hl as Hl. injection Hc as Hc.
    destruct (merge_loop_labels times labels confs []
                {| time := t0; label := l0; confidence := c0 |} Hl Hc)
      as (m & Hm & Hlab & Hlen & Hhd).
    exists m. split; [exact Hm|]. split; [exact Hlab|].
    split; [simpl in *; lia | exact Hhd].
Qed.

(** Whenever the loop returns, its result has no repeated neighbours. *)
Lemma merge_loop_result_no_repeat (times : list Q) :
  forall (labels : list string) (confidences : list conf)
         (merged : list (ChordEvent conf)) (current_chord : ChordEvent conf)
         (m : list (ChordEvent conf)),
  merge_loop gt times labels confidences merged current_chord = Ok m ->
  no_adjacent_repeat (merged ++ [current_chord]) ->
  no_adjacent_repeat m.
Proof.
  induction times as [|t times IH]; intros labels confs merged cur m Hm Hn.
  - simpl in Hm. injection Hm as <-. exact Hn.
  - simpl in Hm. destruct labels as [|l labels]; [discriminate|].
    destruct confs as [|c confs]; [discriminate|].
    destruct (String.eqb l (label cur)) eqn:E.
    + apply (IH _ _ _ _ _ Hm).
      apply (no_adjacent_repeat_relabel conf merged cur); [reflexivity|].
      exact Hn.
    + apply (IH _ _ _ _ _ Hm).
      apply no_adjacent_repeat_snoc; [|exact Hn].
      simpl. apply String.eqb_neq in E. congruence.
Qed.

(** In a progression without repeated neighbours every step is a change. *)
Lemma count_changes_no_repeat (events : list (ChordEvent conf)) :
  forall (prev : ChordEvent conf) (changes : nat),
  no_adjacent_repeat (prev :: events) ->
  count_changes (label prev) (map label events) changes
  = (changes + List.length events)%nat.
Proof.
  induction events as [|e events IH]; intros prev changes Hn.
  - simpl. lia.
  - simpl in Hn. destruct Hn as [Hne Hn]. simpl.
    assert (E : String.eqb (label e) (label prev) = false)
      by (apply String.eqb_neq; congruence).
    rewrite E, IH by exact Hn. lia.
Qed.

(** The statistics of a merged progression: [analyze_chord_complexity]
    counts a chord change at every step, one less than the number of
    chords. *)
Theorem merged_progression_changes (times : list Q) (labels : list string)
    (confidences : list conf) (merged : list (ChordEvent conf)) :
  merge_consecutive_chords gt times labels confidences = Ok merged ->
  chord_changes (analyze_chord_complexity (map label merged))
  = (List.length merged - 1)%nat.
Proof.
  intros Hm.
  assert (Hn : no_adjacent_repeat merged).
  { unfold merge_consecutive_chords in Hm.
    destruct times as [|t0 times]; [injection Hm as <-; exact I|].
    destruct labels as [|l0 labels]; [discriminate|].
    destruct confidences as [|c0 confs]; [discriminate|].
    apply (merge_loop_result_no_repeat _ _ _ _ _ _ Hm). simpl. auto. }
  destruct merged as [|e events]; [reflexivity|].
  unfold analyze_chord_complexity. cbn [map chord_changes].
  rewrite (count_changes_no_repeat events e 0%nat Hn). simpl. lia.
Qed.

End MergeShape.

Section MergeShapeExamples.
Import Chords ChordAnalysis.
Local Open Scope Q_scope.

Lemma merge_consecutive_chords_labels_witness :
  exists merged,
    merge_consecutive_chords Qgtb [0; 1; 2; 3]
      ["CM"; "CM"; "GM"; "CM"]%string [5 # 10; 7 # 10; 6 # 10; 4 # 10]
    = Ok merged /\
    map label merged = dedup_adjacent ["CM"; "CM"; "GM"; "CM"]%string /\
    (List.length merged <= List.length [0; 1; 2; 3])%nat /\
    hd_error (map time merged) = hd_error [0; 1; 2; 3].
Proof.
  apply merge_consecutive_chords_labels; reflexivity.
Defined.

Lemma merged_progression_changes_witness :
  chord_changes
    (analyze_chord_complexity
       (map label
          [ mkChordEvent 0 "CM"%string (7 # 10);
            mkChordEvent 2 "GM"%string (6 # 10);
            mkChordEvent 3 "CM"%string (4 # 10) ]))
  = (List.length
       [ mkChordEvent 0 "CM"%string (7 # 10);
         mkChordEvent 2 "GM"%string (6 # 10);
         mkChordEvent 3 "CM"%string (4 # 10) ] - 1)%nat.
Proof.
  apply (merged_progression_changes Q Qgtb [0; 1; 2; 3]
           ["CM"; "CM"; "GM"; "CM"]%string [5 # 10; 7 # 10; 6 # 10; 4 # 10]).
  reflexivity.
Defined.

(** The confidence of a merged event is the greatest of its run under
    [max]: it is not below either argument. *)
Lemma py_max_ge (a b : Q) :
  a <= py_max Q Qgtb a b /\ b <= py_max Q Qgtb a b.
Proof.
  unfold py_max, Qgtb. destruct (Qlt_le_dec a b); split; lra.
Qed.

Lemma covers_app_l (events more : list (ChordEvent Q))
    (window : Q * (string * Q)) :
  covers events window -> covers (events ++ more) window.
Proof.
  intros (e & Hin & H). exists e. split; [|exact H].
  apply in_or_app. now left.
Qed.

Lemma covers_raise (merged : list (ChordEvent Q)) (cur cur' : ChordEvent Q)
    (window : Q * (string * Q)) :
  label cur' = label cur -> time cur' = time cur ->
  confidence cur <= confidence cur' ->
  covers (merged ++ [cur]) window -> covers (merged ++ [cur']) window.
Proof.
  intros Hl Ht Hc (e & Hin & H1 & H2 & H3).
  apply in_app_or in Hin. destruct Hin as [Hin | [<- | []]].
  - exists e. split; [apply in_or_app; now left | auto].
  - exists cur'. split; [apply in_or_app; right; now left|].
    rewrite Hl, Ht. repeat split; try assumption. lra.
Qed.

Lemma merge_loop_covers (times : list Q) :
  forall (labels : list string) (confidences : list Q)
         (merged : list (ChordEvent Q)) (current_chord : ChordEvent Q),
  List.length labels = List.length times ->
  List.length confidences = List.length times ->
  StronglySorted Qle (time current_chord :: times) ->
  exists m,
    merge_loop Qgtb times labels confidences merged current_chord = Ok m /\
    (forall w, covers (merged ++ [current_chord]) w -> covers m w) /\
    Forall (covers m) (combine times (combine labels confidences)).
Proof.
  induction times as [|t times IH]; intros labels confs merged cur Hl Hc Hs.
  - simpl. exists (merged ++ [cur]). split; [reflexivity|].
    split; [auto | constructor].
  - destruct labels as [|l labels]; [discriminate|].
    destruct confs as [|c confs]; [discriminate|].
    simpl in Hl, Hc. injection Hl as Hl. injection Hc as Hc.
    inversion Hs as [|? ? Hrest Hall]; subst.
    inversion Hall as [|? ? Hct Hall']; subst.
    inversion Hrest as [|? ? Hrest' Hall'']; subst.
    cbn [merge_loop combine].
    destruct (String.eqb l (label cur)) eqn:E.
    + apply String.eqb_eq in E.
      set (cur' := {| time := time cur; label := label cur;
                      confidence := py_max Q Qgtb (confidence cur) c |}).
      destruct (IH labels confs merged cur' Hl Hc) as (m & Hm & Hkeep & Hrem).
      { constructor; assumption. }
      pose proof (py_max_ge (confidence cur) c) as [Hge1 Hge2].
      exists m. split; [exact Hm|]. split.
      * intros w Hw. apply Hkeep.
        now apply (covers_raise merged cur cur').
      * constructor; [|exact Hrem].
        apply Hkeep. exists cur'. split; [apply in_or_app; right; now left|].
        simpl. repeat split; auto.
    + set (cur' := {| time := t; label := l; confidence := c |}).
      destruct (IH labels confs (merged ++ [cur]) cur' Hl Hc)
        as (m & Hm & Hkeep & Hrem).
      { constructor; assumption. }
      exists m. split; [exact Hm|]. split.
      * intros w Hw. apply Hkeep. now apply covers_app_l.
      * constructor; [|exact Hrem].
        apply Hkeep. exists cur'. split; [apply in_or_app; right; now left|].
        simpl. repeat split; apply Qle_refl.
Qed.

(** On lists of one length with times that do not decrease, every window
    is covered by a merged event of its label that starts no later than
    the window and whose confidence is at least the window's: an event
    carries the greatest confidence of its run. *)
Theorem merge_consecutive_chords_covers (times : list Q)
    (labels : list string) (confidences : list Q) :
  List.length labels = List.length times ->
  List.length confidences = List.length times ->
  StronglySorted Qle times ->
  exists merged,
    merge_consecutive_chords Qgtb times labels confidences = Ok merged /\
    Forall (covers merged) (combine times (combine labels confidences)).
Proof.
  intros Hl Hc Hs. unfold merge_consecutive_chords.
  destruct times as [|t0 times]; [exists []; split; [reflexivity | constructor]|].
  destruct labels as [|l0 labels]; [discriminate|].
  destruct confidences as [|c0 confs]; [discriminate|].
  simpl in Hl, Hc. injection Hl as Hl. injection Hc as Hc.
  set (cur := {| time := t0; label := l0; confidence := c0 |}).
  destruct (merge_loop_covers times labels confs [] cur Hl Hc Hs)
    as (m & Hm & Hkeep & Hrem).
  exists m. split; [exact Hm|]. cbn [combine]. constructor; [|exact Hrem].
  apply Hkeep. exists cur. split; [now left|].
  simpl. repeat split; apply Qle_refl.
Qed.

Lemma merge_consecutive_chords_covers_witness :
  exists merged,
    merge_consecutive_chords Qgtb [0; 1; 2; 3]
      ["CM"; "CM"; "GM"; "CM"]%string [5 # 10; 7 # 10; 6 # 10; 4 # 10]
    = Ok merged /\
    Forall (covers merged)
      (combine [0; 1; 2; 3]
         (combine ["CM"; "CM"; "GM"; "CM"]%string
            [5 # 10; 7 # 10; 6 # 10; 4 # 10])).
Proof.
  apply merge_consecutive_chords_covers.
  - reflexivity.
  - reflexivity.
  - repeat constructor; vm_compute; discriminate.
Defined.

End MergeShapeExamples.

(** ** Complexity of a label list (chords.py, [analyze_chord_complexity]) *)

Section ChordComplexityBounds.
Import ChordAnalysis.
Local Open Scope Q_scope.

Lemma count_changes_bound (rest : list string) :
  forall (prev : string) (changes : nat),
  (count_changes prev rest changes <= changes + List.length rest)%nat.
Proof.
  induction rest as [|l rest IH]; intros prev changes; simpl.
  - lia.
  - destruct (String.eqb l prev).
    + specialize (IH l changes). lia.
    + specialize (IH l (S changes)). lia.
Qed.

Lemma nodup_length_le (l : list string) :
  (List.length (nodup string_dec l) <= List.length l)%nat.
Proof.
  induction l as [|x l IH]; simpl; [lia|].
  destruct (in_dec string_dec x l); simpl; lia.
Qed.

Lemma ratio_in_unit (a b : nat) :
  (a <= b)%nat -> (0 < b)%nat ->
  0 <= inject_Z (Z.of_nat a) / inject_Z (Z.of_nat b) <= 1.
Proof.
  intros Hab Hb.
  assert (Hb' : 0 < inject_Z (Z.of_nat b)).
  { change 0 with (inject_Z 0). rewrite <- Zlt_Qlt. lia. }
  assert (Ha' : 0 <= inject_Z (Z.of_nat a)).
  { change 0 with (inject_Z 0). rewrite <- Zle_Qle. lia. }
  assert (Hab' : inject_Z (Z.of_nat a) <= inject_Z (Z.of_nat b)).
  { rewrite <- Zle_Qle. lia. }
  split.
  - apply Qle_shift_div_l; [assumption | lra].
  - apply Qle_shift_div_r; [assumption | lra].
Qed.

(** For every label list there are at most as many unique chords as
    chords, fewer chord changes than chords, and the complexity score lies
    between 0 and 1. *)
Theorem analyze_chord_complexity_bounds (chord_labels : list string) :
  let result := analyze_chord_complexity chord_labels in
  (unique_chords result <= List.length chord_labels)%nat /\
  (chord_changes result <= List.length chord_labels - 1)%nat /\
  0 <= complexity_score result <= 1.
Proof.
  cbv zeta. unfold analyze_chord_complexity.
  destruct chord_labels as [|first rest].
  - simpl. repeat split; try lia; lra.
  - cbn [unique_chords chord_changes complexity_score].
    pose proof (nodup_length_le (first :: rest)) as Hu.
    pose proof (count_changes_bound rest first 0) as Hc.
    set (u := List.length (nodup string_dec (first :: rest))) in *.
    set (ch := count_changes first rest 0) in *.
    set (len := List.length (first :: rest)) in *.
    assert (Hlen : len = S (List.length rest)) by reflexivity.
    split; [exact Hu|]. split; [lia|].
    destruct (ratio_in_unit u len Hu ltac:(lia)) as [H1 H2].
    destruct (ratio_in_unit ch (Nat.max 1 (len - 1)) ltac:(lia) ltac:(lia))
      as [H3 H4].
    split; [apply Qmult_le_0_compat; assumption|].
    apply Qle_trans with (1 * (inject_Z (Z.of_nat ch)
                               / inject_Z (Z.of_nat (Nat.max 1 (len - 1))))).
    + apply Qmult_le_compat_r; assumption.
    + lra.
Qed.

Example analyze_chord_complexity_four :
  let result := analyze_chord_complexity ["CM"; "GM"; "GM"; "CM"]%string in
  unique_chords result = 2%nat /\ chord_changes result = 2%nat /\
  Qred (complexity_score result) = 1 # 3 /\
  common_progressions result
  = [("CM → GM", 1); ("GM → GM", 1); ("GM → CM", 1)]%string%nat.
Proof. vm_compute. repeat split. Qed.

End ChordComplexityBounds.

(** ** Counters ([collections.Counter]) *)

Section CounterFacts.
Import Collections.

Variable K : Type.
Variable eqb : K -> K -> bool.
Hypothesis eqb_eq : forall a b, eqb a b = true <-> a = b.
Variable dec : forall a b : K, {a = b} + {a <> b}.

Lemma eqb_refl_K (a : K) : eqb a a = true.
Proof. now apply eqb_eq. Qed.

Lemma eqb_neq_K (a b : K) : eqb a b = false <-> a <> b.
Proof.
  split.
  - intros H E. apply eqb_eq in E. congruence.
  - intros H. destruct (eqb a b) eqn:E; [apply eqb_eq in E; contradiction|].
    reflexivity.
Qed.

Lemma counter_get_add (x : K) (c : list (K * nat)) (k : K) :
  counter_get eqb (counter_add eqb x c) k
  = if eqb k x then S (counter_get eqb c k) else counter_get eqb c k.
Proof.
  induction c as [|[k' n] c IH]; simpl.
  - destruct (eqb k x); reflexivity.
  - destruct (eqb x k') eqn:E1; simpl.
    + apply eqb_eq in E1; subst k'. destruct (eqb k x); reflexivity.
    + destruct (eqb k k') eqn:E2.
      * apply eqb_eq in E2; subst k'.
        assert (E3 : eqb k x = false).
        { apply eqb_neq_K. apply eqb_neq_K in E1. congruence. }
        now rewrite E3.
      * exact IH.
Qed.

Lemma counter_get_fold (l : list K) :
  forall (c : list (K * nat)) (k : K),
  counter_get eqb (fold_left (fun c k => counter_add eqb k c) l c) k
  = (counter_get eqb c k + count_occ dec l k)%nat.
Proof.
  induction l as [|x l IH]; intros c k; simpl.
  - lia.
  - rewrite IH, counter_get_add.
    destruct (dec x k) as [-> | Hne].
    + rewrite eqb_refl_K. lia.
    + assert (E : eqb k x = false) by (apply eqb_neq_K; congruence).
      rewrite E. lia.
Qed.

(** The count that a counter holds for a key is the number of its
    occurrences. *)
Lemma counter_get_Counter (l : list K) (k : K) :
  counter_get eqb (Counter eqb l) k = count_occ dec l k.
Proof. unfold Counter. now rewrite counter_get_fold. Qed.

Lemma counter_add_keys (x : K) (c : list (K * nat)) :
  NoDup (map fst c) /\ Forall (fun e => (0 < snd e)%nat) c ->
  NoDup (map fst (counter_add eqb x c)) /\
  Forall (fun e => (0 < snd e)%nat) (counter_add eqb x c) /\
  (forall k, In k (map fst (counter_add eqb x c)) <->
             k = x \/ In k (map fst c)).
Proof.
  induction c as [|[k' n] c IH]; intros [Hnd Hpos].
  - simpl. repeat split.
    + constructor; [intros [] | constructor].
    + repeat constructor.
    + intros [H | []]; auto.
    + intros [H | []]; auto.
  - simpl in Hnd. inversion Hnd as [|? ? Hnotin Hnd']; subst.
    inversion Hpos as [|? ? Hn Hpos']; subst.
    simpl. destruct (eqb x k') eqn:E.
    + apply eqb_eq in E; subst k'. simpl.
      repeat split.
      * constructor; assumption.
      * constructor; [simpl; lia | assumption].
      * intros [H | H]; auto.
      * intros [H | [H | H]]; auto.
    + destruct (IH (conj Hnd' Hpos')) as (IH1 & IH2 & IH3). simpl.
      repeat split.
      * constructor; [|assumption]. intros Hin. apply IH3 in Hin.
        destruct Hin as [Hin | Hin]; [|contradiction].
        apply eqb_neq_K in E. congruence.
      * constructor; assumption.
      * intros [H | H]; [auto|]. apply IH3 in H. tauto.
      * intros [H | [H | H]]; [right; apply IH3 | left | right; apply IH3];
          auto.
Qed.

Lemma Counter_keys (l : list K) :
  NoDup (map fst (Counter eqb l)) /\
  Forall (fun e => (0 < snd e)%nat) (Counter eqb l).
Proof.
  unfold Counter.
  assert (H : forall c,
            NoDup (map fst c) /\ Forall (fun e => (0 < snd e)%nat) c ->
            NoDup (map fst (fold_left (fun c k => counter_add eqb k c) l c)) /\
            Forall (fun e => (0 < snd e)%nat)
              (fold_left (fun c k => counter_add eqb k c) l c)).
  { induction l as [|x l IH]; intros c Hc; simpl; [assumption|].
    apply IH. destruct (counter_add_keys x c Hc) as (H1 & H2 & _). auto. }
  apply H. split; constructor.
Qed.

Lemma counter_get_in (c : list (K * nat)) (k : K) (n : nat) :
  NoDup (map fst c) -> In (k, n) c -> counter_get eqb c k = n.
Proof.
  induction c as [|[k' m] c IH]; intros Hnd Hin; [destruct Hin|].
  simpl in Hnd. inversion Hnd as [|? ? Hnotin Hnd']; subst.
  simpl. destruct Hin as [Heq | Hin].
  - injection Heq as -> ->. now rewrite eqb_refl_K.
  - destruct (eqb k k') eqn:E.
    + apply eqb_eq in E; subst k'. exfalso. apply Hnotin.
      apply in_map_iff. exists (k, n). auto.
    + now apply IH.
Qed.

Lemma counter_get_found (c : list (K * nat)) (k : K) :
  counter_get eqb c k <> 0%nat -> In (k, counter_get eqb c k) c.
Proof.
  induction c as [|[k' m] c IH]; simpl; intros H; [congruence|].
  destruct (eqb k k') eqn:E.
  - apply eqb_eq in E; subst k'. now left.
  - right. now apply IH.
Qed.

(** The counts of a counter add up to the length of the list. *)
Lemma counter_total_add (x : K) (c : list (K * nat)) :
  counter_total (counter_add eqb x c) = S (counter_total c).
Proof.
  unfold counter_total. induction c as [|[k' n] c IH]; simpl.
  - reflexivity.
  - destruct (eqb x k'); simpl; [reflexivity|]. rewrite IH. lia.
Qed.

Lemma counter_total_Counter (l : list K) :
  counter_total (Counter eqb l) = List.length l.
Proof.
  unfold Counter.
  assert (H : forall c,
            counter_total (fold_left (fun c k => counter_add eqb k c) l c)
            = (counter_total c + List.length l)%nat).
  { induction l as [|x l IH]; intros c; simpl; [lia|].
    rewrite IH, counter_total_add. lia. }
  now rewrite H.
Qed.

(** [most_common] sorts by decreasing count and keeps the entries. *)
Lemma insert_by_count_perm (e : K * nat) (sorted : list (K * nat)) :
  Permutation (insert_by_count e sorted) (e :: sorted).
Proof.
  induction sorted as [|e' rest IH]; simpl; [reflexivity|].
  destruct (Nat.ltb (snd e) (snd e')); [|reflexivity].
  rewrite IH. apply perm_swap.
Qed.

Lemma sorted_by_count_perm (c : list (K * nat)) :
  Permutation (fold_right insert_by_count [] c) c.
Proof.
  induction c as [|e c IH]; simpl; [reflexivity|].
  rewrite insert_by_count_perm. now constructor.
Qed.

Lemma insert_by_count_sorted (e : K * nat) (sorted : list (K * nat)) :
  StronglySorted (fun a b => (snd b <= snd a)%nat) sorted ->
  StronglySorted (fun a b => (snd b <= snd a)%nat) (insert_by_count e sorted).
Proof.
  induction 1 as [|e' rest Hs IH Hall]; simpl.
  - repeat constructor.
  - destruct (Nat.ltb (snd e) (snd e')) eqn:E.
    + apply Nat.ltb_lt in E. constructor; [exact IH|].
      apply Forall_forall. intros y Hy.
      apply (Permutation_in _ (insert_by_count_perm e rest)) in Hy.
      destruct Hy as [<- | Hy]; [lia|].
      rewrite Forall_forall in Hall. now apply Hall.
    + apply Nat.ltb_ge in E. constructor.
      * constructor; assumption.
      * constructor; [exact E|].
        eapply Forall_impl; [|exact Hall]. intros y Hy. simpl in Hy. lia.
Qed.

Lemma sorted_by_count_sorted (c : list (K * nat)) :
  StronglySorted (fun a b => (snd b <= snd a)%nat)
    (fold_right insert_by_count [] c).
Proof.
  induction c as [|e c IH]; simpl; [constructor|].
  now apply insert_by_count_sorted.
Qed.

(** The first entry of [most_common] of the counter of a non-empty list: a
    key of the list whose count is its number of occurrences, and no key
    occurs more often. *)
Lemma most_common_first (l : list K) (n : nat) :
  l <> [] -> (0 < n)%nat ->
  exists k m rest,
    most_common n (Counter eqb l) = (k, m) :: rest /\
    In k l /\ m = count_occ dec l k /\
    forall k', (count_occ dec l k' <= count_occ dec l k)%nat.
Proof.
  intros Hne Hn. unfold most_common.
  destruct (Counter_keys l) as [Hnd Hpos].
  pose proof (sorted_by_count_perm (Counter eqb l)) as Hperm.
  pose proof (sorted_by_count_sorted (Counter eqb l)) as Hsorted.
  destruct (fold_right insert_by_count [] (Counter eqb l))
    as [|[k m] rest] eqn:Es.
  - exfalso. apply Permutation_nil in Hperm.
    destruct l as [|x l]; [congruence|].
    pose proof (counter_get_Counter (x :: l) x) as Hx.
    rewrite Hperm in Hx. simpl in Hx.
    destruct (dec x x); [discriminate | congruence].
  - destruct n as [|n]; [lia|]. simpl firstn.
    exists k, m, (firstn n rest). split; [reflexivity|].
    assert (Hin : In (k, m) (Counter eqb l))
      by (apply (Permutation_in _ Hperm); now left).
    assert (Hm : m = count_occ dec l k).
    { rewrite <- counter_get_Counter. symmetry.
      now apply counter_get_in. }
    assert (Hmpos : (0 < m)%nat).
    { rewrite Forall_forall in Hpos. apply (Hpos (k, m) Hin). }
    split; [apply (count_occ_In dec); lia|]. split; [exact Hm|].
    intros k'. rewrite <- Hm.
    destruct (Nat.eq_dec (count_occ dec l k') 0) as [E | E]; [lia|].
    rewrite <- counter_get_Counter in E |- *.
    apply counter_get_found in E.
    apply (Permutation_in _ (Permutation_sym Hperm)) in E.
    destruct E as [E | E]; [injection E as _ <-; lia|].
    inversion Hsorted as [|? ? _ Hall]; subst.
    rewrite Forall_forall in Hall. apply (Hall _ E).
Qed.

End CounterFacts.

(** ** Summaries (chords.py, [create_chord_summary]; drums.py,
    [create_drum_summary]) *)

Section Summaries.
Import Collections ChordAnalysis DrumAnalysis.
Local Open Scope Q_scope.

(** For a non-empty label list [create_chord_summary] returns; its most
    common chord is a label of the list that no label outnumbers, every
    frequency is the number of occurrences of its label, and the
    frequencies add up to the progression length. *)
Theorem create_chord_summary_most_common (chord_labels : list string) :
  chord_labels <> [] ->
  exists summary,
    create_chord_summary chord_labels = Ok summary /\
    In (most_common_chord summary) chord_labels /\
    (forall l, (count_occ string_dec chord_labels l
                <= count_occ string_dec chord_labels
                     (most_common_chord summary))%nat) /\
    (forall l n, In (l, n) (chord_frequencies summary) ->
                 n = count_occ string_dec chord_labels l) /\
    counter_total (chord_frequencies summary) = progression_length summary /\
    progression_length summary = List.length chord_labels.
Proof.
  intros Hne. unfold create_chord_summary.
  destruct chord_labels as [|first rest] eqn:El; [congruence|].
  rewrite <- El in *.
  destruct (most_common_first string String.eqb String.eqb_eq string_dec
              chord_labels 1 Hne ltac:(lia))
    as (k & m & others & Hmc & Hin & Hm & Hmax).
  rewrite Hmc. eexists. split; [reflexivity|].
  cbn [most_common_chord chord_frequencies progression_length].
  split; [exact Hin|]. split; [exact Hmax|]. split.
  - intros l n Hln.
    rewrite <- (counter_get_Counter string String.eqb String.eqb_eq string_dec).
    symmetry.
    apply (counter_get_in string String.eqb String.eqb_eq); [|exact Hln].
    apply (Counter_keys string String.eqb String.eqb_eq).
  - split; [apply counter_total_Counter | reflexivity].
Qed.

Lemma create_chord_summary_most_common_witness :
  exists summary,
    create_chord_summary ["CM"; "GM"; "GM"; "CM"; "GM"]%string = Ok summary /\
    In (most_common_chord summary) ["CM"; "GM"; "GM"; "CM"; "GM"]%string /\
    (forall l, (count_occ string_dec ["CM"; "GM"; "GM"; "CM"; "GM"]%string l
                <= count_occ string_dec ["CM"; "GM"; "GM"; "CM"; "GM"]%string
                     (most_common_chord summary))%nat) /\
    (forall l n, In (l, n) (chord_frequencies summary) ->
                 n = count_occ string_dec
                       ["CM"; "GM"; "GM"; "CM"; "GM"]%string l) /\
    counter_total (chord_frequencies summary) = progression_length summary /\
    progression_length summary
    = List.length ["CM"; "GM"; "GM"; "CM"; "GM"]%string.
Proof.
  apply create_chord_summary_most_common. discriminate.
Defined.

Example create_chord_summary_five :
  create_chord_summary ["CM"; "GM"; "GM"; "CM"; "GM"]%string
  = Ok (mkChordSummary "GM" [("CM", 2); ("GM", 3)]%string%nat 5 (Some 2%nat)).
Proof. reflexivity. Qed.

Lemma py_min_least (xs : list Q) :
  forall x, py_min x xs <= x /\ Forall (fun y => py_min x xs <= y) xs.
Proof.
  unfold py_min. induction xs as [|y xs IH]; intros x; simpl.
  - split; [apply Qle_refl | constructor].
  - destruct (Qlt_le_dec y x) as [H | H].
    + destruct (IH y) as [H1 H2]. split; [lra|]. constructor; assumption.
    + destruct (IH x) as [H1 H2]. split; [assumption|].
      constructor; [lra | assumption].
Qed.

Lemma py_max_greatest (xs : list Q) :
  forall x,
  x <= DrumAnalysis.py_max x xs /\
  Forall (fun y => y <= DrumAnalysis.py_max x xs) xs.
Proof.
  unfold DrumAnalysis.py_max. induction xs as [|y xs IH]; intros x; simpl.
  - split; [apply Qle_refl | constructor].
  - destruct (Qlt_le_dec x y) as [H | H].
    + destruct (IH y) as [H1 H2]. split; [lra|]. constructor; assumption.
    + destruct (IH x) as [H1 H2]. split; [assumption|].
      constructor; [lra | assumption].
Qed.

Lemma counter_length_le_total (c : list (string * nat)) :
  Forall (fun e => (0 < snd e)%nat) c ->
  (List.length c <= counter_total c)%nat.
Proof.
  unfold counter_total.
  induction 1 as [|e c He _ IH]; simpl; lia.
Qed.

(** For a non-empty hit list [create_drum_summary] returns; its most
    common drum is the type of a hit and no type has more hits, every hit
    lies between [first_hit] and [last_hit], and the counts of the
    distribution add up to [total_hits]. *)
Theorem create_drum_summary_shape (drum_hits : list Drums.DrumHit) :
  drum_hits <> [] ->
  exists summary first last distribution,
    create_drum_summary drum_hits = Ok summary /\
    first_hit summary = Some first /\
    last_hit summary = Some last /\
    drum_distribution summary = Some distribution /\
    In (most_common_drum summary) (map Drums.type drum_hits) /\
    (forall t, (count_occ string_dec (map Drums.type drum_hits) t
                <= count_occ string_dec (map Drums.type drum_hits)
                     (most_common_drum summary))%nat) /\
    Forall (fun hit => first <= Drums.time hit /\ Drums.time hit <= last)
           drum_hits /\
    counter_total distribution = total_hits summary /\
    total_hits summary = List.length drum_hits /\
    (unique_drums summary <= total_hits summary)%nat.
Proof.
  intros Hne. unfold create_drum_summary.
  destruct drum_hits as [|hit hits] eqn:Eh; [congruence|].
  assert (Hne' : map Drums.type (hit :: hits) <> []) by discriminate.
  destruct (most_common_first string String.eqb String.eqb_eq string_dec
              (map Drums.type (hit :: hits)) 1 Hne' ltac:(lia))
    as (k & m & others & Hmc & Hin & Hm & Hmax).
  rewrite Hmc. do 4 eexists. split; [reflexivity|].
  cbn [most_common_drum first_hit last_hit drum_distribution total_hits
       unique_drums].
  split; [reflexivity|]. split; [reflexivity|]. split; [reflexivity|].
  split; [exact Hin|]. split; [exact Hmax|].
  pose proof (counter_total_Counter string String.eqb
                (map Drums.type (hit :: hits))) as Htotal.
  rewrite length_map in Htotal.
  split; [|split; [exact Htotal | split; [reflexivity|]]].
  - destruct (py_min_least (map Drums.time hits) (Drums.time hit))
      as [Hmin1 Hmin2].
    destruct (py_max_greatest (map Drums.time hits) (Drums.time hit))
      as [Hmax1 Hmax2].
    rewrite Forall_map in Hmin2, Hmax2.
    constructor; [split; assumption|].
    rewrite Forall_forall in *. intros h Hh. split; auto.
  - rewrite <- Htotal.
    destruct (Counter_keys string String.eqb String.eqb_eq
                (map Drums.type (hit :: hits))) as [_ Hpos].
    now apply counter_length_le_total.
Qed.

Lemma create_drum_summary_shape_witness :
  exists summary first last distribution,
    create_drum_summary
      [ Drums.mkDrumHit 0 "kick" 0 4410;
        Drums.mkDrumHit (1 # 2) "hat" 19845 26460;
        Drums.mkDrumHit 1 "hat" 41895 48510 ] = Ok summary /\
    first_hit summary = Some first /\
    last_hit summary = Some last /\
    drum_distribution summary = Some distribution /\
    In (most_common_drum summary)
       (map Drums.type
          [ Drums.mkDrumHit 0 "kick" 0 4410;
            Drums.mkDrumHit (1 # 2) "hat" 19845 26460;
            Drums.mkDrumHit 1 "hat" 41895 48510 ]) /\
    (forall t,
       (count_occ string_dec
          (map Drums.type
             [ Drums.mkDrumHit 0 "kick" 0 4410;
               Drums.mkDrumHit (1 # 2) "hat" 19845 26460;
               Drums.mkDrumHit 1 "hat" 41895 48510 ]) t
        <= count_occ string_dec
             (map Drums.type
                [ Drums.mkDrumHit 0 "kick" 0 4410;
                  Drums.mkDrumHit (1 # 2) "hat" 19845 26460;
                  Drums.mkDrumHit 1 "hat" 41895 48510 ])
             (most_common_drum summary))%nat) /\
    Forall (fun hit => first <= Drums.time hit /\ Drums.time hit <= last)
           [ Drums.mkDrumHit 0 "kick" 0 4410;
             Drums.mkDrumHit (1 # 2) "hat" 19845 26460;
             Drums.mkDrumHit 1 "hat" 41895 48510 ] /\
    counter_total distribution = total_hits summary /\
    total_hits summary
    = List.length
        [ Drums.mkDrumHit 0 "kick" 0 4410;
          Drums.mkDrumHit (1 # 2) "hat" 19845 26460;
          Drums.mkDrumHit 1 "hat" 41895 48510 ] /\
    (unique_drums summary <= total_hits summary)%nat.
Proof.
  apply create_drum_summary_shape. discriminate.
Defined.

Example create_drum_summary_three :
  create_drum_summary
    [ Drums.mkDrumHit 0 "kick" 0 4410;
      Drums.mkDrumHit (1 # 2) "hat" 19845 26460;
      Drums.mkDrumHit 1 "hat" 41895 48510 ]
  = Ok (mkDrumSummary "hat" 3 2 (Some 0) (Some 1)
          (Some [("kick", 1); ("hat", 2)]%string%nat)).
Proof. reflexivity. Qed.

End Summaries.

(** ** The loop estimate on four hits or more (drums.py,
    [detect_drum_loop]) *)

Section DrumLoopBounds.
Import Drums.
Local Open Scope Q_scope.

Lemma Counter_as_collection (l : list Q) :
  Counter l = Collections.Counter Qeq_bool l.
Proof. reflexivity. Qed.

Lemma most_common_as_collection (n : nat) (c : list (Q * nat)) :
  most_common n c = Collections.most_common n c.
Proof. reflexivity. Qed.

(** The keys of a counter come from the list and its counts are positive,
    whatever the equality test. *)
Lemma counter_entries {K : Type} (eqb : K -> K -> bool) (l : list K) :
  Forall (fun e => In (fst e) l /\ (0 < snd e)%nat)
         (Collections.Counter eqb l).
Proof.
  unfold Collections.Counter.
  assert (Hadd : forall x c (P : K -> Prop),
            P x -> Forall (fun e => P (fst e) /\ (0 < snd e)%nat) c ->
            Forall (fun e => P (fst e) /\ (0 < snd e)%nat)
                   (Collections.counter_add eqb x c)).
  { intros x c P Hx. induction 1 as [|[k n] c [Hk Hn] Hc IH]; simpl.
    - constructor; [simpl; split; [assumption | lia] | constructor].
    - simpl in Hk, Hn. destruct (eqb x k).
      + constructor; [simpl; split; [assumption | lia] | assumption].
      + constructor; [simpl; split; assumption | assumption]. }
  assert (H : forall pre c,
            Forall (fun e => In (fst e) (pre ++ l) /\ (0 < snd e)%nat) c ->
            Forall (fun e => In (fst e) (pre ++ l) /\ (0 < snd e)%nat)
              (fold_left (fun c k => Collections.counter_add eqb k c) l c)).
  { induction l as [|x l IH]; intros pre c Hc; simpl; [assumption|].
    replace (pre ++ x :: l) with ((pre ++ [x]) ++ l) in *
      by (rewrite <- app_assoc; reflexivity).
    apply IH. apply (Hadd x c (fun k => In k ((pre ++ [x]) ++ l)));
      [|assumption].
    apply in_or_app. left. apply in_or_app. right. now left. }
  apply (H [] []). constructor.
Qed.

Lemma firstn_total_le {K : Type} (n : nat) (c : list (K * nat)) :
  (Collections.counter_total (firstn n c) <= Collections.counter_total c)%nat.
Proof.
  unfold Collections.counter_total. revert n.
  induction c as [|e c IH]; intros [|n]; simpl; try lia.
  specialize (IH n). lia.
Qed.

Lemma total_ge_length {K : Type} (c : list (K * nat)) :
  Forall (fun e => (0 < snd e)%nat) c ->
  (List.length c <= Collections.counter_total c)%nat.
Proof.
  unfold Collections.counter_total.
  induction 1 as [|e c He _ IH]; simpl; lia.
Qed.

Lemma counter_total_perm {K : Type} (c c' : list (K * nat)) :
  Permutation c c' ->
  Collections.counter_total c = Collections.counter_total c'.
Proof.
  unfold Collections.counter_total.
  induction 1; simpl; lia.
Qed.

(** The position of a time within its beat lies in [0, 1), for a beat
    interval of either sign. *)
Lemma beat_position_range (hit_time beat_interval : Q) :
  ~ beat_interval == 0 ->
  0 <= py_mod hit_time beat_interval / beat_interval < 1.
Proof.
  intros Hbi. unfold py_mod.
  set (z := hit_time / beat_interval).
  assert (E : (hit_time - inject_Z (Qfloor z) * beat_interval) / beat_interval
              == z - inject_Z (Qfloor z)) by (unfold z; field; exact Hbi).
  rewrite E.
  pose proof (Qfloor_le z) as H1. pose proof (Qlt_floor z) as H2.
  rewrite inject_Z_plus in H2. change (inject_Z 1) with 1 in H2.
  split; lra.
Qed.

Lemma round_half_even_range (x : Q) :
  (Qfloor x <= round_half_even x <= Qfloor x + 1)%Z.
Proof.
  unfold round_half_even.
  destruct (Qlt_le_dec _ _); [lia|].
  destruct (Qlt_le_dec _ _); [lia|].
  destruct (Z.even _); lia.
Qed.

(** Rounded to two decimals, a position of [0, 1) lies in [0, 1]. *)
Lemma py_round2_range (p : Q) : 0 <= p < 1 -> 0 <= py_round2 p <= 1.
Proof.
  intros [H0 H1]. unfold py_round2.
  pose proof (round_half_even_range (p * 100)) as [Hlo Hhi].
  assert (Hf0 : (0 <= Qfloor (p * 100))%Z).
  { apply (Qfloor_resp_le 0 (p * 100)). lra. }
  assert (Hf1 : (Qfloor (p * 100) < 100)%Z).
  { rewrite Zlt_Qlt. apply Qle_lt_trans with (p * 100); [apply Qfloor_le|].
    change (inject_Z 100) with 100. lra. }
  assert (Hr0 : 0 <= inject_Z (round_half_even (p * 100))).
  { assert (Hz : (0 <= round_half_even (p * 100))%Z) by lia.
    rewrite Zle_Qle in Hz. exact Hz. }
  assert (Hr1 : inject_Z (round_half_even (p * 100)) <= 100).
  { assert (Hz : (round_half_even (p * 100) <= 100)%Z) by lia.
    rewrite Zle_Qle in Hz. exact Hz. }
  split.
  - apply Qle_shift_div_l; [reflexivity | lra].
  - apply Qle_shift_div_r; [reflexivity | lra].
Qed.

Lemma py_int_nonneg (x : Q) : 0 <= x -> (0 <= py_int x)%Z.
Proof.
  intros H. unfold py_int. destruct (Qlt_le_dec x 0); [lra|].
  apply (Qfloor_resp_le 0 x H).
Qed.

(** With four hits or more and a tempo other than zero [detect_drum_loop]
    returns between one and four common positions, each a phase between 0
    and 1 (1 included, by rounding); the loop length is their number, the
    loop confidence lies in (0, 1] and the repetitions are not negative. *)
Theorem detect_drum_loop_bounds (drum_hits : list DrumHit) (tempo : Q) :
  (4 <= List.length drum_hits)%nat ->
  ~ tempo == 0 ->
  exists result positions,
    detect_drum_loop drum_hits tempo = Ok result /\
    common_positions result = Some positions /\
    loop_length result = List.length positions /\
    (1 <= loop_length result <= 4)%nat /\
    0 < loop_confidence result <= 1 /\
    Forall (fun p => 0 <= p <= 1) positions /\
    (0 <= repetitions result)%Z.
Proof.
  intros Hlen Ht. unfold detect_drum_loop.
  assert (E1 : Nat.ltb (List.length drum_hits) 4 = false)
    by (apply Nat.ltb_ge; lia).
  assert (E2 : Qeq_bool tempo 0 = false).
  { apply not_true_is_false. now rewrite Qeq_bool_iff. }
  rewrite E1, E2. cbv zeta.
  assert (Hbi : ~ 60 / tempo == 0).
  { intros H. assert (E : 60 / tempo * tempo == 60) by (field; exact Ht).
    rewrite H in E. vm_compute in E. discriminate. }
  set (bi := 60 / tempo) in *.
  set (rounded := map py_round2
                    (map (fun hit_time => py_mod hit_time bi / bi)
                         (map time drum_hits))).
  rewrite Counter_as_collection, most_common_as_collection.
  set (c := Collections.Counter Qeq_bool rounded).
  set (common := Collections.most_common 4 c).
  assert (Hrounded : List.length rounded = List.length drum_hits)
    by (unfold rounded; now rewrite !length_map).
  assert (Htotal : Collections.counter_total c = List.length drum_hits).
  { unfold c. rewrite counter_total_Counter. exact Hrounded. }
  pose proof (counter_entries Qeq_bool rounded) as Hentries. fold c in Hentries.
  pose proof (sorted_by_count_perm Q c) as Hperm.
  assert (Hcommon : forall e, In e common ->
                              In (fst e) rounded /\ (0 < snd e)%nat).
  { intros e He. unfold common, Collections.most_common in He.
    assert (He' : In e (fold_right Collections.insert_by_count [] c)).
    { rewrite <- (firstn_skipn 4). apply in_or_app. now left. }
    apply (Permutation_in _ Hperm) in He'.
    rewrite Forall_forall in Hentries. now apply Hentries. }
  assert (Hsum_le : (Collections.counter_total common
                     <= List.length drum_hits)%nat).
  { rewrite <- Htotal, <- (counter_total_perm _ _ Hperm).
    apply firstn_total_le. }
  assert (Hcne : c <> []).
  { intros Hc. rewrite Hc in Htotal.
    change (Collections.counter_total (@nil (Q * nat))) with 0%nat in Htotal.
    lia. }
  assert (Hclen : List.length common = Nat.min 4 (List.length c)).
  { unfold common, Collections.most_common.
    now rewrite length_firstn, (Permutation_length Hperm). }
  assert (Hcpos : (0 < List.length c)%nat)
    by (destruct c; [congruence | simpl; lia]).
  assert (Hsum_pos : (0 < Collections.counter_total common)%nat).
  { assert (Hall : Forall (fun e : Q * nat => (0 < snd e)%nat) common).
    { apply Forall_forall. intros e He. now apply Hcommon. }
    pose proof (total_ge_length common Hall). lia. }
  do 2 eexists. split; [reflexivity|].
  cbn [common_positions loop_length loop_confidence repetitions].
  split; [reflexivity|]. rewrite length_map.
  split; [reflexivity|]. split; [lia|].
  change (fold_right Nat.add 0%nat (map snd common))
    with (Collections.counter_total common).
  assert (Hn : 0 < inject_Z (Z.of_nat (List.length drum_hits))).
  { change 0 with (inject_Z 0). rewrite <- Zlt_Qlt. lia. }
  assert (Hs : 0 < inject_Z (Z.of_nat (Collections.counter_total common))).
  { change 0 with (inject_Z 0). rewrite <- Zlt_Qlt. lia. }
  assert (Hsn : inject_Z (Z.of_nat (Collections.counter_total common))
                <= inject_Z (Z.of_nat (List.length drum_hits))).
  { rewrite <- Zle_Qle. lia. }
  assert (Hconf : 0 < inject_Z (Z.of_nat (Collections.counter_total common))
                      / inject_Z (Z.of_nat (List.length drum_hits)) <= 1).
  { split.
    - apply Qlt_shift_div_l; [assumption | lra].
    - apply Qle_shift_div_r; [assumption | lra]. }
  split; [exact Hconf|]. split.
  - apply Forall_forall. intros p Hp.
    apply in_map_iff in Hp. destruct Hp as (e & <- & He).
    destruct (Hcommon e He) as [Hin _]. unfold rounded in Hin.
    apply in_map_iff in Hin. destruct Hin as (pos & <- & Hpos).
    apply py_round2_range.
    apply in_map_iff in Hpos. destruct Hpos as (t & <- & _).
    now apply beat_position_range.
  - assert (E3 : Nat.ltb 0 (List.length common) = true)
      by (apply Nat.ltb_lt; lia).
    rewrite E3. apply py_int_nonneg.
    assert (Hl : 0 < inject_Z (Z.of_nat (List.length common))).
    { change 0 with (inject_Z 0). rewrite <- Zlt_Qlt. lia. }
    apply Qle_shift_div_l; [assumption|].
    rewrite Qmult_0_l. apply Qmult_le_0_compat; lra.
Qed.

Lemma detect_drum_loop_bounds_witness :
  exists result positions,
    detect_drum_loop
      [ mkDrumHit 0 "kick" 0 0; mkDrumHit (1 # 2) "kick" 0 0;
        mkDrumHit 1 "kick" 0 0; mkDrumHit (5 # 4) "kick" 0 0 ] 120
    = Ok result /\
    common_positions result = Some positions /\
    loop_length result = List.length positions /\
    (1 <= loop_length result <= 4)%nat /\
    0 < loop_confidence result <= 1 /\
    Forall (fun p => 0 <= p <= 1) positions /\
    (0 <= repetitions result)%Z.
Proof.
  apply detect_drum_loop_bounds.
  - simpl; lia.
  - vm_compute; discriminate.
Defined.

(** A hit just before the beat has a phase that rounds to 1.0. *)
Example detect_drum_loop_phase_one :
  match detect_drum_loop
          [ mkDrumHit (499 # 1000) "kick" 0 0; mkDrumHit (499 # 1000) "kick" 0 0;
            mkDrumHit (499 # 1000) "kick" 0 0; mkDrumHit (499 # 1000) "kick" 0 0 ]
          120 with
  | Ok result => option_map (map Qred) (common_positions result) = Some [1]
  | _ => False
  end.
Proof. vm_compute. reflexivity. Qed.

End DrumLoopBounds.

(** ** Syncopation and time signature (timing.py, [calculate_syncopation],
    [detect_time_signature]) *)

Section RhythmStatistics.
Import Timing TimingAnalysis.
Local Open Scope Q_scope.

(** The body of the loop of [calculate_syncopation]. *)
Let syncopation_step (beat_interval : Q) (count : nat) (onset_time : Q)
    : nat :=
  let beat_position := py_mod onset_time beat_interval / beat_interval in
  if (if Qlt_le_dec (1 # 4) beat_position then true else false)
     && (if Qlt_le_dec beat_position (3 # 4) then true else false)
  then S count else count.

Lemma syncopated_count_bound (beat_interval : Q) (onset_times : list Q) :
  forall count : nat,
  (fold_left (syncopation_step beat_interval) onset_times count
   <= count + List.length onset_times)%nat.
Proof.
  unfold syncopation_step.
  induction onset_times as [|t ts IH]; intros count; simpl; [lia|].
  match goal with |- context [if ?c then S count else count] =>
    destruct c end.
  - specialize (IH (S count)). lia.
  - specialize (IH count). lia.
Qed.

(** With two onsets or more and a tempo other than zero the syncopation is
    a fraction between 0 and 1. *)
Theorem calculate_syncopation_range (onset_times : list Q) (tempo : Q)
    (sr : Z) :
  (2 <= List.length onset_times)%nat ->
  ~ tempo == 0 ->
  exists syncopation,
    calculate_syncopation onset_times tempo sr = Ok syncopation /\
    0 <= syncopation <= 1.
Proof.
  intros Hlen Ht. unfold calculate_syncopation.
  assert (E1 : Nat.ltb (List.length onset_times) 2 = false)
    by (apply Nat.ltb_ge; lia).
  assert (E2 : Qeq_bool tempo 0 = false).
  { apply not_true_is_false. now rewrite Qeq_bool_iff. }
  rewrite E1, E2. cbv zeta. eexists. split; [reflexivity|].
  apply ratio_in_unit; [|lia].
  apply (syncopated_count_bound (60 / tempo) onset_times 0).
Qed.

Lemma calculate_syncopation_range_witness :
  exists syncopation,
    calculate_syncopation [0; 1 # 4; 1 # 2; 3 # 4] 120 44100
    = Ok syncopation /\
    0 <= syncopation <= 1.
Proof.
  apply calculate_syncopation_range.
  - simpl; lia.
  - vm_compute; discriminate.
Defined.

(** Onsets at 0, 0.25, 0.5 and 0.75 s at 120 beats per minute: the two in
    the middle of a beat are syncopated. *)
Example calculate_syncopation_half :
  match calculate_syncopation [0; 1 # 4; 1 # 2; 3 # 4] 120 44100 with
  | Ok syncopation => Qred syncopation = 1 # 2
  | _ => False
  end.
Proof. vm_compute. reflexivity. Qed.

Lemma py_mod_multiple (k : Z) (y : Q) :
  ~ y == 0 -> py_mod (inject_Z k * y) y == 0.
Proof.
  intros Hy. unfold py_mod.
  assert (E : inject_Z k * y / y == inject_Z k) by (field; exact Hy).
  rewrite E, Qfloor_Z. ring.
Qed.

Lemma syncopated_count_on_grid (beat_interval : Q) (onset_times : list Q) :
  ~ beat_interval == 0 ->
  Forall (fun t => exists k : Z, t == inject_Z k * beat_interval)
         onset_times ->
  forall count : nat,
  fold_left (syncopation_step beat_interval) onset_times count = count.
Proof.
  unfold syncopation_step.
  intros Hbi. induction 1 as [|t ts [k Hk] _ IH]; intros count; simpl.
  - reflexivity.
  - assert (E : py_mod t beat_interval / beat_interval == 0).
    { assert (E1 : t / beat_interval == inject_Z k)
        by (rewrite Hk; field; exact Hbi).
      assert (E2 : Qfloor (t / beat_interval) = k)
        by (rewrite E1; apply Qfloor_Z).
      unfold py_mod. rewrite E2.
      setoid_replace (t - inject_Z k * beat_interval) with 0
        by (rewrite Hk; ring).
      field. exact Hbi. }
    destruct (Qlt_le_dec (1 # 4) (py_mod t beat_interval / beat_interval))
      as [H | H]; [rewrite E in H; discriminate H|].
    simpl. apply IH.
Qed.

(** Onsets that all fall on whole multiples of the beat interval have
    syncopation 0. *)
Theorem calculate_syncopation_on_grid (onset_times : list Q) (tempo : Q)
    (sr : Z) :
  ~ tempo == 0 ->
  Forall (fun t => exists k : Z, t == inject_Z k * (60 / tempo)) onset_times ->
  exists syncopation,
    calculate_syncopation onset_times tempo sr = Ok syncopation /\
    syncopation == 0.
Proof.
  intros Ht Hgrid. unfold calculate_syncopation.
  destruct (Nat.ltb (List.length onset_times) 2);
    [exists 0; split; reflexivity|].
  assert (E2 : Qeq_bool tempo 0 = false).
  { apply not_true_is_false. now rewrite Qeq_bool_iff. }
  rewrite E2. cbv zeta. eexists. split; [reflexivity|].
  pose proof (syncopated_count_on_grid (60 / tempo) onset_times
                (beat_interval_nonzero tempo Ht) Hgrid 0%nat) as Hc.
  unfold syncopation_step in Hc. cbv zeta in Hc. rewrite Hc.
  unfold Qdiv. change (inject_Z (Z.of_nat 0)) with 0. ring.
Qed.

Lemma calculate_syncopation_on_grid_witness :
  exists syncopation,
    calculate_syncopation [0; 1 # 2; 1; 2] 120 44100 = Ok syncopation /\
    syncopation == 0.
Proof.
  apply calculate_syncopation_on_grid.
  - vm_compute; discriminate.
  - repeat constructor;
      [exists 0%Z | exists 1%Z | exists 2%Z | exists 4%Z]; reflexivity.
Defined.

(** The differences of a periodic grid. *)
Lemma np_diff_progression (n : nat) :
  forall start step : Q,
  Forall (fun d => d == step) (np_diff (progression start step n)).
Proof.
  induction n as [|[|n] IH]; intros start step.
  - constructor.
  - constructor.
  - specialize (IH (start + step) step).
    cbn [progression np_diff] in *. constructor; [ring | exact IH].
Qed.

Lemma measure_boundaries_none (beat_interval : Q) (diffs : list Q) :
  Forall (fun d => d <= beat_interval * (3 # 2)) diffs ->
  forall i, measure_boundaries_from beat_interval diffs i = [].
Proof.
  induction 1 as [|d diffs Hd _ IH]; intros i; simpl; [reflexivity|].
  destruct (Qlt_le_dec (beat_interval * (3 # 2)) d); [lra | apply IH].
Qed.

Variable set_iter : list nat -> list nat.

(** On eight or more beats of a periodic grid of step [60 / tempo], as
    [refine_beat_grid] makes them, no gap is a measure boundary and the
    answer is 4/4 with confidence 0.3. *)
Theorem detect_time_signature_periodic_grid (start tempo : Q) (n : nat) :
  0 < tempo ->
  (8 <= n)%nat ->
  detect_time_signature set_iter (progression start (60 / tempo) n) tempo
  = Ok {| numerator := 4; denominator := 4; confidence := 3 # 10 |}.
Proof.
  intros Ht Hn. unfold detect_time_signature.
  rewrite length_progression.
  assert (E1 : Nat.ltb n 8 = false) by (apply Nat.ltb_ge; lia).
  assert (E2 : Qeq_bool tempo 0 = false).
  { apply not_true_is_false. rewrite Qeq_bool_iff. lra. }
  rewrite E1, E2. cbv zeta.
  rewrite measure_boundaries_none; [reflexivity|].
  pose proof (beat_interval_pos tempo Ht) as Hbi.
  eapply Forall_impl; [|apply np_diff_progression].
  intros d Hd. simpl in Hd. rewrite Hd. lra.
Qed.

End RhythmStatistics.

Lemma detect_time_signature_periodic_grid_witness :
  TimingAnalysis.detect_time_signature (nodup Nat.eq_dec)
    (Timing.progression (1 # 2) (60 / 120) 10) 120
  = Ok {| Timing.numerator := 4; Timing.denominator := 4;
          Timing.confidence := 3 # 10 |}.
Proof.
  apply detect_time_signature_periodic_grid.
  - reflexivity.
  - lia.
Defined.

(** Beats with a gap after every third one: measures of three beats. *)
Example detect_time_signature_three :
  TimingAnalysis.detect_time_signature (nodup Nat.eq_dec)
    [0; 1 # 2; 1; 2; 5 # 2; 3; 4; 9 # 2; 5] 120
  = Ok {| Timing.numerator := 3; Timing.denominator := 4;
          Timing.confidence := 3 # 3 |}.
Proof. vm_compute. reflexivity. Qed.

(** ** The drum type of a window and of the onsets (drums.py,
    [classify_drum_segment], [classify_drum_hits]) *)

Section DrumTypes.
Import Drums DrumAnalysis.
Local Open Scope R_scope.

Lemma fft_abs_nonneg (x : list R) : Forall (fun y => 0 <= y) (fft_abs x).
Proof.
  unfold fft_abs. apply Forall_forall. intros y Hy.
  apply in_map_iff in Hy. destruct Hy as (k & <- & _). apply sqrt_pos.
Qed.

Lemma band_energy_nonneg (band : R * R) (freqs fft : list R) :
  Forall (fun y => 0 <= y) fft -> 0 <= band_energy band freqs fft.
Proof.
  intros H. unfold band_energy. apply np_sum_nonneg.
  now apply mask_select_Forall.
Qed.

Lemma band_energies_nonneg (segment : list R) (sr : Z) :
  let '(kick, snare, hat) := band_energies segment sr in
  0 <= kick /\ 0 <= snare /\ 0 <= hat.
Proof.
  unfold band_energies.
  repeat split; apply band_energy_nonneg; apply mask_select_Forall;
    apply fft_abs_nonneg.
Qed.

Lemma ratio_above (c x t : R) : 0 < t -> (c < x / t <-> c * t < x).
Proof.
  intros Ht. assert (E : x / t * t = x) by (field; lra).
  set (y := x / t) in *. split; intros H; nra.
Qed.

(** What [classify_drum_segment] returns on a non-empty window whose band
    energies do not all vanish, in terms of the three band energies. *)
Lemma classify_drum_segment_cases (segment : list R) (sr : Z) :
  segment <> [] -> sr <> 0%Z ->
  let '(kick, snare, hat) := band_energies segment sr in
  kick + snare + hat <> 0 ->
  classify_drum_segment segment sr
  = Ok (if Rltb Config.DRUM_THRESH_kick_lowband (kick / (kick + snare + hat))
        then "kick"%string
        else if Rltb Config.DRUM_THRESH_snare_mid (snare / (kick + snare + hat))
        then "snare"%string
        else if Rltb Config.DRUM_THRESH_hat_high (hat / (kick + snare + hat))
        then "hat"%string
        else "unknown"%string).
Proof.
  intros Hne Hsr. unfold band_energies, classify_drum_segment.
  assert (Hd : IZR sr <> 0) by (intros H; apply eq_IZR_R0 in H; contradiction).
  destruct segment as [|x xs]; [congruence|].
  cbn [List.length Nat.eqb].
  rewrite (true_divide_nonzero 1 (IZR sr) Hd). cbn [bind].
  intros Hnz.
  match goal with |- context [Req_dec_T ?t 0] =>
    destruct (Req_dec_T t 0) as [Hz | _]; [contradiction|] end.
  rewrite !(true_divide_nonzero _ _ Hnz). cbn [bind].
  repeat match goal with |- context [if ?c then _ else _] =>
    destruct c end; reflexivity.
Qed.

(** On a non-empty window with some band energy, each of the types kick,
    snare and hat is returned exactly when its own share of the band energy
    exceeds its threshold: the thresholds are above one half, so two shares
    never pass together and the order of the three tests decides
    nothing. *)
Theorem classify_drum_segment_own_share (segment : list R) (sr : Z)
    (kick snare hat : R) :
  segment <> [] -> sr <> 0%Z ->
  band_energies segment sr = (kick, snare, hat) ->
  kick + snare + hat <> 0 ->
  (classify_drum_segment segment sr = Ok "kick"%string
   <-> 65 / 100 < kick / (kick + snare + hat)) /\
  (classify_drum_segment segment sr = Ok "snare"%string
   <-> 6 / 10 < snare / (kick + snare + hat)) /\
  (classify_drum_segment segment sr = Ok "hat"%string
   <-> 6 / 10 < hat / (kick + snare + hat)).
Proof.
  intros Hne Hsr Hbands Hnz.
  pose proof (classify_drum_segment_cases segment sr Hne Hsr) as Hcases.
  pose proof (band_energies_nonneg segment sr) as Hpos.
  rewrite Hbands in Hcases, Hpos.
  rewrite (Hcases Hnz). clear Hcases.
  destruct Hpos as (Hk & Hs & Hh).
  assert (Ht : 0 < kick + snare + hat) by lra.
  unfold Config.DRUM_THRESH_kick_lowband, Config.DRUM_THRESH_snare_mid,
    Config.DRUM_THRESH_hat_high, Rltb.
  pose proof (ratio_above (65 / 100) kick _ Ht) as Rk.
  pose proof (ratio_above (6 / 10) snare _ Ht) as Rs.
  pose proof (ratio_above (6 / 10) hat _ Ht) as Rh.
  destruct (Rlt_dec (65 / 100) (kick / (kick + snare + hat))) as [H1 | H1];
    [|destruct (Rlt_dec (6 / 10) (snare / (kick + snare + hat))) as [H2 | H2];
      [|destruct (Rlt_dec (6 / 10) (hat / (kick + snare + hat))) as [H3 | H3]]].
  - split; [tauto|]. split; (split; [discriminate|]); intros H;
      exfalso; apply Rk in H1; [apply Rs in H | apply Rh in H]; lra.
  - split; [split; [discriminate | tauto]|].
    split; [tauto|]. split; [discriminate|]. intros H.
    exfalso. apply Rs in H2. apply Rh in H. lra.
  - split; [split; [discriminate | tauto]|].
    split; [split; [discriminate | tauto] | tauto].
  - split; [split; [discriminate | tauto]|].
    split; split; try discriminate; tauto.
Qed.

(** The band energies of a click of four samples at 400 Hz. *)
Lemma band_energies_click : band_energies [1; 0; 0; 0] 400 = (1, 0, 0).
Proof.
  unfold band_energies. cbn [List.length].
  rewrite fftfreq_4_400. cbn [map].
  rewrite (Rltb_false 0 0), (Rltb_true 0 100), (Rltb_false 0 (-200)),
    (Rltb_false 0 (-100)) by lra.
  unfold fft_abs. cbn [List.length seq map mask_select combine filter fst snd].
  rewrite fft_re_click, fft_im_click.
  replace (1 * 1 + 0 * 0) with (1 * 1) by ring. rewrite sqrt_square by lra.
  unfold band_energy, Config.DRUM_FREQ_BANDS_kick,
    Config.DRUM_FREQ_BANDS_snare, Config.DRUM_FREQ_BANDS_hat.
  cbn [map fst snd].
  rewrite (Rleb_true 20 100), (Rleb_true 100 150), (Rleb_false 150 100),
    (Rleb_false 800 100) by lra.
  cbn [andb mask_select combine filter map fst snd np_sum fold_right].
  repeat f_equal; ring.
Qed.

Lemma classify_drum_segment_own_share_witness :
  (classify_drum_segment [1; 0; 0; 0] 400 = Ok "kick"%string
   <-> 65 / 100 < 1 / (1 + 0 + 0)) /\
  (classify_drum_segment [1; 0; 0; 0] 400 = Ok "snare"%string
   <-> 6 / 10 < 0 / (1 + 0 + 0)) /\
  (classify_drum_segment [1; 0; 0; 0] 400 = Ok "hat"%string
   <-> 6 / 10 < 0 / (1 + 0 + 0)).
Proof.
  apply (classify_drum_segment_own_share [1; 0; 0; 0] 400 1 0 0).
  - discriminate.
  - discriminate.
  - exact band_energies_click.
  - lra.
Defined.

(** At a sample rate other than zero the type is one of the four names. *)
Lemma classify_drum_segment_type (segment : list R) (sr : Z) :
  sr <> 0%Z ->
  exists drum_type,
    classify_drum_segment segment sr = Ok drum_type /\
    In drum_type ["kick"; "snare"; "hat"; "unknown"]%string.
Proof.
  intros Hsr.
  assert (Hd : IZR sr <> 0) by (intros H; apply eq_IZR_R0 in H; contradiction).
  unfold classify_drum_segment.
  destruct (Nat.eqb (List.length segment) 0);
    [eexists; split; [reflexivity | simpl; tauto]|].
  rewrite (true_divide_nonzero 1 (IZR sr) Hd). cbn [bind].
  match goal with |- context [Req_dec_T ?t 0] =>
    destruct (Req_dec_T t 0) as [Hz | Hnz] end;
    [eexists; split; [reflexivity | simpl; tauto]|].
  rewrite !(true_divide_nonzero _ _ Hnz). cbn [bind].
  repeat match goal with |- context [if ?c then _ else _] =>
    destruct c end;
    (eexists; split; [reflexivity | simpl; tauto]).
Qed.

End DrumTypes.

Section DrumHits.
Import Drums DrumAnalysis.
Local Open Scope Q_scope.

(** What every hit of [classify_drum_hits] satisfies. *)
Let hit_ok (audio : list R) (onset_times : list Q) (hit : DrumHit) : Prop :=
  In (time hit) onset_times /\
  (0 <= start_sample hit < end_sample hit)%Z /\
  (end_sample hit <= Z.of_nat (List.length audio))%Z /\
  In (type hit) ["kick"; "snare"; "hat"; "unknown"]%string.

Lemma py_int_zero (x : Q) : x == 0 -> py_int x = 0%Z.
Proof.
  intros H. unfold py_int. destruct (Qlt_le_dec x 0); [lra|].
  rewrite H. reflexivity.
Qed.

Lemma classify_drum_hits_loop_ok (audio : list R) (sr : Z)
    (all_onsets : list Q) (onset_times : list Q) :
  forall drum_hits : list DrumHit,
  incl onset_times all_onsets ->
  Forall (hit_ok audio all_onsets) drum_hits ->
  exists hits,
    classify_drum_hits_loop audio sr onset_times drum_hits = Ok hits /\
    Forall (hit_ok audio all_onsets) hits /\
    (List.length hits
     <= List.length drum_hits + List.length onset_times)%nat.
Proof.
  induction onset_times as [|t rest IH]; intros acc Hincl Hacc.
  - exists acc. split; [reflexivity|]. split; [assumption | simpl; lia].
  - assert (Hrest : incl rest all_onsets).
    { intros x Hx. apply Hincl. now right. }
    cbn [classify_drum_hits_loop].
    set (start := Z.max 0 (py_int ((t - (1 # 20)) * inject_Z sr))).
    set (stop := Z.min (Z.of_nat (List.length audio))
                       (py_int ((t + (1 # 10)) * inject_Z sr))).
    destruct (Z.leb stop start) eqn:E.
    + destruct (IH acc Hrest Hacc) as (hits & Hrun & Hok & Hlen).
      exists hits. split; [exact Hrun|]. split; [exact Hok | simpl; lia].
    + apply Z.leb_gt in E.
      assert (Hsr : sr <> 0%Z).
      { intros ->. unfold start, stop in E.
        rewrite (py_int_zero ((t - (1 # 20)) * inject_Z 0)) in E
          by (change (inject_Z 0) with 0; ring).
        rewrite (py_int_zero ((t + (1 # 10)) * inject_Z 0)) in E
          by (change (inject_Z 0) with 0; ring).
        lia. }
      destruct (classify_drum_segment_type (slice audio start stop) sr Hsr)
        as (drum_type & Hcl & Htype).
      rewrite Hcl. cbn [bind].
      destruct (IH (acc ++ [ {| time := t; type := drum_type;
                                start_sample := start;
                                end_sample := stop |} ]) Hrest)
        as (hits & Hrun & Hok & Hlen).
      { apply Forall_app. split; [assumption|]. constructor; [|constructor].
        unfold hit_ok. cbn [time type start_sample end_sample].
        split; [apply Hincl; now left|].
        split; [unfold start in *; lia|].
        split; [unfold stop; lia | exact Htype]. }
      exists hits. split; [exact Hrun|]. split; [exact Hok|].
      rewrite length_app in Hlen. simpl in *. lia.
Qed.

(** [classify_drum_hits] returns at every sample rate, zero included
    (every window is then empty and skipped).  Each hit sits at one of the
    onsets, its window is a non-empty span of samples inside the audio,
    its type is one of kick, snare, hat and unknown, and there are no more
    hits than onsets. *)
Theorem classify_drum_hits_shape (audio : list R) (onset_times : list Q)
    (sr : Z) :
  exists hits,
    classify_drum_hits audio onset_times sr = Ok hits /\
    Forall (fun hit =>
              In (time hit) onset_times /\
              (0 <= start_sample hit < end_sample hit)%Z /\
              (end_sample hit <= Z.of_nat (List.length audio))%Z /\
              In (type hit) ["kick"; "snare"; "hat"; "unknown"]%string)
           hits /\
    (List.length hits <= List.length onset_times)%nat.
Proof.
  unfold classify_drum_hits.
  destruct (classify_drum_hits_loop_ok audio sr onset_times onset_times []
              (incl_refl _) (Forall_nil _)) as (hits & Hrun & Hok & Hlen).
  exists hits. split; [exact Hrun|]. split; [exact Hok | simpl in Hlen; lia].
Qed.

(** At sample rate 0 every window is empty and no hit is made. *)
Example classify_drum_hits_sr_zero :
  classify_drum_hits [0; 0; 0; 0; 0; 0]%R [1 # 10; 5] 0 = Ok [].
Proof.
  unfold classify_drum_hits. cbn [classify_drum_hits_loop].
  reflexivity.
Qed.

End DrumHits.

(** ** The melody pipeline (melody.py, [extract_melody_to_midi],
    [create_midi_from_notes]) *)

Section MelodyMidi.
Import Melody MelodyPipeline.
Local Open Scope Q_scope.

(** A note that can be written to a MIDI track. *)
Let playable (n : Note) : Prop :=
  (0 <= pitch n <= 127)%Z /\ start_time n < end_time n.

Lemma f0_notes_playable (hz_to_midi_round : Q -> Z)
    (f0_times f0_frequencies f0_confidence : list Q)
    (confidence_threshold min_note_duration max_note_duration : Q) :
  List.length f0_times = List.length f0_confidence ->
  List.length f0_frequencies = List.length f0_confidence ->
  0 < min_note_duration ->
  exists notes,
    f0_to_midi_notes hz_to_midi_round f0_times f0_frequencies f0_confidence
      confidence_threshold min_note_duration max_note_duration = Ok notes /\
    Forall playable notes.
Proof.
  intros Ht Hf Hmin.
  assert (Hb : exists bound, Forall (fun c => c <= bound) f0_confidence).
  { clear. induction f0_confidence as [|c l [b IH]].
    - exists 0. constructor.
    - exists (Qmax c b). constructor; [apply Q.le_max_l|].
      eapply Forall_impl; [|exact IH]. intros a Ha. simpl in Ha.
      apply Qle_trans with b; [assumption | apply Q.le_max_r]. }
  destruct Hb as [bound Hb].
  destruct (f0_notes_note_ok min_note_duration max_note_duration
              confidence_threshold bound hz_to_midi_round
              f0_times f0_frequencies f0_confidence Ht Hf Hb)
    as (notes & Hrun & Hok).
  exists notes. split; [exact Hrun|].
  assert (Hdur : Forall (fun n => min_note_duration <= duration n /\
                                  duration n <= max_note_duration /\
                                  duration n = end_time n - start_time n)
                        notes).
  { revert Hrun. unfold f0_to_midi_notes.
    rewrite Ht, Hf, !Nat.eqb_refl. simpl negb. cbv iota.
    destruct (mask_select _ f0_times); [intros [= <-]; constructor|].
    match goal with |- context [match ?vt with [] => _ | _ :: _ => _ end] =>
      destruct vt as [|t0 ts] end; [intros [= <-]; constructor|].
    match goal with
    |- context [match ?vn with [] => Ok [] | _ :: _ => _ end] =>
      destruct vn as [|p0 ps] end; [intros [= <-]; constructor|].
    match goal with
    |- context [match ?vc with [] => Ok [] | _ :: _ => _ end] =>
      destruct vc as [|c0 cs] end; [intros [= <-]; constructor|].
    intros [= <-].
    apply (segment_loop_within_bounds min_note_duration max_note_duration).
    constructor. }
  rewrite Forall_forall in *. intros n Hn.
  destruct (Hok n Hn) as (Hp & _). destruct (Hdur n Hn) as (H1 & _ & H3).
  split; [exact Hp|]. rewrite H3 in H1. lra.
Qed.

Lemma quantize_note_playable (beat_times : list Q) (strength : Q) (n : Note) :
  (0 <= pitch n <= 127)%Z -> playable (quantize_note beat_times strength n).
Proof.
  intros Hp. unfold playable, quantize_note; cbv zeta.
  cbn [pitch start_time end_time]. split; [exact Hp|].
  unfold Config.MELODY_MIN_NOTE_DURATION.
  match goal with |- context [Qlt_le_dec ?a ?b] =>
    destruct (Qlt_le_dec a b) end; lra.
Qed.

Lemma min_pitch_bounds (ps : list Z) :
  forall p lo hi,
  (lo <= p <= hi)%Z -> Forall (fun q => (lo <= q <= hi)%Z) ps ->
  (lo <= min_pitch p ps <= hi)%Z /\ (min_pitch p ps <= p)%Z.
Proof.
  unfold min_pitch. induction ps as [|q ps IH]; intros p lo hi Hp Hall; simpl.
  - lia.
  - inversion Hall; subst.
    destruct (IH (Z.min p q) lo hi ltac:(lia) ltac:(assumption)). lia.
Qed.

Lemma max_pitch_bounds (ps : list Z) :
  forall p lo hi,
  (lo <= p <= hi)%Z -> Forall (fun q => (lo <= q <= hi)%Z) ps ->
  (lo <= max_pitch p ps <= hi)%Z /\ (p <= max_pitch p ps)%Z.
Proof.
  unfold max_pitch. induction ps as [|q ps IH]; intros p lo hi Hp Hall; simpl.
  - lia.
  - inversion Hall; subst.
    destruct (IH (Z.max p q) lo hi ltac:(lia) ltac:(assumption)). lia.
Qed.

Variable extract_melody_f0 : list Q -> Z -> list Q * list Q * list Q.
Variable hz_to_midi_round : Q -> Z.
Variable beat_track_tempo : list Q -> Z -> Q.

(** [f0_to_midi_notes] returns only on arrays of one length. *)
Lemma f0_to_midi_notes_lengths (f0_times f0_frequencies f0_confidence : list Q)
    (confidence_threshold min_note_duration max_note_duration : Q)
    (notes : list Note) :
  f0_to_midi_notes hz_to_midi_round f0_times f0_frequencies f0_confidence
    confidence_threshold min_note_duration max_note_duration = Ok notes ->
  List.length f0_times = List.length f0_confidence /\
  List.length f0_frequencies = List.length f0_confidence.
Proof.
  unfold f0_to_midi_notes.
  destruct (Nat.eqb (List.length f0_times) (List.length f0_confidence)) eqn:E1;
    [|discriminate].
  destruct (Nat.eqb (List.length f0_frequencies) (List.length f0_confidence))
    eqn:E2; [|discriminate].
  intros _. split; now apply Nat.eqb_eq.
Qed.

(** Whenever [extract_melody_to_midi] returns, quantized or not, the MIDI
    track has one note per melody note, in order, with its pitch, velocity,
    start and end; every note has a pitch from 0 to 127 and starts before it
    ends; the statistics count the notes and give a pitch range inside
    0..127 with its low end not above its high end; and the tempo of the
    result is not zero. *)
Theorem extract_melody_to_midi_playable (audio : list Q) (sr : Z)
    (tempo : option Q) (beat_times : option (list Q)) (quantize : bool)
    (confidence_threshold : Q) (result : MelodyResult) :
  extract_melody_to_midi extract_melody_f0 hz_to_midi_round
    beat_track_tempo audio sr tempo beat_times quantize
    confidence_threshold = Ok result ->
  map Drums.notes (Drums.instruments (midi result))
  = [ map (fun n => Drums.mkMidiNote (velocity n) (pitch n)
                      (start_time n) (end_time n)) (notes result) ] /\
  Forall (fun n => (0 <= pitch n <= 127)%Z /\ start_time n < end_time n)
         (notes result) /\
  total_notes (statistics result) = List.length (notes result) /\
  (0 <= fst (pitch_range (statistics result))
     <= snd (pitch_range (statistics result)))%Z /\
  (snd (pitch_range (statistics result)) <= 127)%Z /\
  ~ MelodyPipeline.tempo result == 0.
Proof.
  unfold extract_melody_to_midi.
  destruct (extract_melody_f0 audio sr) as [[times frequencies] confidences].
  destruct (f0_to_midi_notes hz_to_midi_round times frequencies confidences
              confidence_threshold Config.MELODY_MIN_NOTE_DURATION
              Config.MELODY_MAX_NOTE_DURATION) as [raw0| | |] eqn:Hrun0;
    cbn [bind]; try discriminate.
  destruct (f0_to_midi_notes_lengths _ _ _ _ _ _ _ Hrun0) as [Ht Hf].
  destruct (f0_notes_playable hz_to_midi_round times frequencies confidences
              confidence_threshold Config.MELODY_MIN_NOTE_DURATION
              Config.MELODY_MAX_NOTE_DURATION Ht Hf ltac:(reflexivity))
    as (raw & Hrun & Hraw).
  rewrite Hrun in Hrun0. injection Hrun0 as <-.
  set (final := match beat_times with
                | Some (b :: bs) =>
                    if quantize
                    then quantize_notes_to_beats raw (b :: bs) (1 # 2)
                    else raw
                | _ => raw
                end).
  assert (Hfinal : Forall playable final).
  { unfold final. destruct beat_times as [[|b bs]|]; try assumption.
    destruct quantize; [|assumption].
    rewrite quantize_notes_to_beats_map by discriminate.
    apply Forall_forall. intros q Hq.
    apply in_map_iff in Hq. destruct Hq as (n & <- & Hn).
    apply quantize_note_playable.
    rewrite Forall_forall in Hraw. apply (Hraw n Hn). }
  unfold create_midi_from_notes.
  set (used := match tempo with
               | Some t => t
               | None => beat_track_tempo audio sr
               end).
  destruct (Qeq_bool used 0) eqn:Etempo; cbn [bind]; [discriminate|].
  intros [= <-].
  cbn [midi notes statistics MelodyPipeline.tempo Drums.instruments map
       Drums.notes].
  split; [reflexivity|].
  split; [exact Hfinal|].
  assert (Hstats :
            total_notes (melody_statistics final) = List.length final /\
            (0 <= fst (pitch_range (melody_statistics final))
               <= snd (pitch_range (melody_statistics final)))%Z /\
            (snd (pitch_range (melody_statistics final)) <= 127)%Z).
  { unfold melody_statistics. destruct final as [|n ns].
    - simpl. repeat split; lia.
    - cbn [total_notes pitch_range fst snd]. split; [reflexivity|].
      inversion Hfinal as [|? ? [Hp _] Hns]; subst.
      assert (Hps : Forall (fun q => (0 <= q <= 127)%Z) (map pitch ns)).
      { rewrite Forall_map. eapply Forall_impl; [|exact Hns].
        intros a [Ha _]. exact Ha. }
      destruct (min_pitch_bounds (map pitch ns) (pitch n) 0 127 Hp Hps).
      destruct (max_pitch_bounds (map pitch ns) (pitch n) 0 127 Hp Hps).
      lia. }
  destruct Hstats as (H1 & H2 & H3).
  split; [exact H1|]. split; [exact H2|]. split; [exact H3|].
  now apply Qeq_bool_neq.
Qed.

End MelodyMidi.

Lemma extract_melody_to_midi_playable_witness :
  exists result,
    MelodyPipeline.extract_melody_to_midi
      (fun _ _ => ([0; 1 # 10; 2 # 10; 3 # 10; 4 # 10],
                   [440; 440; 440; 26163 # 100; 26163 # 100],
                   [9 # 10; 9 # 10; 9 # 10; 8 # 10; 8 # 10])%Q)
      Melody.hz_to_midi_round_exact (fun _ _ => 120%Q)
      (repeat 0%Q 16) 4 None (Some [0; 1 # 2; 1]%Q) true (5 # 10)%Q
    = Ok result /\
    map Drums.notes (Drums.instruments (MelodyPipeline.midi result))
    = [ map (fun n => Drums.mkMidiNote (Melody.velocity n) (Melody.pitch n)
                        (Melody.start_time n) (Melody.end_time n))
            (MelodyPipeline.notes result) ] /\
    Forall (fun n => (0 <= Melody.pitch n <= 127)%Z /\
                     (Melody.start_time n < Melody.end_time n)%Q)
           (MelodyPipeline.notes result) /\
    MelodyPipeline.total_notes (MelodyPipeline.statistics result)
    = List.length (MelodyPipeline.notes result) /\
    (0 <= fst (MelodyPipeline.pitch_range (MelodyPipeline.statistics result))
       <= snd (MelodyPipeline.pitch_range (MelodyPipeline.statistics result)))%Z
    /\
    (snd (MelodyPipeline.pitch_range (MelodyPipeline.statistics result))
     <= 127)%Z /\
    ~ (MelodyPipeline.tempo result == 0)%Q.
Proof.
  eexists. split.
  - vm_compute. reflexivity.
  - apply (extract_melody_to_midi_playable
             (fun _ _ => ([0; 1 # 10; 2 # 10; 3 # 10; 4 # 10],
                          [440; 440; 440; 26163 # 100; 26163 # 100],
                          [9 # 10; 9 # 10; 9 # 10; 8 # 10; 8 # 10])%Q)
             Melody.hz_to_midi_round_exact (fun _ _ => 120%Q)
             (repeat 0%Q 16) 4%Z None (Some [0; 1 # 2; 1]%Q) true (5 # 10)%Q).
    vm_compute. reflexivity.
Defined.

(** Called with [tempo=0.0] the pipeline raises: the MIDI object cannot
    be made. *)
Example extract_melody_to_midi_tempo_zero :
  MelodyPipeline.extract_melody_to_midi
    (fun _ _ => ([], [], [])) Melody.hz_to_midi_round_exact (fun _ _ => 120%Q)
    (repeat 0%Q 16) 4 (Some 0%Q) None false (5 # 10)%Q
  = ZeroDivisionError.
Proof. reflexivity. Qed.

(** The same contour, quantized at the default strength to beats at 0,
    0.5 and 1 s: A4 from 0 to 0.1 s, then C4 from 0.4 s, lengthened to the
    minimum of 0.1 s. *)
Example extract_melody_to_midi_two_notes :
  match MelodyPipeline.extract_melody_to_midi
          (fun _ _ => ([0; 1 # 10; 2 # 10; 3 # 10; 4 # 10],
                       [440; 440; 440; 26163 # 100; 26163 # 100],
                       [9 # 10; 9 # 10; 9 # 10; 8 # 10; 8 # 10]))
          Melody.hz_to_midi_round_exact (fun _ _ => 120)
          (repeat 0 16) 4 None (Some [0; 1 # 2; 1]) true (5 # 10) with
  | Ok result =>
      map (fun n => (Melody.pitch n, Qred (Melody.start_time n),
                     Qred (Melody.end_time n)))
          (MelodyPipeline.notes result)
      = [(69%Z, 0, 1 # 10); (60%Z, 2 # 5, 1 # 2)] /\
      MelodyPipeline.pitch_range (MelodyPipeline.statistics result)
      = (60%Z, 69%Z) /\
      MelodyPipeline.tempo result = 120
  | _ => False
  end.
Proof. vm_compute. repeat split. Qed.

(** ** Hits by type and the drum track (drums.py,
    [filter_drum_hits_by_type], [create_drum_midi]) *)

Section DrumTrackSize.
Import Drums DrumAnalysis.
Local Open Scope Q_scope.

(** For hits of the four types that the classifier returns, the drum track
    has as many notes as there are kick and snare hits: the hat and unknown
    hits add none. *)
Theorem create_drum_midi_note_count (drum_hits : list DrumHit) (tempo : Q) :
  Forall (fun hit => In (type hit) ["kick"; "snare"; "hat"; "unknown"]%string)
         drum_hits ->
  map (fun track => List.length (notes track))
      (instruments (create_drum_midi drum_hits tempo))
  = [ (List.length (filter_drum_hits_by_type drum_hits "kick")
       + List.length (filter_drum_hits_by_type drum_hits "snare"))%nat ].
Proof.
  intros Htypes. unfold create_drum_midi. cbn [instruments map notes].
  rewrite fold_add_drum_note. cbn [app]. f_equal.
  unfold filter_drum_hits_by_type.
  induction Htypes as [|hit hits Hhit _ IH]; [reflexivity|].
  cbn [flat_map filter]. rewrite length_app, IH.
  unfold drum_notes_of, add_drum_note.
  destruct Hhit as [H | [H | [H | [H | []]]]]; rewrite <- H; simpl; lia.
Qed.

Lemma create_drum_midi_note_count_witness :
  map (fun track => List.length (notes track))
      (instruments
         (create_drum_midi
            [ mkDrumHit 0 "kick" 0 4410;
              mkDrumHit (1 # 2) "hat" 19845 26460;
              mkDrumHit 1 "snare" 41895 48510 ] 120))
  = [ (List.length
         (filter_drum_hits_by_type
            [ mkDrumHit 0 "kick" 0 4410;
              mkDrumHit (1 # 2) "hat" 19845 26460;
              mkDrumHit 1 "snare" 41895 48510 ] "kick")
       + List.length
           (filter_drum_hits_by_type
              [ mkDrumHit 0 "kick" 0 4410;
                mkDrumHit (1 # 2) "hat" 19845 26460;
                mkDrumHit 1 "snare" 41895 48510 ] "snare"))%nat ].
Proof.
  apply create_drum_midi_note_count.
  repeat constructor; simpl; tauto.
Defined.

End DrumTrackSize.

(** ** The key of a chroma matrix (chords.py, [detect_key_from_chroma]) *)

Section KeyConfidence.
Import KeyDetection.
Local Open Scope R_scope.

Lemma corrcoef_le_1 (x y : list R) : corrcoef x y <= 1.
Proof. unfold corrcoef. apply Rmin_r. Qed.

(** The greatest of a start value and the values of a list. *)
Let greatest (l : list R) (c : R) : R := fold_left Rmax l c.

Lemma greatest_range (l : list R) :
  forall c, 0 <= c <= 1 -> Forall (fun v => v <= 1) l ->
  0 <= greatest l c <= 1.
Proof.
  unfold greatest. induction l as [|v l IH]; intros c Hc Hall; simpl.
  - exact Hc.
  - inversion Hall; subst. apply IH; [|assumption]. split.
    + apply Rle_trans with c; [apply Hc | apply Rmax_l].
    + apply Rmax_lub; [apply Hc | assumption].
Qed.

Lemma pick_is_Rmax (a v : R) : (if Rlt_dec a v then v else a) = Rmax a v.
Proof.
  unfold Rmax. destruct (Rlt_dec a v), (Rle_dec a v); lra.
Qed.

(** The correlations that the loop compares, in the order of the loop. *)
Let correlations (avg_chroma : list R) (indices : list nat) : list R :=
  flat_map (fun i => [ corrcoef avg_chroma (np_roll major_profile i);
                       corrcoef avg_chroma (np_roll minor_profile i) ])
           indices.

(** The confidence that the loop ends with is the greatest of the start
    confidence and the correlations. *)
Lemma key_loop_confidence (avg_chroma : list R) (indices : list nat) :
  forall best : string * R * string,
  snd (fst (fold_left (key_step avg_chroma) indices best))
  = greatest (correlations avg_chroma indices) (snd (fst best)).
Proof.
  unfold greatest, correlations.
  induction indices as [|i indices IH]; intros best; [reflexivity|].
  cbn [fold_left flat_map app]. rewrite IH. f_equal.
  unfold key_step. cbv zeta.
  rewrite <- !pick_is_Rmax.
  destruct (Rlt_dec (snd (fst best)) _); cbn [fst snd];
    destruct (Rlt_dec _ _); reflexivity.
Qed.

(** The key and the mode that the loop ends with are those it started
    with or the name of an index and one of the two modes. *)
Lemma key_loop_label (avg_chroma : list R) (indices : list nat) :
  forall best : string * R * string,
  Forall (fun i => (i < 12)%nat) indices ->
  In (fst (fst best)) ChordAnalysis.NOTE_NAMES ->
  snd best = "major"%string \/ snd best = "minor"%string ->
  In (fst (fst (fold_left (key_step avg_chroma) indices best)))
     ChordAnalysis.NOTE_NAMES /\
  (snd (fold_left (key_step avg_chroma) indices best) = "major"%string \/
   snd (fold_left (key_step avg_chroma) indices best) = "minor"%string).
Proof.
  induction indices as [|i indices IH]; intros best Hall Hkey Hmode;
    [split; assumption|].
  inversion Hall as [|? ? Hi Hrest]; subst.
  cbn [fold_left]. apply IH; [assumption | |].
  - unfold key_step. cbv zeta.
    destruct (Rlt_dec (snd (fst best)) _); cbn [fst snd];
      destruct (Rlt_dec _ _); cbn [fst snd];
      try assumption; apply nth_In; exact Hi.
  - unfold key_step. cbv zeta.
    destruct (Rlt_dec (snd (fst best)) _); cbn [fst snd];
      destruct (Rlt_dec _ _); cbn [fst snd]; auto.
Qed.

(** For every chroma matrix of twelve rows the key that
    [detect_key_from_chroma] returns is one of the twelve note names
    followed by [major] or [minor], and its confidence lies between 0 and
    1: the greatest of 0 and the profile correlations, which [np.corrcoef]
    clips to [[-1, 1]]. *)
Theorem detect_key_label_and_confidence (chroma : list (list R)) :
  List.length chroma = 12%nat ->
  (exists name mode,
     In name ChordAnalysis.NOTE_NAMES /\
     (mode = "major"%string \/ mode = "minor"%string) /\
     fst (detect_key_from_chroma chroma) = (name ++ " " ++ mode)%string) /\
  0 <= snd (detect_key_from_chroma chroma) <= 1.
Proof.
  intros _. unfold detect_key_from_chroma. cbv zeta.
  pose proof (key_loop_confidence (map np_mean chroma) (seq 0 12)
                ("C"%string, 0, "major"%string)) as Hconf.
  assert (Hidx : Forall (fun i => (i < 12)%nat) (seq 0 12)).
  { apply Forall_forall. intros i Hi. apply in_seq in Hi. lia. }
  destruct (key_loop_label (map np_mean chroma) (seq 0 12)
              ("C"%string, 0, "major"%string) Hidx)
    as [Hkey Hmode]; [simpl; auto | now left|].
  destruct (fold_left _ _ _) as [[k c] m]. cbn [fst snd] in *.
  split; [exists k, m; auto|].
  rewrite Hconf. apply greatest_range; [lra|].
  unfold correlations. apply Forall_forall. intros v Hv.
  apply in_flat_map in Hv. destruct Hv as (i & _ & [<- | [<- | []]]);
    apply corrcoef_le_1.
Qed.

End KeyConfidence.

Lemma detect_key_label_and_confidence_witness :
  (let chroma :=
     [[1; 1]; [0; 0]; [0; 1]; [0; 0]; [1; 0]; [0; 0];
      [0; 0]; [1; 1]; [0; 0]; [0; 0]; [0; 0]; [0; 0]] in
   (exists name mode,
      In name ChordAnalysis.NOTE_NAMES /\
      (mode = "major"%string \/ mode = "minor"%string) /\
      fst (KeyDetection.detect_key_from_chroma chroma)
      = (name ++ " " ++ mode)%string) /\
   0 <= snd (KeyDetection.detect_key_from_chroma chroma) <= 1)%R.
Proof.
  apply (detect_key_label_and_confidence
           [[1; 1]; [0; 0]; [0; 1]; [0; 0]; [1; 0]; [0; 0];
            [0; 0]; [1; 1]; [0; 0]; [0; 0]; [0; 0]; [0; 0]]%R).
  reflexivity.
Defined.

(** ** The time signature of any beat list (timing.py,
    [detect_time_signature]) *)

Section TimeSignatureShape.
Import Timing TimingAnalysis.
Local Open Scope Q_scope.

Variable set_iter : list nat -> list nat.

(** Iterating over [set(xs)] gives the elements of [xs]. *)
Hypothesis set_iter_elements : forall l x, In x (set_iter l) <-> In x l.

Lemma np_diff_length (l : list Q) :
  List.length (np_diff l) = (List.length l - 1)%nat.
Proof.
  induction l as [|x [|y r] IH]; [reflexivity | reflexivity|].
  change (np_diff (x :: y :: r)) with ((y - x) :: np_diff (y :: r)).
  cbn [List.length] in *. lia.
Qed.

(** The measures between the boundaries: each has at least one beat, and
    the last boundary is an index into the beat list. *)
Lemma measures_shape (beat_interval : Q) (diffs : list Q) :
  forall (i prev : nat) (acc measures : list nat) (last_boundary : nat),
  (prev <= i)%nat ->
  beats_per_measure_from (measure_boundaries_from beat_interval diffs i)
    prev acc = (measures, last_boundary) ->
  (prev <= last_boundary <= i + List.length diffs)%nat /\
  exists gaps,
    measures = acc ++ gaps /\
    Forall (fun g => (1 <= g <= i + List.length diffs)%nat) gaps.
Proof.
  induction diffs as [|diff rest IH];
    intros i prev acc measures last_boundary Hprev Hrun.
  - simpl in Hrun. injection Hrun as <- <-. cbn [List.length].
    split; [lia|]. exists []. split; [now rewrite app_nil_r | constructor].
  - cbn [measure_boundaries_from] in Hrun.
    destruct (Qlt_le_dec (beat_interval * (3 # 2)) diff).
    + cbn [beats_per_measure_from] in Hrun.
      destruct (IH (S i) (S i) (acc ++ [(S i - prev)%nat]) measures
                   last_boundary (Nat.le_refl _) Hrun)
        as (Hb & gaps & -> & Hgaps).
      cbn [List.length]. split; [lia|].
      exists ((S i - prev)%nat :: gaps). split; [now rewrite <- app_assoc|].
      constructor; [lia|].
      eapply Forall_impl; [|exact Hgaps]. intros g Hg. simpl in Hg. lia.
    + destruct (IH (S i) prev acc measures last_boundary ltac:(lia) Hrun)
        as (Hb & gaps & -> & Hgaps).
      cbn [List.length]. split; [lia|].
      exists gaps. split; [reflexivity|].
      eapply Forall_impl; [|exact Hgaps]. intros g Hg. simpl in Hg. lia.
Qed.

Lemma max_by_key_In (key : nat -> nat) (xs : list nat) :
  forall best, In (max_by_key key xs best) (best :: xs).
Proof.
  induction xs as [|x xs IH]; intros best; simpl.
  - now left.
  - destruct (Nat.ltb (key best) (key x)).
    + destruct (IH x) as [H | H]; [right; left; exact H | right; right; exact H].
    + destruct (IH best) as [H | H]; [left; exact H | right; right; exact H].
Qed.

(** The count that wins is an element of the measure list. *)
Lemma numerator_choice (beats_per_measure : list nat) (upper : nat) :
  beats_per_measure <> [] ->
  Forall (fun g => (1 <= g <= upper)%nat) beats_per_measure ->
  exists first others,
    set_iter beats_per_measure = first :: others /\
    (1 <= max_by_key (count_occ Nat.eq_dec beats_per_measure) others first
     <= upper)%nat /\
    (1 <= count_occ Nat.eq_dec beats_per_measure
            (max_by_key (count_occ Nat.eq_dec beats_per_measure) others first)
     <= List.length beats_per_measure)%nat.
Proof.
  intros Hne Hall.
  destruct (set_iter beats_per_measure) as [|first others] eqn:Es.
  - destruct beats_per_measure as [|g gs]; [congruence|].
    assert (H : In g (set_iter (g :: gs)))
      by (apply set_iter_elements; now left).
    rewrite Es in H. destruct H.
  - exists first, others. split; [reflexivity|].
    set (num := max_by_key (count_occ Nat.eq_dec beats_per_measure)
                  others first).
    assert (Hin : In num beats_per_measure).
    { apply set_iter_elements. rewrite Es. apply max_by_key_In. }
    split.
    + rewrite Forall_forall in Hall. now apply Hall.
    + split.
      * apply (count_occ_In Nat.eq_dec) in Hin. lia.
      * apply count_occ_bound.
Qed.

(** For a tempo that is not zero [detect_time_signature] returns for every
    beat list: the denominator is 4, the numerator is at least 1 and at most
    the number of beats (or 4, the default), and the confidence is above 0
    and at most 1. *)
Theorem detect_time_signature_well_formed (beat_times : list Q) (tempo : Q) :
  ~ tempo == 0 ->
  exists ts,
    detect_time_signature set_iter beat_times tempo = Ok ts /\
    denominator ts = 4%Z /\
    (1 <= numerator ts <= Z.max 4 (Z.of_nat (List.length beat_times)))%Z /\
    0 < confidence ts <= 1.
Proof.
  intros Ht. unfold detect_time_signature.
  destruct (Nat.ltb (List.length beat_times) 8) eqn:Hlen.
  { eexists. split; [reflexivity|]. cbn [denominator numerator confidence].
    split; [reflexivity|]. split; [lia | lra]. }
  apply Nat.ltb_ge in Hlen.
  destruct (Qeq_bool tempo 0) eqn:Hz; [apply Qeq_bool_iff in Hz; contradiction|].
  cbv zeta.
  destruct (measure_boundaries_from (60 / tempo) (np_diff beat_times) 0)
    as [|b bs] eqn:Eb.
  { eexists. split; [reflexivity|]. cbn [denominator numerator confidence].
    split; [reflexivity|]. split; [lia | lra]. }
  rewrite <- Eb.
  destruct (beats_per_measure_from
              (measure_boundaries_from (60 / tempo) (np_diff beat_times) 0)
              0 []) as [measures prev_boundary] eqn:Em.
  destruct (measures_shape _ _ _ _ _ _ _ (Nat.le_refl 0) Em)
    as (Hprev & gaps & Hm & Hgaps).
  rewrite np_diff_length in Hprev, Hgaps. simpl in Hm. subst measures.
  assert (Hlast : Z.ltb 0 (Z.of_nat (List.length beat_times)
                           - Z.of_nat prev_boundary) = true)
    by (apply Z.ltb_lt; lia).
  rewrite Hlast.
  set (bpm := gaps ++ [Z.to_nat (Z.of_nat (List.length beat_times)
                                 - Z.of_nat prev_boundary)]).
  assert (Hne : bpm <> []) by (unfold bpm; now destruct gaps).
  assert (Hall : Forall (fun g => (1 <= g <= List.length beat_times)%nat) bpm).
  { unfold bpm. apply Forall_app. split.
    - eapply Forall_impl; [|exact Hgaps]. intros g Hg. simpl in Hg. lia.
    - constructor; [lia | constructor]. }
  destruct (numerator_choice bpm (List.length beat_times) Hne Hall)
    as (first & others & Es & Hnum & Hcount).
  destruct bpm as [|g gs] eqn:Ebpm; [congruence|]. rewrite <- Ebpm in *.
  rewrite Es. eexists. split; [reflexivity|].
  cbn [denominator numerator confidence].
  change (fun x : nat => count_occ Nat.eq_dec bpm x)
    with (count_occ Nat.eq_dec bpm).
  split; [reflexivity|]. split; [lia|].
  set (c := count_occ Nat.eq_dec bpm _) in *.
  assert (Hc : 0 < inject_Z (Z.of_nat c))
    by (change 0 with (inject_Z 0); rewrite <- Zlt_Qlt; lia).
  assert (Hl : inject_Z (Z.of_nat c)
               <= inject_Z (Z.of_nat (List.length bpm)))
    by (rewrite <- Zle_Qle; lia).
  split.
  - apply Qlt_shift_div_l; lra.
  - apply Qle_shift_div_r; lra.
Qed.

End TimeSignatureShape.

Lemma detect_time_signature_well_formed_witness :
  exists ts,
    TimingAnalysis.detect_time_signature (nodup Nat.eq_dec)
      [0; 1 # 2; 1; 2; 5 # 2; 3; 4; 9 # 2; 5; 11 # 2]%Q 120%Q = Ok ts /\
    Timing.denominator ts = 4%Z /\
    (1 <= Timing.numerator ts
     <= Z.max 4 (Z.of_nat
                   (List.length
                      [0; 1 # 2; 1; 2; 5 # 2; 3; 4; 9 # 2; 5; 11 # 2]%Q)))%Z /\
    (0 < Timing.confidence ts <= 1)%Q.
Proof.
  apply (detect_time_signature_well_formed (nodup Nat.eq_dec)
           (fun l x => nodup_In Nat.eq_dec l x)).
  vm_compute. discriminate.
Defined.

Example detect_time_signature_uneven :
  TimingAnalysis.detect_time_signature (nodup Nat.eq_dec)
    [0; 1 # 2; 1; 2; 5 # 2; 3; 4; 9 # 2; 5; 11 # 2]%Q 120%Q
  = Ok {| Timing.numerator := 3; Timing.denominator := 4;
          Timing.confidence := 2 # 3 |}.
Proof. vm_compute. reflexivity. Qed.

(** ** The characteristics of a melody (melody.py,
    [analyze_melody_characteristics]) *)

Section MelodyCharacteristicsShape.
Import Melody MelodyAnalysis.
Local Open Scope Q_scope.

Lemma min_pitch_least (ps : list Z) :
  forall p,
  (MelodyPipeline.min_pitch p ps <= p)%Z /\
  Forall (fun q => (MelodyPipeline.min_pitch p ps <= q)%Z) ps.
Proof.
  unfold MelodyPipeline.min_pitch.
  induction ps as [|q ps IH]; intros p; simpl.
  - split; [lia | constructor].
  - destruct (IH (Z.min p q)) as [H1 H2]. split; [lia|].
    constructor; [lia | assumption].
Qed.

Lemma max_pitch_greatest (ps : list Z) :
  forall p,
  (p <= MelodyPipeline.max_pitch p ps)%Z /\
  Forall (fun q => (q <= MelodyPipeline.max_pitch p ps)%Z) ps.
Proof.
  unfold MelodyPipeline.max_pitch.
  induction ps as [|q ps IH]; intros p; simpl.
  - split; [lia | constructor].
  - destruct (IH (Z.max p q)) as [H1 H2]. split; [lia|].
    constructor; [lia | assumption].
Qed.

(** Pitches between two bounds are never further apart than the bounds. *)
Lemma intervals_bounded (lo hi : Z) (pitches : list Z) :
  Forall (fun q => (lo <= q <= hi)%Z) pitches ->
  Forall (fun i => (- (hi - lo) <= i <= hi - lo)%Z) (intervals_of pitches).
Proof.
  induction pitches as [|p [|q rest] IH]; intros Hall;
    [constructor | constructor|].
  change (intervals_of (p :: q :: rest))
    with ((q - p)%Z :: intervals_of (q :: rest)).
  inversion Hall as [|? ? Hp Hrest]; subst.
  constructor; [|now apply IH].
  inversion Hrest; subst. lia.
Qed.

(** The intervals add up to the way from the first pitch to the last. *)
Lemma intervals_telescope (pitches : list Z) (d : Z) :
  fold_right Z.add 0%Z (intervals_of pitches)
  = (last pitches d - hd d pitches)%Z.
Proof.
  induction pitches as [|p [|q rest] IH]; [simpl; lia | simpl; lia|].
  change (intervals_of (p :: q :: rest))
    with ((q - p)%Z :: intervals_of (q :: rest)).
  change (last (p :: q :: rest) d) with (last (q :: rest) d).
  cbn [fold_right hd] in *. rewrite IH. lia.
Qed.

Lemma last_map_pitch (notes : list Note) (d : Note) :
  last (map pitch notes) (pitch d) = pitch (last notes d).
Proof.
  induction notes as [|n [|m rest] IH]; [reflexivity | reflexivity|].
  exact IH.
Qed.

Lemma intervals_length (pitches : list Z) :
  List.length (intervals_of pitches) = (List.length pitches - 1)%nat.
Proof.
  induction pitches as [|p [|q rest] IH]; [reflexivity | reflexivity|].
  change (intervals_of (p :: q :: rest))
    with ((q - p)%Z :: intervals_of (q :: rest)).
  cbn [List.length] in *. lia.
Qed.

(** For every note list: the pitch range is not negative, no melodic
    interval exceeds it in either direction, there is one interval less
    than there are notes, the intervals add up to the last pitch minus the
    first, and the rhythm diversity and the melody density are not
    negative. *)
Theorem analyze_melody_characteristics_shape (notes : list Note) (d : Note) :
  let r := analyze_melody_characteristics notes in
  (0 <= pitch_range r)%Z /\
  Forall (fun i => (- pitch_range r <= i <= pitch_range r)%Z)
         (melodic_intervals r) /\
  List.length (melodic_intervals r) = (List.length notes - 1)%nat /\
  fold_right Z.add 0%Z (melodic_intervals r)
  = (pitch (last notes d) - pitch (hd d notes))%Z /\
  (0 <= rhythm_diversity r)%R /\
  0 <= melody_density r.
Proof.
  destruct notes as [|n ns].
  { simpl. split; [lia|]. split; [constructor|]. split; [reflexivity|].
    split; [lia|]. split; [apply Rle_refl | apply Qle_refl]. }
  cbv zeta. unfold analyze_melody_characteristics. cbv zeta.
  cbn [pitch_range melodic_intervals rhythm_diversity melody_density].
  set (notes := n :: ns).
  destruct (min_pitch_least (map pitch ns) (pitch n)) as [Hmin1 Hmin2].
  destruct (max_pitch_greatest (map pitch ns) (pitch n)) as [Hmax1 Hmax2].
  set (lo := MelodyPipeline.min_pitch (pitch n) (map pitch ns)) in *.
  set (hi := MelodyPipeline.max_pitch (pitch n) (map pitch ns)) in *.
  split; [lia|]. split.
  { eapply Forall_impl;
      [|apply (intervals_bounded lo hi (map pitch notes))].
    - intros i Hi. simpl in Hi. lia.
    - unfold notes. cbn [map]. constructor; [lia|].
      rewrite Forall_forall in *. intros q Hq.
      specialize (Hmin2 q Hq). specialize (Hmax2 q Hq). lia. }
  split; [now rewrite intervals_length, length_map|].
  split.
  { rewrite (intervals_telescope (map pitch notes) (pitch d)).
    rewrite last_map_pitch. reflexivity. }
  split.
  { destruct (Nat.ltb 1 _); [apply sqrt_pos | apply Rle_refl]. }
  destruct (Qlt_le_dec 0 _) as [Hpos | _]; [|apply Qle_refl].
  apply Qle_shift_div_l; [assumption|].
  assert (H : 0 <= inject_Z (Z.of_nat (List.length notes)))
    by (change 0 with (inject_Z 0); rewrite <- Zle_Qle; lia).
  lra.
Qed.

End MelodyCharacteristicsShape.

(** [filter_notes_by_confidence] at the default 0.7 keeps the notes at or
    above it, in order. *)
Example filter_notes_default_confidence :
  MelodyAnalysis.filter_notes_by_confidence
    [ Melody.mkNote 69 0 (1 # 5) (1 # 5) (9 # 10) 57;
      Melody.mkNote 60 (3 # 10) (2 # 5) (1 # 10) (6 # 10) 38 ]%Q (7 # 10)%Q
  = [ Melody.mkNote 69 0 (1 # 5) (1 # 5) (9 # 10) 57 ]%Q.
Proof. reflexivity. Qed.

(** ** The characteristics of a drum pattern (drums.py,
    [analyze_drum_pattern]) *)

Section DrumPatternShape.
Import Drums Collections DrumPattern.
Local Open Scope Q_scope.

Lemma regularity_range (s : R) :
  (0 <= s)%R -> (0 < 1 / (1 + s) <= 1)%R.
Proof.
  intros Hs. split.
  - apply Rdiv_lt_0_compat; lra.
  - apply (Rmult_le_reg_r (1 + s)); [lra|]. field_simplify; lra.
Qed.

(** For a non-empty hit list: the counts of the distribution add up to the
    number of hits, the pattern complexity is above 0 and at most 1, the hit
    density is not negative, the hit times are those of the hits in their
    order, and the timing regularity lies between 0 and 1; from two hits on
    it is above 0. *)
Theorem analyze_drum_pattern_shape (drum_hits : list DrumHit) (tempo : Q) :
  drum_hits <> [] ->
  let r := analyze_drum_pattern drum_hits tempo in
  total_hits r = List.length drum_hits /\
  counter_total (drum_distribution r) = total_hits r /\
  0 < pattern_complexity r <= 1 /\
  0 <= hit_density r /\
  hit_times r = Some (map time drum_hits) /\
  exists regularity,
    timing_regularity r = Some regularity /\
    (0 <= regularity <= 1)%R /\
    ((2 <= List.length drum_hits)%nat -> (0 < regularity)%R).
Proof.
  intros Hne. destruct drum_hits as [|hit hits]; [congruence|].
  cbv zeta. unfold analyze_drum_pattern. cbv zeta.
  cbn [total_hits drum_distribution pattern_complexity hit_density
       hit_times timing_regularity].
  set (drum_hits := hit :: hits).
  pose proof (counter_total_Counter string String.eqb
                (map type drum_hits)) as Htotal.
  rewrite length_map in Htotal.
  destruct (Counter_keys string String.eqb String.eqb_eq
              (map type drum_hits)) as [_ Hpos].
  pose proof (counter_length_le_total _ Hpos) as Hle.
  rewrite Htotal in Hle.
  assert (Hlen : (0 < List.length drum_hits)%nat) by (simpl; lia).
  assert (Hcount : (0 < List.length (Counter String.eqb (map type drum_hits)))%nat).
  { destruct (Counter String.eqb (map type drum_hits)) eqn:Ec;
      [|simpl; lia].
    unfold counter_total in Htotal. simpl in Htotal. lia. }
  split; [reflexivity|]. split; [exact Htotal|].
  assert (Hn : 0 < inject_Z (Z.of_nat (List.length drum_hits)))
    by (change 0 with (inject_Z 0); rewrite <- Zlt_Qlt; lia).
  split.
  { assert (Hc : 0 < inject_Z (Z.of_nat
                    (List.length (Counter String.eqb (map type drum_hits)))))
      by (change 0 with (inject_Z 0); rewrite <- Zlt_Qlt; lia).
    assert (Hcl : inject_Z (Z.of_nat
                    (List.length (Counter String.eqb (map type drum_hits))))
                  <= inject_Z (Z.of_nat (List.length drum_hits)))
      by (rewrite <- Zle_Qle; lia).
    split.
    - apply Qlt_shift_div_l; lra.
    - apply Qle_shift_div_r; lra. }
  split.
  { destruct (Qlt_le_dec 0 _) as [Hd | _]; [|apply Qle_refl].
    apply Qle_shift_div_l; [assumption | lra]. }
  split; [reflexivity|].
  eexists. split; [reflexivity|].
  destruct (Nat.ltb 1 (List.length (map time drum_hits))) eqn:El.
  - pose proof (regularity_range
                  (np_std (TimingAnalysis.np_diff (map time drum_hits)))
                  (sqrt_pos _)) as Hr.
    split; [lra | intros _; lra].
  - apply Nat.ltb_ge in El. rewrite length_map in El.
    split; [lra | intros H; lia].
Qed.

End DrumPatternShape.

Lemma analyze_drum_pattern_shape_witness :
  let r :=
    DrumPattern.analyze_drum_pattern
      [ Drums.mkDrumHit 0 "kick" 0 4410;
        Drums.mkDrumHit (1 # 2) "hat" 19845 26460;
        Drums.mkDrumHit 1 "hat" 41895 48510 ]%Q 120%Q in
  DrumPattern.total_hits r
  = List.length
      [ Drums.mkDrumHit 0 "kick" 0 4410;
        Drums.mkDrumHit (1 # 2) "hat" 19845 26460;
        Drums.mkDrumHit 1 "hat" 41895 48510 ]%Q /\
  Collections.counter_total (DrumPattern.drum_distribution r)
  = DrumPattern.total_hits r /\
  (0 < DrumPattern.pattern_complexity r <= 1)%Q /\
  (0 <= DrumPattern.hit_density r)%Q /\
  DrumPattern.hit_times r
  = Some (map Drums.time
            [ Drums.mkDrumHit 0 "kick" 0 4410;
              Drums.mkDrumHit (1 # 2) "hat" 19845 26460;
              Drums.mkDrumHit 1 "hat" 41895 48510 ]%Q) /\
  exists regularity,
    DrumPattern.timing_regularity r = Some regularity /\
    (0 <= regularity <= 1)%R /\
    ((2 <= List.length
             [ Drums.mkDrumHit 0 "kick" 0 4410;
               Drums.mkDrumHit (1 # 2) "hat" 19845 26460;
               Drums.mkDrumHit 1 "hat" 41895 48510 ]%Q)%nat ->
     (0 < regularity)%R).
Proof.
  apply analyze_drum_pattern_shape. discriminate.
Defined.

Example analyze_drum_pattern_three :
  let r :=
    DrumPattern.analyze_drum_pattern
      [ Drums.mkDrumHit 0 "kick" 0 4410;
        Drums.mkDrumHit (1 # 2) "hat" 19845 26460;
        Drums.mkDrumHit 1 "hat" 41895 48510 ]%Q 120%Q in
  DrumPattern.drum_distribution r = [("kick", 1); ("hat", 2)]%string%nat /\
  (DrumPattern.hit_density r == 3)%Q /\
  (DrumPattern.pattern_complexity r == 2 # 3)%Q.
Proof. vm_compute. repeat split. Qed.
